(** * FestWiz: schedule and rating algorithms

    A shallow embedding of the algorithmic core of [schedule.js] and
    [app.js]: the day-relative time model, the timeline column layout,
    the conflict detection of the timeline view, the spreadsheet importer,
    the merge of the show collections, show deletion and the rating-key
    migration.

    Around that core the development also covers the clock strings of the
    grid and of the forms, the add-show form, the rating keys and rating
    clicks of the artist page, the admission filter, HTML escaping, the
    list of days and the order of the venues of a day.

    Conventions of the embedding.
    - A JavaScript string is a [string]: a sequence of code units below
      U+0100.  Case mapping and white space follow ECMAScript on that range.
    - A JavaScript number is a [Z] (or a [nat] where it is a count or an
      index).  [Number] and [parseInt] are modelled on plain decimal digit
      strings of at most twelve digits, where every value and every
      intermediate result of the arithmetic below is an exact double;
      anything else is reported as [Unmodelled].
    - A string property that is [null] is [None]; a flag or an id that is
      absent is [false] or [None], as only its truthiness is read.
    - Objects used as maps ([ratings], [artistEntityIdMap],
      [venueToClusterKey], [clusterByKey], [venueMaxRating]) are finite maps
      over their own properties.  In the code a key that names a property
      of [Object.prototype] and is no own property finds the inherited
      value; [Objects.inherited] lists these names, and a property that
      rests on the lookup of a name taken from the data (an artist name, a
      venue) assumes that the name is not one of them.  The keys of
      [ratings] start with [eid_] or [name_] and are never such names.
    - An exception is [Throw]; a computation that leaves the modelled
      fragment is [Unmodelled]. *)

From Stdlib Require Import ZArith Ascii String List Bool Lia Permutation Sorted.
From Stdlib Require Import DecimalString DecimalNat.
From stdpp Require Import base option list gmap strings.

Local Open Scope Z_scope.

(** ** Outcomes of JavaScript computations *)

Inductive outcome (A : Type) : Type :=
| Ok (a : A)
| Throw
| Unmodelled.
Arguments Ok {A} a.
Arguments Throw {A}.
Arguments Unmodelled {A}.

Definition obind {A B} (m : outcome A) (k : A -> outcome B) : outcome B :=
  match m with
  | Ok a => k a
  | Throw => Throw
  | Unmodelled => Unmodelled
  end.

Notation "'do' x <- m ; k" := (obind m (fun x => k))
  (at level 10, x name, m at level 100, k at level 200).

Fixpoint omapM {A B} (f : A -> outcome B) (l : list A) : outcome (list B) :=
  match l with
  | [] => Ok []
  | x :: r => do y <- f x; do ys <- omapM f r; Ok (y :: ys)
  end.

(** ** JavaScript string primitives *)

Module JS.

Definition code (c : ascii) : nat := nat_of_ascii c.

Definition isDigit (c : ascii) : bool :=
  (48 <=? code c)%nat && (code c <=? 57)%nat.

Definition digitVal (c : ascii) : nat := (code c - 48)%nat.

(** White space and line terminators below U+0100: TAB, LF, VT, FF, CR,
    SPACE and NBSP.  This is the class of [\s] and of [trim]. *)
Definition isSpace (c : ascii) : bool :=
  let n := code c in
  ((9 <=? n)%nat && (n <=? 13)%nat) || (n =? 32)%nat || (n =? 160)%nat.

Fixpoint allChars (p : ascii -> bool) (s : string) : bool :=
  match s with
  | EmptyString => true
  | String c r => p c && allChars p r
  end.

Fixpoint dropWhile (p : ascii -> bool) (s : string) : string :=
  match s with
  | EmptyString => EmptyString
  | String c r => if p c then dropWhile p r else s
  end.

Definition trimStart (s : string) : string := dropWhile isSpace s.

Fixpoint trimEnd (s : string) : string :=
  match s with
  | EmptyString => EmptyString
  | String c r =>
      match trimEnd r with
      | EmptyString => if isSpace c then EmptyString else String c EmptyString
      | r' => String c r'
      end
  end.

Definition trim (s : string) : string := trimEnd (trimStart s).

(** [c.toLowerCase()] on one code unit below U+0100. *)
Definition lowerChar (c : ascii) : ascii :=
  let n := code c in
  if ((65 <=? n)%nat && (n <=? 90)%nat)
     || ((192 <=? n)%nat && (n <=? 222)%nat && negb (n =? 215)%nat)
  then ascii_of_nat (n + 32) else c.

(** [c.toUpperCase()] on the letters a-z, the only ones it is applied to. *)
Definition upperChar (c : ascii) : ascii :=
  let n := code c in
  if (97 <=? n)%nat && (n <=? 122)%nat then ascii_of_nat (n - 32) else c.

Fixpoint mapChars (f : ascii -> ascii) (s : string) : string :=
  match s with
  | EmptyString => EmptyString
  | String c r => String (f c) (mapChars f r)
  end.

Definition toLowerCase (s : string) : string := mapChars lowerChar s.
Definition toUpperCase (s : string) : string := mapChars upperChar s.

Fixpoint filterChars (p : ascii -> bool) (s : string) : string :=
  match s with
  | EmptyString => EmptyString
  | String c r => if p c then String c (filterChars p r) else filterChars p r
  end.

Fixpoint startsWith (pre s : string) : bool :=
  match pre, s with
  | EmptyString, _ => true
  | String a p, String b r => Ascii.eqb a b && startsWith p r
  | String _ _, EmptyString => false
  end.

Fixpoint includes (needle s : string) : bool :=
  startsWith needle s ||
  match s with
  | EmptyString => false
  | String _ r => includes needle r
  end.

(** [s.split(sep)] for a one-character separator. *)
Fixpoint splitChar (sep : ascii) (s : string) : list string :=
  match s with
  | EmptyString => [EmptyString]
  | String c r =>
      if Ascii.eqb c sep then EmptyString :: splitChar sep r
      else match splitChar sep r with
           | f :: fs => String c f :: fs
           | [] => [String c EmptyString]
           end
  end.

(** Value of a string of decimal digits, most significant first. *)
Fixpoint digitsValue (acc : nat) (s : string) : nat :=
  match s with
  | EmptyString => acc
  | String c r => digitsValue (10 * acc + digitVal c) r
  end.

(** [Number(s)] on the modelled fragment: at most twelve decimal digits
    ([Number("")] is 0).  [None] stands for every other argument, where
    JavaScript yields NaN or a value this model does not cover. *)
Definition Number (s : string) : option Z :=
  if allChars isDigit s && (String.length s <=? 12)%nat
  then Some (Z.of_nat (digitsValue 0 s)) else None.

(** [parseInt(s)] for a string that starts with a digit: the value of its
    longest prefix of digits; [None] otherwise (NaN, signs and leading
    blanks are not modelled). *)
Fixpoint takeWhile (p : ascii -> bool) (s : string) : string :=
  match s with
  | EmptyString => EmptyString
  | String c r => if p c then String c (takeWhile p r) else EmptyString
  end.

Definition parseInt (s : string) : option nat :=
  match takeWhile isDigit s with
  | EmptyString => None
  | ds => if (String.length ds <=? 12)%nat then Some (digitsValue 0 ds) else None
  end.

(** [String(n)] for a non-negative integer. *)
Definition toString (n : nat) : string :=
  NilEmpty.string_of_uint (Nat.to_uint n).

Fixpoint repeatChar (c : ascii) (n : nat) : string :=
  match n with
  | O => EmptyString
  | S k => String c (repeatChar c k)
  end.

(** [s.padStart(n, "0")]. *)
Definition padStart0 (n : nat) (s : string) : string :=
  repeatChar "0" (n - String.length s) +:+ s.

(** [s.slice(0, n)] and [s.slice(n)]. *)
Fixpoint take (n : nat) (s : string) : string :=
  match n, s with
  | S k, String c r => String c (take k r)
  | _, _ => EmptyString
  end.

Fixpoint drop (n : nat) (s : string) : string :=
  match n, s with
  | S k, String _ r => drop k r
  | _, _ => s
  end.

End JS.

(** ** Time model ([schedule.js], timeline view) *)

Definition DAY_START_HOUR : Z := 9.

(** [minutesFromDayStart(timeStr)].  The destructuring [[h, m]] takes the
    first two fields of the split; a missing second field is [undefined]
    and makes the result NaN. *)
Definition minutesFromDayStart (timeStr : string) : outcome Z :=
  match map JS.Number (JS.splitChar ":" timeStr) with
  | Some h :: Some m :: _ =>
      let effectiveH := if h <? DAY_START_HOUR then h + 24 else h in
      Ok ((effectiveH - DAY_START_HOUR) * 60 + m)
  | _ => Unmodelled
  end.

(** ** Data model *)

(** A show object, with the properties the modelled code reads or writes.
    [entity_id] is the numeric catalog id; 0, like [null], is falsy. *)
Record Show : Type := mkShow {
  id : string;
  artist_name : string;
  venue : string;
  day : string;
  start_time : option string;
  end_time : option string;
  no_set_time : bool;
  source : string;
  showcase : string;
  notes : string;
  entity_id : option nat
}.

(** Truthiness of a string-valued property: present and not empty. *)
Definition truthyStr (o : option string) : bool :=
  match o with
  | Some s => negb (String.eqb s EmptyString)
  | None => false
  end.

(** The natural key of the specification. *)
Definition naturalKey (s : Show) : string * string * string * option string :=
  (artist_name s, venue s, day s, start_time s).

(** Interpolation of a possibly [null] string in a template literal. *)
Definition interp (o : option string) : string :=
  match o with
  | Some s => s
  | None => "null"
  end.

(** The key of the merge code:
    [`${s.artist_name}|${s.venue}|${s.day}|${s.start_time}`]. *)
Definition mergeKey (s : Show) : string :=
  artist_name s +:+ "|" +:+ venue s +:+ "|" +:+ day s +:+ "|" +:+ interp (start_time s).

(** ** Offsets of a show

    Both the layout and the conflict detection compute, for a show,
    [startMin = minutesFromDayStart(show.start_time)] and
    [endMin = show.end_time ? minutesFromDayStart(show.end_time)
                            : startMin + 45].
    The source recomputes the two numbers at every use; as
    [minutesFromDayStart] is pure, the embedding computes them once per show
    and carries them along.  [minutesFromDayStart(null)] throws (a property
    read on [null]). *)
Record Timed : Type := mkTimed {
  show : Show;
  startMin : Z;
  endMin : Z
}.

Definition timed (s : Show) : outcome Timed :=
  match start_time s with
  | None => Throw
  | Some st =>
      do startMin <- minutesFromDayStart st;
      do endMin <- (if truthyStr (end_time s)
                    then minutesFromDayStart (interp (end_time s))
                    else Ok (startMin + 45));
      Ok (mkTimed s startMin endMin)
  end.

(** The overlap test [startA < endB && endA > startB]. *)
Definition overlapb (a b : Timed) : bool :=
  (startMin a <? endMin b) && (endMin a >? startMin b).

(** ** Column layout ([layoutColumns]) *)

Module Layout.

(** [[...shows].sort((a, b) => start(a) - start(b))]: the sort of an array
    is stable, so the result is the stable sort by start offset, written
    here as an insertion sort. *)
Fixpoint insert (x : Timed) (l : list Timed) : list Timed :=
  match l with
  | [] => [x]
  | y :: r => if startMin x <=? startMin y then x :: l else y :: insert x r
  end.

Fixpoint sort (l : list Timed) : list Timed :=
  match l with
  | [] => []
  | x :: r => insert x (sort r)
  end.

(** An entry [{ endMin, col }] of the [active] array. *)
Record Active : Type := mkActive { a_endMin : Z; a_col : nat }.

(** [let col = 0; while (usedCols.has(col)) col++;], the loop unrolled
    [fuel] times. *)
Fixpoint freeFrom (fuel : nat) (usedCols : list nat) (col : nat) : nat :=
  match fuel with
  | O => col
  | S f => if existsb (Nat.eqb col) usedCols then freeFrom f usedCols (S col) else col
  end.

(** The loop leaves after at most [usedCols.size] increments. *)
Definition freeCol (usedCols : list nat) : nat :=
  freeFrom (S (length usedCols)) usedCols 0.

(** An element [{ show, col, totalCols }] of the result. *)
Record Placed : Type := mkPlaced {
  p_show : Timed;
  col : nat;
  totalCols : nat
}.

(** First loop: one iteration per show of the sorted array. *)
Fixpoint assign (active : list Active) (sorted : list Timed) : list Placed :=
  match sorted with
  | [] => []
  | s :: rest =>
      let still := List.filter (fun a => a_endMin a >? startMin s) active in
      let c := freeCol (map a_col still) in
      mkPlaced s c 1 :: assign (still ++ [mkActive (endMin s) c]) rest
  end.

(** Inner loop of the second pass, for the entry [pi]. *)
Definition maxColOver (result : list Placed) (pi : Placed) : nat :=
  fold_left
    (fun maxCol pj => if overlapb (p_show pi) (p_show pj) then Nat.max maxCol (col pj) else maxCol)
    result (col pi).

(** Second pass.  It writes [totalCols] only and reads [col] and the
    offsets only, so every entry is computed from the result of the first
    loop. *)
Definition secondPass (result : list Placed) : list Placed :=
  map (fun pi => mkPlaced (p_show pi) (col pi) (S (maxColOver result pi))) result.

Definition layoutTimed (ts : list Timed) : list Placed :=
  secondPass (assign [] (sort ts)).

Definition layoutColumns (shows : list Show) : outcome (list Placed) :=
  do ts <- omapM timed shows; Ok (layoutTimed ts).

End Layout.

(** ** Rating keys ([showRatingKey], [artistKey]) *)

Module Identity.

Definition isSlugChar (c : ascii) : bool :=
  let n := JS.code c in
  ((97 <=? n)%nat && (n <=? 122)%nat) || JS.isDigit c.

(** [name.toLowerCase().replace(/[^a-z0-9]/g, '_')]. *)
Definition slug (name : string) : string :=
  JS.mapChars (fun c => if isSlugChar c then c else "_"%char) (JS.toLowerCase name).

Definition eidKey (eid : nat) : string := "eid_" +:+ JS.toString eid.
Definition nameKey (name : string) : string := "name_" +:+ slug name.

(** Truthiness of a numeric property: present and not 0. *)
Definition truthyId (o : option nat) : bool :=
  match o with
  | Some n => negb (n =? 0)%nat
  | None => false
  end.

Definition truthyRating (o : option Z) : bool :=
  match o with
  | Some v => negb (v =? 0)
  | None => false
  end.

(** [showRatingKey(show)] of [schedule.js]; [artistEntityIdMap] maps a
    lower-cased artist name to its entity id. *)
Definition showRatingKey (artistEntityIdMap : gmap string nat) (s : Show) : string :=
  match entity_id s with
  | Some (S n) => eidKey (S n)
  | _ =>
      let name := JS.toLowerCase (artist_name s) in
      match artistEntityIdMap !! name with
      | Some (S n) => eidKey (S n)
      | _ => "name_" +:+ JS.mapChars (fun c => if isSlugChar c then c else "_"%char) name
      end
  end.

(** [getRating(show)]: [ratings[showRatingKey(show)] || 0]. *)
Definition getRating (ratings : gmap string Z) (artistEntityIdMap : gmap string nat)
    (s : Show) : Z :=
  match ratings !! showRatingKey artistEntityIdMap s with
  | Some v => v
  | None => 0
  end.

(** An artist object of [app.js], with the properties the migration reads. *)
Record Artist : Type := mkArtist {
  name : string;
  a_entity_id : option nat
}.

(** One iteration of the migration loop of [loadArtists]. *)
Definition migrateOne (ratings : gmap string Z) (a : Artist) : gmap string Z :=
  match a_entity_id a with
  | Some (S n) =>
      let eidK := eidKey (S n) in
      let nameK := nameKey (name a) in
      if negb (truthyRating (ratings !! eidK)) && truthyRating (ratings !! nameK)
      then match ratings !! nameK with
           | Some v => delete nameK (<[eidK := v]> ratings)
           | None => ratings
           end
      else ratings
  | _ => ratings
  end.

(** The migration loop [for (const a of allArtists) ...]. *)
Definition migrate (allArtists : list Artist) (ratings : gmap string Z) : gmap string Z :=
  fold_left migrateOne allArtists ratings.

End Identity.

(** ** Conflict detection of the timeline view ([renderTimeline]) *)

Module Timeline.

(** The identity under which a show enters the [conflicting] set:
    [a.artist_name + a.venue + a.start_time]. *)
Definition conflictKey (s : Show) : string :=
  artist_name s +:+ venue s +:+ interp (start_time s).

(** [todayShows().filter(s => s.start_time && !s.no_set_time)]. *)
Definition timelineShows (today : list Show) : list Show :=
  List.filter (fun s => truthyStr (start_time s) && negb (no_set_time s)) today.

(** Inner loop [for (j = i + 1; ...)], for a fixed [a = ratedShows[i]]. *)
Definition conflictInner (a : Timed) (later : list Timed) (conflicting : gset string)
    : gset string :=
  fold_left
    (fun acc b =>
       if overlapb a b
       then {[conflictKey (show b)]} ∪ ({[conflictKey (show a)]} ∪ acc)
       else acc)
    later conflicting.

(** Outer loop [for (i = 0; ...)]. *)
Fixpoint conflictLoop (ratedShows : list Timed) (conflicting : gset string) : gset string :=
  match ratedShows with
  | [] => conflicting
  | a :: later => conflictLoop later (conflictInner a later conflicting)
  end.

Definition rated (ratings : gmap string Z) (artistEntityIdMap : gmap string nat)
    (s : Show) : bool :=
  Identity.getRating ratings artistEntityIdMap s >? 0.

(** The [conflicting] set computed for the shows of the selected day. *)
Definition conflicting (ratings : gmap string Z) (artistEntityIdMap : gmap string nat)
    (today : list Show) : outcome (gset string) :=
  let shows := timelineShows today in
  let ratedShows := List.filter (rated ratings artistEntityIdMap) shows in
  do ts <- omapM timed ratedShows; Ok (conflictLoop ts ∅).

(** [conflicting.has(show.artist_name + show.venue + show.start_time)]. *)
Definition isConflict (conflicting : gset string) (s : Show) : bool :=
  bool_decide (conflictKey s ∈ conflicting).

End Timeline.

(** ** The show store: merge, import confirmation and deletion *)

Module Store.

(** The page state: the in-memory collection, the list persisted under
    [sxsw2026_user_shows], and the ratings. *)
Record State : Type := mkState {
  allShows : list Show;
  userShows : list Show;
  ratings : gmap string Z
}.

(** [new Set(shows.map(s => key(s)))]. *)
Definition keySet (shows : list Show) : gset string :=
  list_to_set (map mergeKey shows).

(** The merge idiom: the key set is built once from the collection, then
    every incoming show whose key is not in it is pushed. *)
Definition mergeInto (collection incoming : list Show) : list Show :=
  let existingKeys := keySet collection in
  collection ++ List.filter (fun s => negb (bool_decide (mergeKey s ∈ existingKeys))) incoming.

(** [loadAll]: [official] is the content of [shows.json] (empty when the
    fetch failed), [unofficial] that of [unofficial_shows.json] ([None] when
    the response is not ok, is not an array or was never read), [stored] the
    persisted user shows. *)
Definition loadAll (official : list Show) (unofficial : option (list Show))
    (stored : list Show) : list Show :=
  let merged :=
    match unofficial with
    | Some u => mergeInto official u
    | None => official
    end in
  mergeInto merged stored.

(** [appendUserShows(newShows)]. *)
Definition appendUserShows (newShows stored : list Show) : list Show :=
  mergeInto stored newShows.

(** The click handler of the confirm button. *)
Definition confirmImport (pendingCsvShows : list Show) (st : State) : State :=
  match pendingCsvShows with
  | [] => st
  | _ =>
      let existingKeys := keySet (allShows st) in
      let newShows :=
        List.filter (fun s => negb (bool_decide (mergeKey s ∈ existingKeys))) pendingCsvShows in
      mkState (allShows st ++ newShows) (appendUserShows newShows (userShows st)) (ratings st)
  end.

Definition optStrEqb (a b : option string) : bool :=
  match a, b with
  | Some x, Some y => String.eqb x y
  | None, None => true
  | _, _ => false
  end.

(** The predicate of the two filters of [deleteShow], before negation. *)
Definition sameShow (target s : Show) : bool :=
  String.eqb (artist_name s) (artist_name target)
  && String.eqb (venue s) (venue target)
  && String.eqb (day s) (day target)
  && optStrEqb (start_time s) (start_time target).

(** [deleteShow(show)]. *)
Definition deleteShow (target : Show) (st : State) : State :=
  mkState (List.filter (fun s => negb (sameShow target s)) (allShows st))
          (List.filter (fun s => negb (sameShow target s)) (userShows st))
          (ratings st).

End Store.

(** ** The schedule importer ([parseScheduleCsv]) *)

Module Importer.

Definition LF : ascii := "010"%char.
Definition CR : ascii := "013"%char.
Definition quote : ascii := "034"%char.

(** [csvText.split(/\r?\n/)]. *)
Fixpoint splitLines (s : string) : list string :=
  match s with
  | EmptyString => [EmptyString]
  | String c r =>
      if Ascii.eqb c LF then EmptyString :: splitLines r
      else
        match r with
        | String c' r' =>
            if Ascii.eqb c CR && Ascii.eqb c' LF then EmptyString :: splitLines r'
            else match splitLines r with
                 | f :: fs => String c f :: fs
                 | [] => [String c EmptyString]
                 end
        | EmptyString => [String c EmptyString]
        end
  end.

(** The character loop that splits one line into trimmed fields. *)
Fixpoint splitFields (row : string) (current : string) (inQuotes : bool) : list string :=
  match row with
  | EmptyString => [JS.trim current]
  | String char r =>
      if Ascii.eqb char quote then splitFields r current (negb inQuotes)
      else if Ascii.eqb char "," && negb inQuotes
           then JS.trim current :: splitFields r EmptyString inQuotes
           else splitFields r (current +:+ String char EmptyString) inQuotes
  end.

Definition parseRows (csvText : string) : list (list string) :=
  map (fun row => splitFields row EmptyString false) (splitLines csvText).

(** [rows[0].slice(1).map(v => v.replace(/[<>]/g, '').trim())]. *)
Definition isArrow (c : ascii) : bool := Ascii.eqb c "<" || Ascii.eqb c ">".

Definition venuesOf (header : list string) : list string :=
  map (fun v => JS.trim (JS.filterChars (fun c => negb (isArrow c)) v)) (tl header).

(** The tail [\s*(AM|PM)$] of the hour-marker pattern, with flag [i]. *)
Definition periodMatch (s : string) : option string :=
  match JS.dropWhile JS.isSpace s with
  | String p (String q EmptyString) =>
      let P := JS.upperChar p in
      if (Ascii.eqb P "A" || Ascii.eqb P "P") && Ascii.eqb (JS.upperChar q) "M"
      then Some (String p (String q EmptyString)) else None
  | _ => None
  end.

(** The part [:(\d{2})\s*(AM|PM)$] after the hour digits [g1]. *)
Definition minutesMatch (g1 rest : string) : option (string * string * string) :=
  match rest with
  | String m1 (String m2 rest') =>
      if JS.isDigit m1 && JS.isDigit m2
      then match periodMatch rest' with
           | Some g3 => Some (g1, String m1 (String m2 EmptyString), g3)
           | None => None
           end
      else None
  | _ => None
  end.

(** [timeLabel.match(/^(\d{1,2}):(\d{2})\s*(AM|PM)$/i)]: the three groups. *)
Definition hourMatch (timeLabel : string) : option (string * string * string) :=
  match timeLabel with
  | String d1 (String c2 rest) =>
      if JS.isDigit d1 && Ascii.eqb c2 ":"
      then minutesMatch (String d1 EmptyString) rest
      else
        match rest with
        | String c3 rest' =>
            if JS.isDigit d1 && JS.isDigit c2 && Ascii.eqb c3 ":"
            then minutesMatch (String d1 (String c2 EmptyString)) rest'
            else None
        | EmptyString => None
        end
  | _ => None
  end.

(** [/^(day\s*\d|<|>)/i.test(timeLabel)]. *)
Definition navHint (timeLabel : string) : bool :=
  JS.startsWith "<" timeLabel || JS.startsWith ">" timeLabel ||
  (String.eqb (JS.toLowerCase (JS.take 3 timeLabel)) "day" &&
   match JS.dropWhile JS.isSpace (JS.drop 3 timeLabel) with
   | String d _ => JS.isDigit d
   | EmptyString => false
   end).

Fixpoint revString (s acc : string) : string :=
  match s with
  | EmptyString => acc
  | String c r => revString r (String c acc)
  end.

(** [cell.match(/\((\d{3,4})\)\s*$/)], read from the end of the cell:
    the group, and the text before the opening parenthesis.  The pattern
    of the [replace] that follows, [/\s*\(\d{3,4}\)\s*$/], matches the
    same suffix together with the blanks before it. *)
Definition timeOverride (cell : string) : option (string * string) :=
  match JS.dropWhile JS.isSpace (revString cell EmptyString) with
  | String c0 (String d1 (String d2 (String d3 (String c4 rest)))) =>
      if Ascii.eqb c0 ")" && JS.isDigit d1 && JS.isDigit d2 && JS.isDigit d3
      then
        if Ascii.eqb c4 "("
        then Some (String d3 (String d2 (String d1 EmptyString)), revString rest EmptyString)
        else
          match rest with
          | String c5 rest' =>
              if JS.isDigit c4 && Ascii.eqb c5 "("
              then Some (String c4 (String d3 (String d2 (String d1 EmptyString))),
                         revString rest' EmptyString)
              else None
          | EmptyString => None
          end
      else None
  | _ => None
  end.

Definition ofOption {A} (o : option A) : outcome A :=
  match o with
  | Some a => Ok a
  | None => Unmodelled
  end.

Definition hhmm (h : nat) (mm : string) : string :=
  JS.padStart0 2 (JS.toString h) +:+ ":" +:+ mm.

(** The object pushed for a cell; [now] is the value [Date.now()] returns
    at that moment. *)
Definition csvShow (now : nat) (index : nat) (artistName venue day startTime : string) : Show :=
  {| id := "csv_" +:+ JS.toString now +:+ "_" +:+ JS.toString index;
     artist_name := artistName;
     venue := venue;
     day := day;
     start_time := Some startTime;
     end_time := None;
     no_set_time := false;
     source := "user";
     showcase := EmptyString;
     notes := EmptyString;
     entity_id := None |}.

(** The body of the loop over the cells of a row, for the cell [row[c]] and
    the venue [venues[c - 1]] ([None] when out of range). *)
Definition emitCell (clock : nat -> nat) (day defaultSlotTime : string)
    (rawCell : string) (venueOpt : option string) (shows : list Show)
    : outcome (list Show) :=
  let cell := JS.trim rawCell in
  if String.eqb cell EmptyString then Ok shows else
  if negb (truthyStr venueOpt) then Ok shows else
  if JS.startsWith "(" cell || JS.startsWith "<" cell || JS.startsWith ">" cell
     || JS.includes "no set times" (JS.toLowerCase cell)
  then Ok shows else
  do named <-
    (match timeOverride cell with
     | Some (g1, before) =>
         let t := JS.padStart0 4 g1 in
         do h <- ofOption (JS.parseInt (JS.take 2 t));
         let m := JS.drop 2 t in
         let h' := if (h <? 9)%nat then (h + 12)%nat else h in
         Ok (JS.trim before, hhmm h' m)
     | None => Ok (cell, defaultSlotTime)
     end);
  let '(artistName, startTime) := named in
  if String.eqb artistName EmptyString then Ok shows else
  Ok (shows ++ [csvShow (clock (length shows)) (length shows) artistName
                  (interp venueOpt) day startTime]).

(** The variables the row loop carries. *)
Record Scan : Type := mkScan {
  currentBaseTime : option string;
  slotOffset : Z;
  shows : list Show
}.

(** [for (let c = 1; c < row.length; c++) ...]. *)
Definition emitRow (clock : nat -> nat) (day defaultSlotTime : string)
    (venues row : list string) (shows : list Show) : outcome (list Show) :=
  fold_left
    (fun acc c =>
       do shows <- acc;
       emitCell clock day defaultSlotTime (nth c row EmptyString)
                (venues !! (c - 1)%nat) shows)
    (seq 1 (length row - 1)) (Ok shows).

(** One iteration of the loop over the rows [rows[1]], [rows[2]], ... *)
Definition scanRow (clock : nat -> nat) (day : string) (venues : list string)
    (st : Scan) (row : list string) : outcome Scan :=
  if forallb (fun c => String.eqb c EmptyString) row then Ok st else
  let timeLabel := JS.trim (nth 0 row EmptyString) in
  match hourMatch timeLabel with
  | Some (g1, g2, g3) =>
      do h0 <- ofOption (JS.parseInt g1);
      let period := JS.toUpperCase g3 in
      let h1 := if String.eqb period "PM" && negb (h0 =? 12)%nat then (h0 + 12)%nat else h0 in
      let h := if String.eqb period "AM" && (h1 =? 12)%nat then 0%nat else h1 in
      Ok (mkScan (Some (hhmm h g2)) 0 (shows st))
  | None =>
      let slotOffset' := if String.eqb timeLabel EmptyString then 1 else slotOffset st in
      let st' := mkScan (currentBaseTime st) slotOffset' (shows st) in
      if negb (String.eqb timeLabel EmptyString) && navHint timeLabel then Ok st' else
      (* [if (!currentBaseTime) continue;] *)
      if negb (truthyStr (currentBaseTime st)) then Ok st' else
      match map JS.Number (JS.splitChar ":" (interp (currentBaseTime st))) with
      | Some baseH :: Some baseM :: _ =>
          let slotTotalMin := baseH * 60 + baseM + slotOffset' * 30 in
          let slotHH := (slotTotalMin / 60) mod 24 in
          let slotMM := slotTotalMin mod 60 in
          let defaultSlotTime := hhmm (Z.to_nat slotHH) (JS.padStart0 2 (JS.toString (Z.to_nat slotMM))) in
          do shows' <- emitRow clock day defaultSlotTime venues row (shows st);
          Ok (mkScan (currentBaseTime st) slotOffset' shows')
      | _ => Unmodelled
      end
  end.

Definition scanRows (clock : nat -> nat) (day : string) (venues : list string)
    (rows : list (list string)) (st : Scan) : outcome Scan :=
  fold_left (fun acc row => do st <- acc; scanRow clock day venues st row) rows (Ok st).

(** [parseScheduleCsv(csvText, day)].  [clock k] is what [Date.now()]
    returns when the show of index [k] is pushed. *)
Definition parseScheduleCsv (clock : nat -> nat) (csvText day : string) : outcome (list Show) :=
  match parseRows csvText with
  | [] => Ok []
  | header :: body =>
      do st <- scanRows clock day (venuesOf header) body (mkScan None 0 []);
      Ok (shows st)
  end.

End Importer.

(** ** Clock strings of the grid and of the forms ([schedule.js]) *)

Module Clock.

(** [String(n).padStart(2, '0')] for a number read by [Number]. *)
Definition pad2 (n : Z) : string := JS.padStart0 2 (JS.toString (Z.to_nat n)).

(** [timeStr.split(':').map(Number)], destructured as [[h, m]]. *)
Definition fields (timeStr : string) : outcome (Z * Z) :=
  match map JS.Number (JS.splitChar ":" timeStr) with
  | Some h :: Some m :: _ => Ok (h, m)
  | _ => Unmodelled
  end.

(** [nearestSlot(timeStr)]. *)
Definition nearestSlot (timeStr : string) : outcome string :=
  do hm <- fields timeStr;
  let '(h, m) := hm in
  let roundedM := if m <? 30 then "00"%string else "30"%string in
  Ok (pad2 h +:+ ":" +:+ roundedM).

(** [prevSlotKey(slotStr)]. *)
Definition prevSlotKey (slotStr : string) : outcome string :=
  do hm <- fields slotStr;
  let '(h, m) := hm in
  if m =? 0 then Ok (pad2 ((h - 1 + 24) mod 24) +:+ ":30")
  else Ok (pad2 h +:+ ":00").

(** The rows of the grid: the loop
    [for (h = DAY_START_HOUR; h < DAY_START_HOUR + 17; h++)] of [renderGrid]. *)
Definition gridSlots : list string :=
  flat_map (fun h => let hh := h mod 24 in [pad2 hh +:+ ":00"; pad2 hh +:+ ":30"])
           (map Z.of_nat (seq 9 17)).

(** [formatTime12(timeStr)]; a [null] or empty argument gives the empty
    string. *)
Definition formatTime12 (timeStr : option string) : outcome string :=
  if negb (truthyStr timeStr) then Ok EmptyString else
  do hm <- fields (interp timeStr);
  let '(h, m) := hm in
  let period := if h <? 12 then "AM"%string else "PM"%string in
  let h12 := if h mod 12 =? 0 then 12 else h mod 12 in
  Ok (JS.toString (Z.to_nat h12) +:+ ":" +:+ pad2 m +:+ " " +:+ period).

(** The two [if]s of [parseUserTime] that turn a 12-hour clock hour and its
    period into a 24-hour clock hour. *)
Definition to24 (h : nat) (period : string) : nat :=
  let h1 := if String.eqb period "PM" && negb (h =? 12)%nat then (h + 12)%nat else h in
  if String.eqb period "AM" && (h1 =? 12)%nat then 0%nat else h1.

(** The tail [(?::(\d{2}))?\s*(AM|PM)$] of the second pattern of
    [parseUserTime], after the hour digits: the minutes group (absent:
    [None]) and the period. *)
Definition meridiemTail (rest : string) : option (option string * string) :=
  match rest with
  | String c rest' =>
      if Ascii.eqb c ":" then
        match rest' with
        | String m1 (String m2 rest'') =>
            if JS.isDigit m1 && JS.isDigit m2
            then match Importer.periodMatch rest'' with
                 | Some p => Some (Some (String m1 (String m2 EmptyString)), p)
                 | None => None
                 end
            else None
        | _ => None
        end
      else match Importer.periodMatch rest with
           | Some p => Some (None, p)
           | None => None
           end
  | EmptyString => None
  end.

(** The hour digits [^(\d{1,2})] and what follows them. *)
Definition hourDigits (s : string) : option (string * string) :=
  match s with
  | String d1 rest =>
      if JS.isDigit d1 then
        match rest with
        | String d2 rest' =>
            if JS.isDigit d2 then Some (String d1 (String d2 EmptyString), rest')
            else Some (String d1 EmptyString, rest)
        | EmptyString => Some (String d1 EmptyString, rest)
        end
      else None
  | EmptyString => None
  end.

(** [str.match(/^(\d{1,2}):(\d{2})$/)]. *)
Definition match24 (s : string) : option (string * string) :=
  match hourDigits s with
  | Some (g1, String c (String m1 (String m2 EmptyString))) =>
      if Ascii.eqb c ":" && JS.isDigit m1 && JS.isDigit m2
      then Some (g1, String m1 (String m2 EmptyString)) else None
  | _ => None
  end.

(** [str.match(/^(\d{1,2})(?::(\d{2}))?\s*(AM|PM)$/i)]. *)
Definition match12 (s : string) : option (string * option string * string) :=
  match hourDigits s with
  | Some (g1, rest) =>
      match meridiemTail rest with
      | Some (g2, g3) => Some (g1, g2, g3)
      | None => None
      end
  | None => None
  end.

(** [parseUserTime(str)]; [Ok None] is [null]. *)
Definition parseUserTime (str : string) : outcome (option string) :=
  let str := JS.trim str in
  match match24 str with
  | Some (g1, g2) =>
      do h <- Importer.ofOption (JS.parseInt g1);
      Ok (Some (JS.padStart0 2 (JS.toString h) +:+ ":" +:+ g2))
  | None =>
      match match12 str with
      | Some (g1, g2, g3) =>
          do h <- Importer.ofOption (JS.parseInt g1);
          let mins := match g2 with Some mm => mm | None => "00"%string end in
          let period := JS.toUpperCase g3 in
          Ok (Some (JS.padStart0 2 (JS.toString (to24 h period)) +:+ ":" +:+ mins))
      | None => Ok None
      end
  end.

End Clock.

(** ** The add-show form ([setupAddShow]) *)

Module AddShow.

(** The values read from the form when Save is clicked. *)
Record Form : Type := mkForm {
  f_artist : string;
  f_venue : string;
  f_day : string;
  f_start : string;
  f_end : string;
  f_showcase : string;
  f_source : string;
  f_noSetTime : bool
}.

(** The click handler of the Save button; [now] is [Date.now()].  A form
    that is rejected (after an alert) leaves the state as it is.  The object
    pushed also carries [admission] and [website], which no modelled
    function reads. *)
Definition save (now : nat) (f : Form) (st : Store.State) : outcome Store.State :=
  let artist := JS.trim (f_artist f) in
  let venue := JS.trim (f_venue f) in
  let day := f_day f in
  let startRaw := JS.trim (f_start f) in
  let endRaw := JS.trim (f_end f) in
  let showcase := JS.trim (f_showcase f) in
  if String.eqb artist EmptyString || String.eqb venue EmptyString
     || String.eqb day EmptyString || String.eqb startRaw EmptyString
  then Ok st else
  do startTime <- Clock.parseUserTime startRaw;
  if negb (truthyStr startTime) then Ok st else
  do endTime <- (if String.eqb endRaw EmptyString then Ok None
                 else Clock.parseUserTime endRaw);
  let show :=
    {| id := "manual_" +:+ JS.toString now;
       artist_name := artist;
       venue := venue;
       day := day;
       start_time := startTime;
       end_time := endTime;
       no_set_time := f_noSetTime f;
       source := f_source f;
       showcase := showcase;
       notes := EmptyString;
       entity_id := None |} in
  Ok (Store.mkState (Store.allShows st ++ [show])
                    (Store.appendUserShows [show] (Store.userShows st))
                    (Store.ratings st)).

End AddShow.

(** ** Rating keys and rating clicks of the artist page ([app.js]) *)

Module ArtistPage.

(** [artistKey(artist)]. *)
Definition artistKey (a : Identity.Artist) : string :=
  if Identity.truthyId (Identity.a_entity_id a)
  then Identity.eidKey (match Identity.a_entity_id a with Some n => n | None => 0%nat end)
  else Identity.nameKey (Identity.name a).

(** The click handler of a rating button: clicking the current rating
    removes it, clicking another one sets it. *)
Definition clickRating (key : string) (newRating : Z) (ratings : gmap string Z)
    : gmap string Z :=
  if bool_decide (ratings !! key = Some newRating)
  then delete key ratings
  else <[key := newRating]> ratings.

End ArtistPage.

(** ** Plain objects used as maps *)

Module Objects.

(** The properties of [Object.prototype].  On an object created by [{}],
    [obj[k]] for one of these names finds the inherited function or object,
    which is truthy, unless the object has an own property [k]; and
    [obj["__proto__"] = v] stores no property. *)
Definition protoNames : list string :=
  [ "constructor"; "hasOwnProperty"; "isPrototypeOf"; "propertyIsEnumerable";
    "toLocaleString"; "toString"; "valueOf"; "__proto__";
    "__defineGetter__"; "__defineSetter__"; "__lookupGetter__";
    "__lookupSetter__" ]%string.

Definition inherited (k : string) : bool := existsb (String.eqb k) protoNames.

End Objects.

(** ** The name to entity-id map of the schedule page ([loadAll]) *)

Module Catalog.

(** The loop over [artistsData] that fills [artistEntityIdMap], which is
    empty when the page loads.  The map holds the own properties; a lookup
    of a name of [Objects.protoNames] is outside it. *)
Definition addArtist (m : gmap string nat) (a : Identity.Artist) : gmap string nat :=
  if String.eqb (Identity.name a) EmptyString then m
  else
    match Identity.a_entity_id a with
    | Some (S n) => <[JS.toLowerCase (Identity.name a) := S n]> m
    | _ => m
    end.

Definition entityIdMap (artistsData : list Identity.Artist) : gmap string nat :=
  fold_left addArtist artistsData ∅.

End Catalog.

(** ** The admission filter ([setupAdmissionFilter]) *)

Module Admission.

(** The click handler of an admission button: a type that is shown is
    hidden unless it is the only one, a hidden type is shown. *)
Definition toggle (type : string) (admissionFilter : gset string) : gset string :=
  if bool_decide (type ∈ admissionFilter)
  then if bool_decide (1 < size admissionFilter)%nat
       then admissionFilter ∖ {[type]} else admissionFilter
  else {[type]} ∪ admissionFilter.

(** The initial filter [new Set(['badge', 'cover', 'free'])]. *)
Definition initial : gset string :=
  {[ "badge"%string ]} ∪ ({[ "cover"%string ]} ∪ {[ "free"%string ]}).

End Admission.

(** ** HTML escaping ([escHtml] of [schedule.js], [escAttr] of [app.js]) *)

Module Html.

(** [s.replace(/c/g, rep)] for a one-character pattern. *)
Fixpoint replaceAll (c : ascii) (rep : string) (s : string) : string :=
  match s with
  | EmptyString => EmptyString
  | String x r =>
      if Ascii.eqb x c then rep +:+ replaceAll c rep r
      else String x (replaceAll c rep r)
  end.

Definition dquote : ascii := "034"%char.
Definition squote : ascii := "039"%char.

(** [escHtml(s)] of [schedule.js], for a string argument. *)
Definition escHtml (s : string) : string :=
  replaceAll dquote "&quot;"
    (replaceAll ">" "&gt;"
       (replaceAll "<" "&lt;"
          (replaceAll "&" "&amp;" s))).

(** [escAttr(str)] of [app.js]. *)
Definition escAttr (str : string) : string :=
  replaceAll ">" "&gt;"
    (replaceAll "<" "&lt;"
       (replaceAll squote "&#39;"
          (replaceAll dquote "&quot;"
             (replaceAll "&" "&amp;" str)))).

End Html.

(** ** Sets and default sorting of strings *)

Module Arrays.

(** [[...new Set(xs)]]: the distinct elements, in order of first
    occurrence. *)
Definition uniq (xs : list string) : list string :=
  fold_left (fun seen x => if existsb (String.eqb x) seen then seen else seen ++ [x]) xs [].

(** [xs.sort()] on strings: ascending order of code units, written as an
    insertion sort. *)
Fixpoint insertStr (x : string) (l : list string) : list string :=
  match l with
  | [] => [x]
  | y :: r => if String.leb x y then x :: l else y :: insertStr x r
  end.

Fixpoint sortStr (l : list string) : list string :=
  match l with
  | [] => []
  | x :: r => insertStr x (sortStr r)
  end.

End Arrays.

(** ** Days and venues of the schedule page *)

Module Days.

(** [allDays()]: [[...new Set(allShows.map(s => s.day))].sort()]. *)
Definition allDays (allShows : list Show) : list string :=
  Arrays.sortStr (Arrays.uniq (map day allShows)).

End Days.

Module Venues.

(** A group [{ venues, maxRating }]. *)
Record Group : Type := mkGroup { venues : list string; maxRating : Z }.

(** The key of a cluster, [cluster[0]]; for an empty cluster it is
    [undefined], which names the property "undefined". *)
Definition keyOf (cluster : list string) : string :=
  match cluster with
  | k :: _ => k
  | [] => "undefined"
  end.

(** The loop that fills [venueToClusterKey] and [clusterByKey], as maps over
    own properties.  The lookups of [visit] are those of the code for the
    venues that do not name a property of [Object.prototype]
    ([Objects.inherited]); for the others the code finds an inherited
    value. *)
Definition venueToClusterKey (clusterDefs : list (list string)) : gmap string string :=
  fold_left
    (fun m cluster => fold_left (fun m v => <[v := keyOf cluster]> m) cluster m)
    clusterDefs ∅.

Definition clusterByKey (clusterDefs : list (list string)) : gmap string (list string) :=
  fold_left (fun m cluster => <[keyOf cluster := cluster]> m) clusterDefs ∅.

(** The loop that fills [venueMaxRating]; [venueMaxRating[v] || 0] is the
    default of the own property, which is what the code reads for a venue
    that does not name a property of [Object.prototype]. *)
Definition venueMaxRating (getRating : Show -> Z) (dayShows : list Show) : gmap string Z :=
  fold_left
    (fun m show =>
       let r := getRating show in
       if r >? default 0 (m !! venue show) then <[venue show := r]> m else m)
    dayShows ∅.

(** [Math.max(0, ...xs)]. *)
Definition max0 (xs : list Z) : Z := fold_left Z.max xs 0.

(** One iteration of the loop over the sorted venues: the state is the
    [processed] set and the [groups] array. *)
Definition visit (venueSet : list string) (toKey : gmap string string)
    (byKey : gmap string (list string)) (maxOf : gmap string Z)
    (state : list string * list Group) (v : string) : list string * list Group :=
  let '(processed, groups) := state in
  if existsb (String.eqb v) processed then state else
  match toKey !! v with
  | Some clusterKey =>
      if negb (String.eqb clusterKey EmptyString) then
        let members :=
          List.filter (fun m => existsb (String.eqb m) venueSet)
                      (default [v] (byKey !! clusterKey)) in
        let maxRating := max0 (map (fun m => default 0 (maxOf !! m)) members) in
        (processed ++ members, groups ++ [mkGroup members maxRating])
      else (processed ++ [v], groups ++ [mkGroup [v] (default 0 (maxOf !! v))])
  | None => (processed ++ [v], groups ++ [mkGroup [v] (default 0 (maxOf !! v))])
  end.

(** [groups.sort((a, b) => b.maxRating - a.maxRating)]: the stable sort by
    descending rating. *)
Fixpoint insertGroup (g : Group) (l : list Group) : list Group :=
  match l with
  | [] => [g]
  | h :: r => if maxRating h <=? maxRating g then g :: l else h :: insertGroup g r
  end.

Fixpoint sortGroups (l : list Group) : list Group :=
  match l with
  | [] => []
  | g :: r => insertGroup g (sortGroups r)
  end.

(** The groups before sorting. *)
Definition buildGroups (clusterDefs : list (list string)) (getRating : Show -> Z)
    (dayShows : list Show) : list Group :=
  let venueSet := Arrays.uniq (map venue dayShows) in
  snd (fold_left
         (visit venueSet (venueToClusterKey clusterDefs) (clusterByKey clusterDefs)
                (venueMaxRating getRating dayShows))
         (Arrays.sortStr venueSet) ([], [])).

(** [getOrderedVenuesForDay(dayShows)]; [clusterDefs] is
    [venueOrder.clusters || []]. *)
Definition getOrderedVenuesForDay (clusterDefs : list (list string))
    (getRating : Show -> Z) (dayShows : list Show) : list string :=
  flat_map venues (sortGroups (buildGroups clusterDefs getRating dayShows)).

End Venues.

(** * Vocabulary of the properties

    The predicates the statements below are written with, the invariants
    of the loops, and the data of the examples. *)

(** ** Time strings *)

(** [reads s h m]: the time string [s] is [hs:ms], and its fields are the
    decimal numbers [h] and [m]. *)
Definition reads (s : string) (h m : Z) : Prop :=
  exists hs ms, s = hs +:+ String ":" ms /\ JS.Number hs = Some h /\ JS.Number ms = Some m.

(** ** Column layout *)

(** A show the layout can place: it has a start time, and its times are
    readable "HH:MM" strings. *)
Definition readable (s : Show) : Prop := exists t, timed s = Ok t.

(** The offset ranges of two shows overlap. *)
Definition overlaps (s t : Show) : Prop :=
  exists a b, timed s = Ok a /\ timed t = Ok b /\ overlapb a b = true.

Definition startsLe (a b : Timed) : Prop := startMin a <= startMin b.

(** [apart p q]: if [p] is still active when [q] starts, the two have
    different columns. *)
Definition apart (p q : Layout.Placed) : Prop :=
  endMin (Layout.p_show p) > startMin (Layout.p_show q) -> Layout.col p <> Layout.col q.

Definition clearOf (active : list Layout.Active) (q : Layout.Placed) : Prop :=
  forall a, In a active -> Layout.a_endMin a > startMin (Layout.p_show q) -> Layout.a_col a <> Layout.col q.

Definition threeShows : list Show :=
  [ mkShow "a" "Band A" "Venue" "2026-03-10" (Some "09:00") (Some "10:00")
           false "official" "" "" None;
    mkShow "b" "Band B" "Venue" "2026-03-10" (Some "09:30") (Some "10:30")
           false "official" "" "" None;
    mkShow "c" "Band C" "Venue" "2026-03-10" (Some "09:45") (Some "10:15")
           false "official" "" "" None ].

(** ** Conflict detection *)

Definition cxShow (artist venue start : string) : Show :=
  mkShow "" artist venue "2026-03-10" (Some start) None false "user" "" "" None.

Definition cxToday : list Show :=
  [ cxShow "AB" "C" "10:00"; cxShow "A" "BC" "10:00"; cxShow "D" "E" "10:15" ].

Definition cxRatings : gmap string Z := <["name_ab" := 3]> (<["name_d" := 2]> ∅).

(** ** The show store *)

Definition dupShow : Show :=
  mkShow "u1" "Band X" "Venue A" "2026-03-10" (Some "21:00") None false
         "unofficial" "" "" None.

Definition otherShow : Show :=
  mkShow "o1" "Band Y" "Venue B" "2026-03-10" (Some "22:00") None false
         "official" "" "" None.

(** ** Rating-key migration *)

(** The test of the migration loop, for the artist [a]. *)
Definition fires (ratings : gmap string Z) (a : Identity.Artist) : bool :=
  match Identity.a_entity_id a with
  | Some (S n) =>
      negb (Identity.truthyRating (ratings !! Identity.eidKey (S n)))
      && Identity.truthyRating (ratings !! Identity.nameKey (Identity.name a))
  | _ => false
  end.

(** ** The schedule importer *)

Definition userSourced (l : list Show) : Prop :=
  Forall (fun e => source e = "user"%string) l.

(** What the row loop maintains: the base time, once set, reads as an hour
    and a minute, and every show collected so far is tagged "user". *)
Definition baseReadable (cbt : option string) : Prop :=
  match cbt with
  | Some t => exists h m, reads t h m
  | None => True
  end.

Definition scanInv (st : Importer.Scan) : Prop :=
  baseReadable (Importer.currentBaseTime st) /\ userSourced (Importer.shows st).

(** The label of a row: [(row[0] || '').trim()]. *)
Definition timeLabelOf (row : list string) : string := JS.trim (nth 0 row EmptyString).

(** The events of the state a scan ends in. *)
Definition showsOf (o : outcome Importer.Scan) : outcome (list Show) := do st <- o; Ok (Importer.shows st).

(** A text made of the given lines, separated by line feeds. *)
Fixpoint joinLines (ls : list string) : string :=
  match ls with
  | [] => EmptyString
  | [l] => l
  | l :: rest => l +:+ String Importer.LF (joinLines rest)
  end.

Definition exampleGrid : string :=
  joinLines [ "Time,Venue A,Venue B"; "9:00 AM,Band X,Band Y"; ",Band Z," ].

Definition lateMarkerGrid : string :=
  joinLines [ "Time,Venue A"; ",Band Q"; "Day 2,Band R"; "9:00 PM,"; ",Band Z" ].

(** ** Texts *)

(** The text [s] does not contain the character [c]. *)
Definition freeOf (c : ascii) (s : string) : bool :=
  JS.allChars (fun x => negb (Ascii.eqb x c)) s.

(** ** Names looked up in plain objects *)

(** No venue of the day's shows names a property of [Object.prototype]:
    the lookups [venueToClusterKey[v]] and [venueMaxRating[v]] of
    [getOrderedVenuesForDay] then find own properties only. *)
Definition plainVenues (dayShows : list Show) : Prop :=
  forall s, In s dayShows -> Objects.inherited (venue s) = false.

(** ** Imported shows *)

(** What holds of the shows collected by the importer: the show of index
    [k] is the object pushed at that index, with a non-empty artist, a
    non-empty venue of the header and a start time that reads as an hour
    and a minute. *)
Definition imported (clock : nat -> nat) (day : string) (venues : list string)
    (l : list Show) : Prop :=
  forall k e, l !! k = Some e ->
    exists a v t,
      e = Importer.csvShow (clock k) k a v day t
      /\ a <> EmptyString /\ v <> EmptyString /\ In v venues
      /\ exists h m, reads t h m.

Definition scanInv2 (clock : nat -> nat) (day : string) (venues : list string)
    (st : Importer.Scan) : Prop :=
  baseReadable (Importer.currentBaseTime st)
  /\ imported clock day venues (Importer.shows st).

(** ** Comma-separated fields *)

(** A field between double quotes. *)
Definition quoted (f : string) : string :=
  String Importer.quote (f +:+ String Importer.quote EmptyString).

(** A field as written in a line: between double quotes or bare. *)
Definition writtenField (qf : bool * string) : string :=
  if fst qf then quoted (snd qf) else snd qf.

(** The fields of a line, separated by commas. *)
Fixpoint joinComma (fs : list string) : string :=
  match fs with
  | [] => EmptyString
  | [f] => f
  | f :: rest => f +:+ String "," (joinComma rest)
  end.

(** A field that can be written: without a double quote, and without a
    comma when it is written bare. *)
Definition writable (qf : bool * string) : Prop :=
  JS.allChars (fun x => negb (Ascii.eqb x Importer.quote)) (snd qf) = true
  /\ (fst qf = false -> JS.allChars (fun x => negb (Ascii.eqb x ",")) (snd qf) = true).

(** Ascending order of strings by code units, the order of [sort()]. *)
Definition strLe (a b : string) : Prop := String.leb a b = true.

(** The venues that the loop of [getOrderedVenuesForDay] puts in one group
    when it reaches the venue [v]. *)
Definition membersOf (venueSet : list string) (toKey : gmap string string)
    (byKey : gmap string (list string)) (v : string) : list string :=
  match toKey !! v with
  | Some clusterKey =>
      if negb (String.eqb clusterKey EmptyString)
      then List.filter (fun m => existsb (String.eqb m) venueSet)
                       (default [v] (byKey !! clusterKey))
      else [v]
  | None => [v]
  end.

(** The rating of a group is the best rating of the day's shows at its
    venues, and zero when none is positive. *)
Definition bestRating (getRating : Show -> Z) (dayShows : list Show)
    (vs : list string) (r : Z) : Prop :=
  0 <= r
  /\ (forall s, In s dayShows -> In (venue s) vs -> getRating s <= r)
  /\ (r = 0 \/ exists s, In s dayShows /\ In (venue s) vs /\ getRating s = r).

(** Descending order of the groups' ratings. *)
Definition ratedAbove (a b : Venues.Group) : Prop :=
  Venues.maxRating b <= Venues.maxRating a.

(** The processed venues are distinct venues of the day and come in whole
    groups. *)
Definition closedUnder (venueSet : list string) (toKey : gmap string string)
    (byKey : gmap string (list string)) (p : list string) : Prop :=
  List.NoDup p /\ (forall x, In x p -> In x venueSet)
  /\ forall x y, In x p -> In y (membersOf venueSet toKey byKey x) -> In y p.

(** * Properties *)

(** ** Strings of digits *)

Section DigitStrings.

Lemma digit_not_colon c : JS.isDigit c = true -> Ascii.eqb c ":" = false.
Proof.
  intros H. destruct (Ascii.eqb_spec c ":") as [->|]; [|reflexivity].
  vm_compute in H. discriminate.
Qed.

Lemma splitChar_digits_colon s r :
  JS.allChars JS.isDigit s = true ->
  JS.splitChar ":" (s +:+ String ":" r) = s :: JS.splitChar ":" r.
Proof.
  induction s as [|c s IH]; simpl; intros H.
  - reflexivity.
  - apply andb_true_iff in H as [Hc Hs].
    rewrite (digit_not_colon _ Hc), (IH Hs). reflexivity.
Qed.

Lemma splitChar_digits s :
  JS.allChars JS.isDigit s = true -> JS.splitChar ":" s = [s].
Proof.
  induction s as [|c s IH]; simpl; intros H.
  - reflexivity.
  - apply andb_true_iff in H as [Hc Hs].
    rewrite (digit_not_colon _ Hc), (IH Hs). reflexivity.
Qed.

Lemma Number_Some_digits s n : JS.Number s = Some n -> JS.allChars JS.isDigit s = true.
Proof.
  unfold JS.Number. destruct (JS.allChars JS.isDigit s); [reflexivity|].
  simpl. discriminate.
Qed.

Lemma Number_nonneg s n : JS.Number s = Some n -> 0 <= n.
Proof.
  unfold JS.Number.
  destruct (JS.allChars JS.isDigit s && (String.length s <=? 12)%nat); [|discriminate].
  intros [= <-]. lia.
Qed.

Lemma Number_digits s :
  JS.allChars JS.isDigit s = true -> (String.length s <= 12)%nat ->
  JS.Number s = Some (Z.of_nat (JS.digitsValue 0 s)).
Proof.
  intros H L. unfold JS.Number. rewrite H.
  apply Nat.leb_le in L. rewrite L. reflexivity.
Qed.

(** A time string [hs:ms] whose two fields read as [h] and [m]. *)
Lemma minutesFromDayStart_fields hs ms h m :
  JS.Number hs = Some h -> JS.Number ms = Some m ->
  minutesFromDayStart (hs +:+ String ":" ms)
  = Ok (((if h <? DAY_START_HOUR then h + 24 else h) - DAY_START_HOUR) * 60 + m).
Proof.
  intros Hh Hm. unfold minutesFromDayStart.
  rewrite (splitChar_digits_colon _ _ (Number_Some_digits _ _ Hh)).
  rewrite (splitChar_digits _ (Number_Some_digits _ _ Hm)).
  simpl. rewrite Hh, Hm. reflexivity.
Qed.

End DigitStrings.

(** ** Time model *)

(** C4. [minutesFromDayStart] maps a time "HH:MM" to (H+24-9)*60+M when
    H < 9 and to (H-9)*60+M otherwise; a time with hour below 9 has a
    strictly larger offset than any time with hour 9 to 23 and minute at
    most 59, and the offset of "00:30" is strictly larger than that of
    "23:45". *)
Theorem minutesFromDayStart_midnight_continuity :
  (forall s h m, reads s h m ->
     minutesFromDayStart s
     = Ok (if h <? 9 then (h + 24 - 9) * 60 + m else (h - 9) * 60 + m))
  /\ (forall late early h1 m1 h2 m2,
        reads late h1 m1 -> reads early h2 m2 ->
        h1 < 9 -> 9 <= h2 <= 23 -> m2 <= 59 ->
        exists o1 o2, minutesFromDayStart late = Ok o1
                      /\ minutesFromDayStart early = Ok o2 /\ o2 < o1)
  /\ (exists o1 o2, minutesFromDayStart "00:30" = Ok o1
                    /\ minutesFromDayStart "23:45" = Ok o2 /\ o2 < o1).
Proof.
  assert (A : forall s h m, reads s h m ->
     minutesFromDayStart s
     = Ok (if h <? 9 then (h + 24 - 9) * 60 + m else (h - 9) * 60 + m)).
  { intros s h m (hs & ms & -> & Hh & Hm).
    rewrite (minutesFromDayStart_fields _ _ _ _ Hh Hm). unfold DAY_START_HOUR.
    destruct (h <? 9); reflexivity. }
  split; [exact A|]. split.
  - intros late early h1 m1 h2 m2 R1 R2 L1 L2 M2.
    assert (0 <= m1) by (destruct R1 as (? & ? & _ & _ & Hm); eapply Number_nonneg; eauto).
    assert (0 <= h1) by (destruct R1 as (? & ? & _ & Hh & _); eapply Number_nonneg; eauto).
    rewrite (A _ _ _ R1), (A _ _ _ R2).
    destruct (Z.ltb_spec h1 9); [|lia]. destruct (Z.ltb_spec h2 9); [lia|].
    eexists _, _. split; [reflexivity|]. split; [reflexivity|]. lia.
  - exists 930, 885. vm_compute. auto.
Qed.

Lemma minutesFromDayStart_midnight_continuity_witness :
  exists o1 o2, minutesFromDayStart "01:15" = Ok o1
                /\ minutesFromDayStart "22:40" = Ok o2 /\ o2 < o1.
Proof.
  apply (proj1 (proj2 minutesFromDayStart_midnight_continuity)
           "01:15"%string "22:40"%string 1 15 22 40).
  - exists "01"%string, "15"%string. vm_compute. auto.
  - exists "22"%string, "40"%string. vm_compute. auto.
  - lia.
  - lia.
  - lia.
Defined.

(** ** Outcomes *)

Lemma omapM_Ok {A B} (f : A -> outcome B) (l : list A) :
  Forall (fun x => exists y, f x = Ok y) l ->
  exists ys, omapM f l = Ok ys /\ Forall2 (fun x y => f x = Ok y) l ys.
Proof.
  induction 1 as [|x l [y Hy] _ (ys & E & F)]; simpl.
  - exists []. split; [reflexivity|constructor].
  - exists (y :: ys). rewrite Hy. simpl. rewrite E. simpl.
    split; [reflexivity|]. constructor; assumption.
Qed.

Lemma omapM_inv {A B} (f : A -> outcome B) (l : list A) ys :
  omapM f l = Ok ys -> Forall2 (fun x y => f x = Ok y) l ys.
Proof.
  revert ys. induction l as [|x l IH]; simpl; intros ys E.
  - injection E as <-. constructor.
  - destruct (f x) as [y| |] eqn:Fx; simpl in E; try discriminate.
    destruct (omapM f l) as [zs| |]; simpl in E; try discriminate.
    injection E as <-. constructor; [assumption|]. apply IH. reflexivity.
Qed.

Lemma timed_show s t : timed s = Ok t -> show t = s.
Proof.
  unfold timed. destruct (start_time s); [|discriminate].
  destruct (minutesFromDayStart _); simpl; try discriminate.
  destruct (if truthyStr (end_time s) then _ else _); simpl; try discriminate.
  intros [= <-]. reflexivity.
Qed.

Lemma timed_all_show l ts :
  Forall2 (fun s t => timed s = Ok t) l ts -> map show ts = l.
Proof.
  induction 1 as [|s t l ts H _ IH]; simpl; [reflexivity|].
  rewrite (timed_show _ _ H), IH. reflexivity.
Qed.

(** ** Column layout *)

Section LayoutFacts.

Import Layout.

Lemma insert_perm x l : Permutation (insert x l) (x :: l).
Proof.
  induction l as [|y l IH]; simpl.
  - reflexivity.
  - destruct (startMin x <=? startMin y).
    + reflexivity.
    + rewrite IH. apply perm_swap.
Qed.

Lemma sort_perm l : Permutation (sort l) l.
Proof.
  induction l as [|x l IH]; simpl.
  - reflexivity.
  - rewrite insert_perm. constructor. exact IH.
Qed.

Lemma insert_sorted x l :
  StronglySorted startsLe l -> StronglySorted startsLe (insert x l).
Proof.
  induction 1 as [|y l Hs IH Hy]; simpl.
  - constructor; constructor.
  - destruct (Z.leb_spec (startMin x) (startMin y)) as [L|L].
    + constructor; [constructor; assumption|].
      constructor; [exact L|].
      eapply List.Forall_impl; [|exact Hy]. unfold startsLe. intros; lia.
    + constructor; [exact IH|].
      apply (Permutation_Forall (Permutation_sym (insert_perm x l))).
      constructor; [unfold startsLe; lia|exact Hy].
Qed.

Lemma sort_sorted l : StronglySorted startsLe (sort l).
Proof.
  induction l as [|x l IH]; simpl.
  - constructor.
  - apply insert_sorted. exact IH.
Qed.

(** The [while] loop: if it stops on a used column, every candidate it went
    through was used. *)
Lemma freeFrom_used fuel used c :
  In (freeFrom fuel used c) used ->
  forall k, (c <= k < c + fuel)%nat -> In k used.
Proof.
  revert c. induction fuel as [|f IH]; simpl; intros c H k Hk; [lia|].
  destruct (existsb (Nat.eqb c) used) eqn:E.
  - destruct (Nat.eq_dec k c) as [->|Hne].
    + apply existsb_exists in E as (x & Hx & Ex).
      apply Nat.eqb_eq in Ex. subst. exact Hx.
    + apply (IH (S c) H). lia.
  - exfalso. assert (existsb (Nat.eqb c) used = true); [|congruence].
    apply existsb_exists. exists c. split; [exact H|apply Nat.eqb_refl].
Qed.

(** With [used.length + 1] iterations the loop has found a free column. *)
Lemma freeCol_free used : ~ In (freeCol used) used.
Proof.
  unfold freeCol. intros H.
  pose proof (freeFrom_used _ _ _ H) as All.
  assert (I : incl (seq 0 (S (length used))) used).
  { intros k Hk. apply in_seq in Hk. apply All. lia. }
  pose proof (NoDup_incl_length (seq_NoDup (S (length used)) 0) I) as L.
  rewrite length_seq in L. lia.
Qed.

(** The column chosen is the smallest free one. *)
Lemma freeFrom_least fuel used c k :
  (c <= k < freeFrom fuel used c)%nat -> In k used.
Proof.
  revert c. induction fuel as [|f IH]; simpl; intros c Hk; [lia|].
  destruct (existsb (Nat.eqb c) used) eqn:E; [|lia].
  destruct (Nat.eq_dec k c) as [->|Hne].
  - apply existsb_exists in E as (x & Hx & Ex).
    apply Nat.eqb_eq in Ex. subst. exact Hx.
  - apply (IH (S c)). lia.
Qed.

Lemma assign_shows active l : map p_show (assign active l) = l.
Proof.
  revert active. induction l as [|s l IH]; simpl; intros active; [reflexivity|].
  rewrite IH. reflexivity.
Qed.

Lemma assign_apart l :
  StronglySorted startsLe l ->
  forall active,
    Forall (clearOf active) (assign active l)
    /\ ForallOrdPairs apart (assign active l).
Proof.
  induction 1 as [|s l Hs IH Hle]; simpl; intros active.
  - split; constructor.
  - set (still := List.filter (fun a => a_endMin a >? startMin s) active).
    set (c := freeCol (map a_col still)).
    destruct (IH (still ++ [mkActive (endMin s) c])) as [Hclear Hpairs].
    assert (Hstart : Forall (fun q => startMin s <= startMin (p_show q))
                            (assign (still ++ [mkActive (endMin s) c]) l)).
    { apply List.Forall_forall. intros q Hq.
      assert (In (p_show q) l) as Hin.
      { rewrite <- (assign_shows (still ++ [mkActive (endMin s) c]) l).
        apply in_map. exact Hq. }
      rewrite List.Forall_forall in Hle. apply (Hle _ Hin). }
    split.
    + constructor.
      * intros a Ha He. simpl in *. intros Heq.
        apply (freeCol_free (map a_col still)). fold c. rewrite <- Heq.
        apply in_map. apply filter_In. split; [exact Ha|].
        apply Z.gtb_lt. lia.
      * rewrite List.Forall_forall in *. intros q Hq a Ha He.
        apply (Hclear q Hq). 2: exact He.
        apply in_or_app. left. apply filter_In. split; [exact Ha|].
        apply Z.gtb_lt. specialize (Hstart q Hq). simpl in Hstart. lia.
    + constructor; [|exact Hpairs].
      rewrite List.Forall_forall in *. intros q Hq He. simpl in *.
      apply (Hclear q Hq (mkActive (endMin s) c)); simpl.
      * apply in_or_app. right. left. reflexivity.
      * exact He.
Qed.

Lemma ForallOrdPairs_lookup {A} (R : A -> A -> Prop) (l : list A) :
  ForallOrdPairs R l ->
  forall i j a b, (i < j)%nat -> l !! i = Some a -> l !! j = Some b -> R a b.
Proof.
  induction 1 as [|x l Hx _ IH]; intros i j a b Hij Ha Hb.
  - discriminate.
  - destruct j as [|j]; [lia|]. simpl in Hb.
    destruct i as [|i]; simpl in Ha.
    + injection Ha as <-. rewrite List.Forall_forall in Hx. apply Hx.
      apply list_elem_of_In. eapply list_elem_of_lookup_2. exact Hb.
    + apply (IH i j); [lia|assumption|assumption].
Qed.

Lemma overlapb_sym a b : overlapb a b = overlapb b a.
Proof.
  unfold overlapb.
  destruct (Z.ltb_spec (startMin a) (endMin b)), (Z.gtb_spec (endMin a) (startMin b)),
           (Z.ltb_spec (startMin b) (endMin a)), (Z.gtb_spec (endMin b) (startMin a));
    simpl; try reflexivity; lia.
Qed.

Lemma overlapb_true a b :
  overlapb a b = true <-> startMin a < endMin b /\ endMin a > startMin b.
Proof.
  unfold overlapb. rewrite andb_true_iff, Z.ltb_lt, Z.gtb_lt. lia.
Qed.

Lemma secondPass_lookup result i p :
  secondPass result !! i = Some p ->
  exists p0, result !! i = Some p0 /\ p_show p = p_show p0 /\ col p = col p0
             /\ totalCols p = S (maxColOver result p0).
Proof.
  unfold secondPass. rewrite list_lookup_fmap.
  destruct (result !! i) as [p0|]; simpl; [|discriminate].
  intros [= <-]. exists p0. simpl. auto.
Qed.

Lemma secondPass_shows result : map p_show (secondPass result) = map p_show result.
Proof.
  unfold secondPass. rewrite map_map. reflexivity.
Qed.

(** No two overlapping entries of the layout share a column. *)
Lemma layoutTimed_columns ts i j pi pj :
  i <> j ->
  layoutTimed ts !! i = Some pi -> layoutTimed ts !! j = Some pj ->
  overlapb (p_show pi) (p_show pj) = true -> col pi <> col pj.
Proof.
  unfold layoutTimed. intros Hij Hi Hj Hov.
  apply secondPass_lookup in Hi as (qi & Hi & Si & Ci & _).
  apply secondPass_lookup in Hj as (qj & Hj & Sj & Cj & _).
  rewrite Si, Sj in Hov. rewrite Ci, Cj.
  destruct (assign_apart (sort ts) (sort_sorted ts) []) as [_ Hpairs].
  pose proof (ForallOrdPairs_lookup _ _ Hpairs) as P.
  destruct (Nat.lt_total i j) as [L|[E|L]]; [|contradiction|].
  - apply (P i j qi qj L Hi Hj).
    apply overlapb_true in Hov. lia.
  - intros E. apply (P j i qj qi L Hj Hi); [|congruence].
    apply overlapb_true in Hov. lia.
Qed.

Lemma layoutTimed_shows ts : Permutation (map p_show (layoutTimed ts)) ts.
Proof.
  unfold layoutTimed. rewrite secondPass_shows, assign_shows. apply sort_perm.
Qed.

End LayoutFacts.

Section LayoutClaims.

Import Layout.

Lemma layoutColumns_Ok shows :
  Forall readable shows ->
  exists ts, omapM timed shows = Ok ts
             /\ layoutColumns shows = Ok (layoutTimed ts)
             /\ map show ts = shows
             /\ Forall (fun t => timed (show t) = Ok t) ts.
Proof.
  intros H. destruct (omapM_Ok timed shows H) as (ts & E & F).
  exists ts. split; [exact E|]. split.
  - unfold layoutColumns. rewrite E. reflexivity.
  - split; [apply timed_all_show; exact F|].
    clear E H. induction F as [|s t l ts' Hst _ IH]; constructor.
    + rewrite (timed_show _ _ Hst). exact Hst.
    + exact IH.
Qed.

Lemma layoutTimed_offsets ts :
  Forall (fun t => timed (show t) = Ok t) ts ->
  Forall (fun p => timed (show (p_show p)) = Ok (p_show p)) (layoutTimed ts).
Proof.
  intros H. apply List.Forall_forall. intros p Hp.
  rewrite List.Forall_forall in H. apply H.
  apply (Permutation_in _ (layoutTimed_shows ts)). apply in_map. exact Hp.
Qed.

Lemma maxCol_fold (P : Placed -> bool) (l : list Placed) (init : nat) :
  let m := fold_left (fun maxCol pj => if P pj then Nat.max maxCol (col pj) else maxCol)
                     l init in
  (init <= m)%nat
  /\ (forall q, In q l -> P q = true -> (col q <= m)%nat)
  /\ (m = init \/ exists q, In q l /\ P q = true /\ col q = m).
Proof.
  revert init. induction l as [|x l IH]; simpl; intros init.
  - split; [lia|]. split; [intros q []|left; reflexivity].
  - destruct (IH (if P x then Nat.max init (col x) else init)) as (Hge & Hall & Hwit).
    destruct (P x) eqn:Px.
    + split; [lia|]. split.
      * intros q [<-|Hq] Pq; [lia|apply Hall; assumption].
      * destruct Hwit as [E|(q & Hq & Pq & E)].
        -- destruct (Nat.max_spec init (col x)) as [[_ M]|[_ M]].
           ++ right. exists x. split; [left; reflexivity|]. split; [exact Px|]. lia.
           ++ left. lia.
        -- right. exists q. auto.
    + split; [exact Hge|]. split.
      * intros q [<-|Hq] Pq; [congruence|apply Hall; assumption].
      * destruct Hwit as [E|(q & Hq & Pq & E)]; [left; exact E|].
        right. exists q. auto.
Qed.

Lemma secondPass_In result q :
  In q (secondPass result) ->
  exists q0, In q0 result /\ p_show q = p_show q0 /\ col q = col q0
             /\ totalCols q = S (maxColOver result q0).
Proof.
  unfold secondPass. intros H. apply in_map_iff in H as (q0 & <- & H0).
  exists q0. simpl. auto.
Qed.

Lemma In_secondPass result q0 :
  In q0 result ->
  exists q, In q (secondPass result) /\ p_show q = p_show q0 /\ col q = col q0.
Proof.
  intros H. eexists. split.
  - unfold secondPass. apply in_map. exact H.
  - simpl. auto.
Qed.

(** [totalCols] of an entry is one plus the largest column among the entry
    itself and the entries that overlap it. *)
Lemma layoutTimed_totalCols ts p :
  In p (layoutTimed ts) ->
  exists m, totalCols p = S m
    /\ (col p <= m)%nat
    /\ (forall q, In q (layoutTimed ts) ->
                  overlapb (p_show p) (p_show q) = true -> (col q <= m)%nat)
    /\ (m = col p
        \/ exists q, In q (layoutTimed ts)
                     /\ overlapb (p_show p) (p_show q) = true /\ col q = m).
Proof.
  unfold layoutTimed. set (result := assign [] (sort ts)).
  intros Hp. apply secondPass_In in Hp as (p0 & Hp0 & Sp & Cp & Tp).
  exists (maxColOver result p0). split; [exact Tp|].
  destruct (maxCol_fold (fun pj => overlapb (p_show p0) (p_show pj)) result (col p0))
    as (Hge & Hall & Hwit).
  fold (maxColOver result p0) in Hge, Hall, Hwit.
  rewrite Sp, Cp. split; [exact Hge|]. split.
  - intros q Hq Hov. apply secondPass_In in Hq as (q0 & Hq0 & Sq & Cq & _).
    rewrite Cq. apply Hall; [exact Hq0|]. rewrite <- Sq. exact Hov.
  - destruct Hwit as [E|(q0 & Hq0 & Pq & E)]; [left; exact E|].
    right. destruct (In_secondPass result q0 Hq0) as (q & Hq & Sq & Cq).
    exists q. split; [exact Hq|]. rewrite Sq, Cq. auto.
Qed.

(** C2. For every list of shows that have a start time (the end defaulting
    to start + 45 minutes), [layoutColumns] returns an assignment for
    exactly these shows in which no two entries whose offset ranges
    overlap, under [startA < endB && endA > startB], have the same
    column. *)
Theorem layoutColumns_overlapping_columns_differ (shows : list Show) :
  Forall readable shows ->
  exists res,
    layoutColumns shows = Ok res
    /\ Permutation (map (fun p => show (p_show p)) res) shows
    /\ Forall (fun p => timed (show (p_show p)) = Ok (p_show p)) res
    /\ forall i j pi pj,
         i <> j -> res !! i = Some pi -> res !! j = Some pj ->
         overlapb (p_show pi) (p_show pj) = true -> col pi <> col pj.
Proof.
  intros H. destruct (layoutColumns_Ok shows H) as (ts & _ & E & Hshows & Hts).
  exists (layoutTimed ts). split; [exact E|]. split; [|split].
  - rewrite <- Hshows, <- (map_map p_show show).
    apply Permutation_map. apply layoutTimed_shows.
  - apply layoutTimed_offsets. exact Hts.
  - apply layoutTimed_columns.
Qed.

Lemma layoutColumns_overlapping_columns_differ_witness :
  exists res,
    layoutColumns threeShows = Ok res
    /\ Permutation (map (fun p => show (p_show p)) res) threeShows
    /\ Forall (fun p => timed (show (p_show p)) = Ok (p_show p)) res
    /\ forall i j pi pj,
         i <> j -> res !! i = Some pi -> res !! j = Some pj ->
         overlapb (p_show pi) (p_show pj) = true -> col pi <> col pj.
Proof.
  apply (layoutColumns_overlapping_columns_differ threeShows).
  repeat constructor; eexists; vm_compute; reflexivity.
Defined.

(** C5. For every list of shows that have a start time, the [totalCols]
    that [layoutColumns] reports for an entry is one plus the largest
    column among the entry itself and the entries whose offset range
    overlaps it; for the ranges [0,60), [30,90), [45,75) given in that order
    the columns are 0, 1, 2 and every [totalCols] is 3. *)
Theorem layoutColumns_totalCols :
  (forall shows, Forall readable shows ->
     exists res,
       layoutColumns shows = Ok res
       /\ forall p, In p res ->
            exists m, totalCols p = S m
              /\ (col p <= m)%nat
              /\ (forall q, In q res ->
                    overlapb (p_show p) (p_show q) = true -> (col q <= m)%nat)
              /\ (m = col p
                  \/ exists q, In q res
                       /\ overlapb (p_show p) (p_show q) = true /\ col q = m))
  /\ (exists res,
        layoutColumns threeShows = Ok res
        /\ map (fun p => (startMin (p_show p), endMin (p_show p))) res
           = [(0, 60); (30, 90); (45, 75)]
        /\ map (fun p => show (p_show p)) res = threeShows
        /\ map col res = [0; 1; 2]%nat
        /\ map totalCols res = [3; 3; 3]%nat).
Proof.
  split.
  - intros shows H. destruct (layoutColumns_Ok shows H) as (ts & _ & E & _ & _).
    exists (layoutTimed ts). split; [exact E|].
    intros p Hp. apply layoutTimed_totalCols. exact Hp.
  - eexists. split; [vm_compute; reflexivity|].
    repeat split; reflexivity.
Qed.

Lemma layoutColumns_totalCols_witness :
  exists res,
    layoutColumns threeShows = Ok res
    /\ forall p, In p res ->
         exists m, totalCols p = S m
           /\ (col p <= m)%nat
           /\ (forall q, In q res ->
                 overlapb (p_show p) (p_show q) = true -> (col q <= m)%nat)
           /\ (m = col p
               \/ exists q, In q res
                    /\ overlapb (p_show p) (p_show q) = true /\ col q = m).
Proof.
  apply (proj1 layoutColumns_totalCols threeShows).
  repeat constructor; eexists; vm_compute; reflexivity.
Defined.

End LayoutClaims.

(** ** Conflict detection *)

Section ConflictFacts.

Import Timeline.

Lemma conflictInner_elem a later acc k :
  k ∈ conflictInner a later acc <->
  k ∈ acc \/ exists j b, later !! j = Some b /\ overlapb a b = true
                         /\ (k = conflictKey (show a) \/ k = conflictKey (show b)).
Proof.
  unfold conflictInner. revert acc. induction later as [|b later IH]; simpl; intros acc.
  - split; [auto|]. intros [H|(j & b & H & _)]; [exact H|discriminate].
  - rewrite IH. split.
    + intros [H|(j & b' & Hj & Hov & Hk)].
      * destruct (overlapb a b) eqn:Hov; [|left; exact H].
        apply elem_of_union in H as [H|H].
        { apply elem_of_singleton in H. right. exists 0%nat, b. auto. }
        apply elem_of_union in H as [H|H]; [|left; exact H].
        apply elem_of_singleton in H. right. exists 0%nat, b. auto.
      * right. exists (S j), b'. auto.
    + intros [H|(j & b' & Hj & Hov & Hk)].
      * left. destruct (overlapb a b); [|exact H].
        apply elem_of_union_r, elem_of_union_r. exact H.
      * destruct j as [|j]; simpl in Hj.
        -- injection Hj as ->. left. rewrite Hov. destruct Hk as [->| ->].
           ++ apply elem_of_union_r, elem_of_union_l, elem_of_singleton. reflexivity.
           ++ apply elem_of_union_l, elem_of_singleton. reflexivity.
        -- right. exists j, b'. auto.
Qed.

(** The keys the two loops collect: those of the two members of every
    overlapping pair [ratedShows[i]], [ratedShows[j]] with [i < j]. *)
Lemma conflictLoop_elem l acc k :
  k ∈ conflictLoop l acc <->
  k ∈ acc \/ exists i j a b, (i < j)%nat /\ l !! i = Some a /\ l !! j = Some b
                             /\ overlapb a b = true
                             /\ (k = conflictKey (show a) \/ k = conflictKey (show b)).
Proof.
  revert acc. induction l as [|a later IH]; simpl; intros acc.
  - split; [auto|]. intros [H|(i & j & x & y & _ & H & _)]; [exact H|discriminate].
  - rewrite IH, conflictInner_elem. split.
    + intros [[H|(j & b & Hj & Hov & Hk)]|(i & j & x & y & Hij & Hi & Hj & Hov & Hk)].
      * left. exact H.
      * right. exists 0%nat, (S j), a, b. repeat split; auto; lia.
      * right. exists (S i), (S j), x, y. repeat split; auto; lia.
    + intros [H|(i & j & x & y & Hij & Hi & Hj & Hov & Hk)].
      * left. left. exact H.
      * destruct j as [|j]; [lia|]. simpl in Hj. destruct i as [|i]; simpl in Hi.
        -- injection Hi as ->. left. right. exists j, y. auto.
        -- right. exists i, j, x, y. repeat split; auto; lia.
Qed.

Lemma NoDup_map_inj {A B} (f : A -> B) (l : list A) x y :
  List.NoDup (map f l) -> In x l -> In y l -> f x = f y -> x = y.
Proof.
  induction l as [|z l IH]; simpl; intros N Hx Hy E; [contradiction|].
  apply List.NoDup_cons_iff in N as [Nz N].
  destruct Hx as [->|Hx], Hy as [->|Hy].
  - reflexivity.
  - exfalso. apply Nz. rewrite E. apply in_map. exact Hy.
  - exfalso. apply Nz. rewrite <- E. apply in_map. exact Hx.
  - apply IH; assumption.
Qed.

Lemma NoDup_lookup_inj {A} (l : list A) i j x :
  List.NoDup l -> l !! i = Some x -> l !! j = Some x -> i = j.
Proof.
  intros N Hi Hj. apply NoDup_ListNoDup in N.
  exact (proj1 (NoDup_alt l) N i j x Hi Hj).
Qed.

End ConflictFacts.

Section ConflictClaims.

Import Timeline.

Lemma rated_lookup ratings eidMap (shows : list Show) ts i s :
  Forall2 (fun s t => timed s = Ok t) (List.filter (rated ratings eidMap) shows) ts ->
  List.filter (rated ratings eidMap) shows !! i = Some s ->
  In s shows /\ rated ratings eidMap s = true
  /\ exists a, ts !! i = Some a /\ timed s = Ok a /\ show a = s.
Proof.
  intros F Hi.
  assert (In s (List.filter (rated ratings eidMap) shows)) as Hin.
  { apply list_elem_of_In. eapply list_elem_of_lookup_2. exact Hi. }
  apply filter_In in Hin as [Hin Hr]. split; [exact Hin|]. split; [exact Hr|].
  destruct (Forall2_lookup_l _ _ _ _ _ F Hi) as (a & Ha & Hta).
  exists a. split; [exact Ha|]. split; [exact Hta|]. apply timed_show. exact Hta.
Qed.

(** Where the strings [artist_name + venue + start_time] of the day's
    timeline shows are pairwise distinct, the flags are as specified: a
    show is flagged as conflicting if and only if its rating is greater
    than 0 and its offset range overlaps that of another show with rating
    greater than 0. *)
Theorem conflicting_flags_rated_overlaps
    (ratings : gmap string Z) (eidMap : gmap string nat) (today : list Show) :
  Forall readable (timelineShows today) ->
  List.NoDup (map conflictKey (timelineShows today)) ->
  exists set,
    conflicting ratings eidMap today = Ok set
    /\ forall s, In s (timelineShows today) ->
         (isConflict set s = true <->
          rated ratings eidMap s = true
          /\ exists t, In t (timelineShows today) /\ t <> s
                       /\ rated ratings eidMap t = true /\ overlaps s t).
Proof.
  set (shows := timelineShows today). intros Hread Hkeys.
  set (rs := List.filter (rated ratings eidMap) shows).
  assert (Forall readable rs) as Hrs.
  { apply List.Forall_forall. intros x Hx. apply filter_In in Hx as [Hx _].
    rewrite List.Forall_forall in Hread. apply Hread. exact Hx. }
  destruct (omapM_Ok timed rs Hrs) as (ts & E & F).
  assert (List.NoDup rs) as Nrs.
  { apply List.NoDup_filter. eapply List.NoDup_map_inv. exact Hkeys. }
  exists (conflictLoop ts ∅). split.
  { unfold conflicting. fold shows. fold rs. rewrite E. reflexivity. }
  intros s Hs. unfold isConflict. rewrite bool_decide_eq_true, conflictLoop_elem.
  split.
  - intros [H|(i & j & a & b & Hij & Hi & Hj & Hov & Hk)].
    { apply not_elem_of_empty in H. contradiction. }
    destruct (Forall2_lookup_r _ _ _ _ _ F Hi) as (x & Hx & Hxa).
    destruct (Forall2_lookup_r _ _ _ _ _ F Hj) as (y & Hy & Hyb).
    destruct (rated_lookup _ _ _ _ _ _ F Hx) as (Xin & Xr & _).
    destruct (rated_lookup _ _ _ _ _ _ F Hy) as (Yin & Yr & _).
    assert (x <> y) as Hxy.
    { intros ->. pose proof (NoDup_lookup_inj _ _ _ _ Nrs Hx Hy). lia. }
    rewrite (timed_show _ _ Hxa), (timed_show _ _ Hyb) in Hk.
    destruct Hk as [Hk|Hk].
    + assert (s = x) as -> by (eapply NoDup_map_inj; eauto).
      split; [exact Xr|]. exists y. repeat split; auto.
      exists a, b. auto.
    + assert (s = y) as -> by (eapply NoDup_map_inj; eauto).
      split; [exact Yr|]. exists x. repeat split; auto.
      exists b, a. rewrite overlapb_sym. auto.
  - intros (Hr & t & Ht & Hts & Htr & a' & b' & Ha' & Hb' & Hov).
    right.
    assert (In s rs) as Hsin by (apply filter_In; auto).
    assert (In t rs) as Htin by (apply filter_In; auto).
    apply list_elem_of_In, list_elem_of_lookup in Hsin as [i Hi].
    apply list_elem_of_In, list_elem_of_lookup in Htin as [j Hj].
    destruct (rated_lookup _ _ _ _ _ _ F Hi) as (_ & _ & a & Ha & Hta & Hsa).
    destruct (rated_lookup _ _ _ _ _ _ F Hj) as (_ & _ & b & Hb & Htb & Hsb).
    assert (a = a') as -> by congruence. assert (b = b') as -> by congruence.
    destruct (Nat.lt_total i j) as [L|[L|L]].
    + exists i, j, a', b'. rewrite Hsa. repeat split; auto.
    + subst j. congruence.
    + exists j, i, b', a'. rewrite Hsa, overlapb_sym. repeat split; auto.
Qed.

Lemma conflicting_flags_rated_overlaps_witness :
  exists set,
    conflicting cxRatings ∅ [cxShow "AB" "C" "10:00"; cxShow "D" "E" "10:15"] = Ok set
    /\ forall s, In s (timelineShows [cxShow "AB" "C" "10:00"; cxShow "D" "E" "10:15"]) ->
         (isConflict set s = true <->
          rated cxRatings ∅ s = true
          /\ exists t, In t (timelineShows [cxShow "AB" "C" "10:00"; cxShow "D" "E" "10:15"])
                       /\ t <> s /\ rated cxRatings ∅ t = true /\ overlaps s t).
Proof.
  apply (conflicting_flags_rated_overlaps cxRatings ∅
           [cxShow "AB" "C" "10:00"; cxShow "D" "E" "10:15"]).
  - repeat constructor; eexists; vm_compute; reflexivity.
  - simpl. constructor.
    + simpl. intros [H|[]]. discriminate.
    + constructor; [intros []|constructor].
Defined.

(** C8.  The code flags an unrated show.  The set [conflicting] holds the
    strings [artist_name + venue + start_time], joined without a separator:
    the show of artist "A" at venue "BC" is unrated, yet it is flagged,
    because its string "ABC10:00" is that of the rated show of artist "AB"
    at venue "C", which overlaps the rated show of artist "D". *)
Lemma conflicting_flags_unrated_show :
  exists set,
    conflicting cxRatings ∅ cxToday = Ok set
    /\ In (cxShow "A" "BC" "10:00") (timelineShows cxToday)
    /\ rated cxRatings ∅ (cxShow "A" "BC" "10:00") = false
    /\ isConflict set (cxShow "A" "BC" "10:00") = true.
Proof.
  eexists. split; [vm_compute; reflexivity|].
  split; [right; left; reflexivity|].
  split; vm_compute; reflexivity.
Qed.

End ConflictClaims.

(** ** The show store *)

Section StoreFacts.

Import Store.

Lemma mergeKey_naturalKey s t : naturalKey s = naturalKey t -> mergeKey s = mergeKey t.
Proof.
  unfold naturalKey, mergeKey. intros [= -> -> -> ->]. reflexivity.
Qed.

Lemma elem_of_keySet k shows :
  k ∈ keySet shows <-> exists s, In s shows /\ mergeKey s = k.
Proof.
  unfold keySet. rewrite elem_of_list_to_set, list_elem_of_In, in_map_iff.
  split; intros (s & H1 & H2); exists s; auto.
Qed.

Lemma NoDup_map_filter {A B} (f : A -> B) (p : A -> bool) (l : list A) :
  List.NoDup (map f l) -> List.NoDup (map f (List.filter p l)).
Proof.
  induction l as [|x l IH]; simpl; intros N; [constructor|].
  apply List.NoDup_cons_iff in N as [Nx N].
  destruct (p x); simpl; [|apply IH; exact N].
  constructor; [|apply IH; exact N].
  intros H. apply Nx. apply in_map_iff in H as (y & E & Hy).
  apply filter_In in Hy as [Hy _]. rewrite <- E. apply in_map. exact Hy.
Qed.

(** The filter of the merge idiom keeps no show whose natural key is already
    in the collection, and keeps the incoming shows distinct if they were. *)
Lemma fresh_NoDup collection incoming :
  List.NoDup (map naturalKey collection) ->
  List.NoDup (map naturalKey incoming) ->
  List.NoDup (map naturalKey
    (collection ++ List.filter
       (fun s => negb (bool_decide (mergeKey s ∈ keySet collection))) incoming)).
Proof.
  intros Nc Ni. rewrite map_app. apply List.NoDup_app.
  - exact Nc.
  - apply NoDup_map_filter. exact Ni.
  - intros k Hc Hf.
    apply in_map_iff in Hc as (s & <- & Hs).
    apply in_map_iff in Hf as (t & E & Ht).
    apply filter_In in Ht as [_ Ht]. apply negb_true_iff in Ht.
    apply bool_decide_eq_false in Ht. apply Ht.
    apply elem_of_keySet. exists s. split; [exact Hs|].
    apply mergeKey_naturalKey. symmetry. exact E.
Qed.

Lemma mergeInto_NoDup collection incoming :
  List.NoDup (map naturalKey collection) ->
  List.NoDup (map naturalKey incoming) ->
  List.NoDup (map naturalKey (mergeInto collection incoming)).
Proof.
  apply fresh_NoDup.
Qed.

Lemma sameShow_naturalKey target s :
  sameShow target s = true <-> naturalKey s = naturalKey target.
Proof.
  unfold sameShow, naturalKey. rewrite !andb_true_iff, !String.eqb_eq.
  assert (optStrEqb (start_time s) (start_time target) = true
          <-> start_time s = start_time target) as ->.
  { destruct (start_time s), (start_time target); simpl;
      rewrite ?String.eqb_eq; split; congruence. }
  split.
  - intros [[[-> ->] ->] ->]. reflexivity.
  - intros [= -> -> -> ->]. auto.
Qed.

End StoreFacts.

Section StoreClaims.

Import Store.

(** C7, as amended.  When neither the official list, nor the unofficial
    list, nor the stored user shows contains two entries with the same
    natural key, the collection [loadAll] builds has no two shows with the
    same natural key; and an import confirmation keeps the collection free
    of such pairs when the parsed shows are themselves pairwise distinct
    in natural key. *)
Theorem merged_store_distinct_natural_keys :
  (forall official unofficial stored,
     List.NoDup (map naturalKey official) ->
     (forall u, unofficial = Some u -> List.NoDup (map naturalKey u)) ->
     List.NoDup (map naturalKey stored) ->
     List.NoDup (map naturalKey (loadAll official unofficial stored)))
  /\ (forall pendingCsvShows st,
        List.NoDup (map naturalKey (allShows st)) ->
        List.NoDup (map naturalKey pendingCsvShows) ->
        List.NoDup (map naturalKey (allShows (confirmImport pendingCsvShows st)))).
Proof.
  split.
  - intros official unofficial stored No Nu Ns. unfold loadAll.
    apply mergeInto_NoDup; [|exact Ns].
    destruct unofficial as [u|]; [|exact No].
    apply mergeInto_NoDup; [exact No|]. apply Nu. reflexivity.
  - intros pending st Na Np. unfold confirmImport.
    destruct pending as [|p pending]; [exact Na|].
    exact (fresh_NoDup (allShows st) (p :: pending) Na Np).
Qed.

Lemma merged_store_distinct_natural_keys_witness :
  List.NoDup (map naturalKey (loadAll [otherShow] (Some [dupShow]) [dupShow])).
Proof.
  apply (proj1 merged_store_distinct_natural_keys [otherShow] (Some [dupShow]) [dupShow]).
  - simpl. constructor; [intros []|constructor].
  - intros u [= <-]. simpl. constructor; [intros []|constructor].
  - simpl. constructor; [intros []|constructor].
Defined.

(** C7, as stated, fails: an unofficial list with the same entry twice
    reaches the merged collection twice, and so do two parsed shows with
    the same natural key at an import confirmation. *)
Lemma merge_keeps_duplicates_of_one_input :
  loadAll [] (Some [dupShow; dupShow]) [] = [dupShow; dupShow]
  /\ ~ List.NoDup (map naturalKey (loadAll [] (Some [dupShow; dupShow]) []))
  /\ ~ List.NoDup (map naturalKey
         (allShows (confirmImport [dupShow; dupShow] (mkState [] [] ∅)))).
Proof.
  split; [vm_compute; reflexivity|].
  split; intros N; vm_compute in N;
    apply List.NoDup_cons_iff in N as [N _]; apply N; left; reflexivity.
Qed.

(** C10. [deleteShow] removes from the in-memory collection and from the
    persisted user shows exactly the entries whose natural key is that of
    the deleted show: both lists keep, in order, every entry with another
    natural key, and the ratings are unchanged. *)
Theorem deleteShow_frame (target : Show) (st : State) :
  allShows (deleteShow target st)
  = List.filter (fun s => negb (bool_decide (naturalKey s = naturalKey target)))
                (allShows st)
  /\ userShows (deleteShow target st)
     = List.filter (fun s => negb (bool_decide (naturalKey s = naturalKey target)))
                   (userShows st)
  /\ (forall s, In s (allShows (deleteShow target st))
                <-> In s (allShows st) /\ naturalKey s <> naturalKey target)
  /\ (forall s, In s (userShows (deleteShow target st))
                <-> In s (userShows st) /\ naturalKey s <> naturalKey target)
  /\ ratings (deleteShow target st) = ratings st.
Proof.
  assert (E : forall l,
    List.filter (fun s => negb (sameShow target s)) l
    = List.filter (fun s => negb (bool_decide (naturalKey s = naturalKey target))) l).
  { intros l. apply filter_ext. intros s. f_equal.
    destruct (sameShow target s) eqn:S.
    - symmetry. apply bool_decide_eq_true. apply sameShow_naturalKey. exact S.
    - symmetry. apply bool_decide_eq_false. intros K.
      apply sameShow_naturalKey in K. congruence. }
  assert (I : forall l s,
    In s (List.filter (fun s => negb (sameShow target s)) l)
    <-> In s l /\ naturalKey s <> naturalKey target).
  { intros l s. rewrite filter_In, negb_true_iff, <- sameShow_naturalKey.
    destruct (sameShow target s); split; intros [? ?]; split; auto; congruence. }
  unfold deleteShow. simpl.
  split; [apply E|]. split; [apply E|]. split; [intros s; apply I|].
  split; [intros s; apply I|reflexivity].
Qed.

End StoreClaims.

(** ** Rating-key migration *)

Section MigrationFacts.

Import Identity.

Lemma eidKey_nameKey_differ n s : eidKey n <> nameKey s.
Proof.
  unfold eidKey, nameKey. simpl. intros H. inversion H.
Qed.

Lemma migrateOne_idle ratings a : fires ratings a = false -> migrateOne ratings a = ratings.
Proof.
  unfold fires, migrateOne. destruct (a_entity_id a) as [[|n]|]; try reflexivity.
  intros ->. reflexivity.
Qed.

Lemma migrateOne_fired ratings a :
  fires ratings a = true ->
  exists n v, a_entity_id a = Some (S n)
    /\ ratings !! nameKey (name a) = Some v /\ truthyRating (Some v) = true
    /\ migrateOne ratings a
       = delete (nameKey (name a)) (<[eidKey (S n) := v]> ratings).
Proof.
  unfold fires, migrateOne. destruct (a_entity_id a) as [[|n]|]; try discriminate.
  intros H. rewrite H. apply andb_true_iff in H as [_ H].
  destruct (ratings !! nameKey (name a)) as [v|] eqn:E; [|discriminate].
  exists n, v. auto.
Qed.

(** Once the test fails for an artist, no later iteration makes it succeed:
    an iteration only writes truthy values under [eid_] keys and only
    deletes [name_] keys. *)
Lemma fires_stays_false ratings a b :
  fires ratings a = false -> fires (migrateOne ratings b) a = false.
Proof.
  intros Ha. destruct (fires ratings b) eqn:Hb.
  2: { rewrite (migrateOne_idle _ _ Hb). exact Ha. }
  destruct (migrateOne_fired _ _ Hb) as (m & v & _ & _ & Hv & ->).
  unfold fires in *. destruct (a_entity_id a) as [[|n]|]; try reflexivity.
  destruct (decide (nameKey (name a) = nameKey (name b))) as [E|NE].
  - rewrite E, lookup_delete_eq. simpl. apply andb_false_r.
  - rewrite (lookup_delete_ne _ _ _ (not_eq_sym NE)).
    rewrite (lookup_delete_ne _ (nameKey (name b)) (eidKey (S n))).
    2: { intros H. exact (eidKey_nameKey_differ _ _ (eq_sym H)). }
    rewrite (lookup_insert_ne _ (eidKey (S m)) (nameKey (name a))).
    2: { apply eidKey_nameKey_differ. }
    destruct (decide (eidKey (S m) = eidKey (S n))) as [E|NE'].
    + rewrite E, lookup_insert_eq, Hv. reflexivity.
    + rewrite (lookup_insert_ne _ _ _ _ NE'). exact Ha.
Qed.

Lemma fires_after_own ratings a : fires (migrateOne ratings a) a = false.
Proof.
  destruct (fires ratings a) eqn:Ha.
  2: { rewrite (migrateOne_idle _ _ Ha). exact Ha. }
  destruct (migrateOne_fired _ _ Ha) as (n & v & Hid & _ & Hv & ->).
  unfold fires. rewrite Hid, lookup_delete_eq. simpl. apply andb_false_r.
Qed.

Lemma fires_after_migrate l ratings a :
  fires ratings a = false -> fires (migrate l ratings) a = false.
Proof.
  unfold migrate. revert ratings. induction l as [|b l IH]; simpl; intros ratings H.
  - exact H.
  - apply IH. apply fires_stays_false. exact H.
Qed.

Lemma migrate_settles l ratings a : In a l -> fires (migrate l ratings) a = false.
Proof.
  unfold migrate. revert ratings. induction l as [|b l IH]; simpl; intros ratings H.
  - contradiction.
  - destruct H as [<-|H].
    + apply (fires_after_migrate l). apply fires_after_own.
    + apply IH. exact H.
Qed.

Lemma migrate_idle l ratings :
  (forall a, In a l -> fires ratings a = false) -> migrate l ratings = ratings.
Proof.
  unfold migrate. induction l as [|b l IH]; simpl; intros H.
  - reflexivity.
  - rewrite (migrateOne_idle ratings b) by (apply H; left; reflexivity).
    apply IH. intros a Ha. apply H. right. exact Ha.
Qed.

(** C3. The rating-key migration is idempotent: for every artist list and
    every ratings map, running it a second time changes nothing. *)
Theorem migrate_idempotent (allArtists : list Artist) (ratings : gmap string Z) :
  migrate allArtists (migrate allArtists ratings) = migrate allArtists ratings.
Proof.
  apply migrate_idle. intros a Ha. apply migrate_settles. exact Ha.
Qed.

End MigrationFacts.

(** ** The schedule importer *)

Section ImporterFacts.

Import Importer.

Lemma digitVal_le c : JS.isDigit c = true -> (JS.digitVal c <= 9)%nat.
Proof.
  unfold JS.isDigit, JS.digitVal. intros H.
  apply andb_true_iff in H as [H1 H2].
  apply Nat.leb_le in H1, H2. lia.
Qed.

Lemma takeWhile_all p s : JS.allChars p s = true -> JS.takeWhile p s = s.
Proof.
  induction s as [|c s IH]; simpl; intros H; [reflexivity|].
  apply andb_true_iff in H as [Hc Hs]. rewrite Hc, (IH Hs). reflexivity.
Qed.

(** [parseInt] of one or two digits is a number below 100. *)
Lemma parseInt_two_digits s :
  JS.allChars JS.isDigit s = true -> (1 <= String.length s <= 2)%nat ->
  exists h, JS.parseInt s = Some h /\ (h <= 99)%nat.
Proof.
  intros H L. unfold JS.parseInt. rewrite (takeWhile_all _ _ H).
  destruct s as [|a [|b [|c r]]]; simpl in L; try lia; simpl in *.
  - apply andb_true_iff in H as [Ha _]. pose proof (digitVal_le _ Ha).
    eexists. split; [reflexivity|]. lia.
  - apply andb_true_iff in H as [Ha H]. apply andb_true_iff in H as [Hb _].
    pose proof (digitVal_le _ Ha). pose proof (digitVal_le _ Hb).
    eexists. split; [reflexivity|]. lia.
Qed.

Lemma minutesMatch_groups g1 rest a b c :
  minutesMatch g1 rest = Some (a, b, c) ->
  a = g1 /\ JS.allChars JS.isDigit b = true /\ String.length b = 2%nat.
Proof.
  unfold minutesMatch. destruct rest as [|m1 [|m2 rest']]; try discriminate.
  destruct (JS.isDigit m1 && JS.isDigit m2) eqn:E; [|discriminate].
  destruct (periodMatch rest'); [|discriminate].
  intros [= <- <- <-]. simpl. rewrite andb_true_r. auto.
Qed.

(** The groups of an hour marker: one or two digits, then two digits. *)
Lemma hourMatch_groups s g1 g2 g3 :
  hourMatch s = Some (g1, g2, g3) ->
  JS.allChars JS.isDigit g1 = true /\ (1 <= String.length g1 <= 2)%nat
  /\ JS.allChars JS.isDigit g2 = true /\ String.length g2 = 2%nat.
Proof.
  unfold hourMatch. destruct s as [|d1 [|c2 rest]]; try discriminate.
  destruct (JS.isDigit d1 && Ascii.eqb c2 ":") eqn:E1.
  - intros H. apply minutesMatch_groups in H as (-> & Hb & Lb).
    apply andb_true_iff in E1 as [D1 _]. simpl. rewrite D1. auto.
  - destruct rest as [|c3 rest']; [discriminate|].
    destruct (JS.isDigit d1 && JS.isDigit c2 && Ascii.eqb c3 ":") eqn:E2; [|discriminate].
    intros H. apply minutesMatch_groups in H as (-> & Hb & Lb).
    apply andb_true_iff in E2 as [E2 _]. apply andb_true_iff in E2 as [D1 D2].
    simpl. rewrite D1, D2. auto.
Qed.

(** The groups of a time override: three or four digits. *)
Lemma timeOverride_group cell g1 before :
  timeOverride cell = Some (g1, before) ->
  JS.allChars JS.isDigit g1 = true /\ (3 <= String.length g1 <= 4)%nat.
Proof.
  unfold timeOverride.
  destruct (JS.dropWhile JS.isSpace (revString cell EmptyString))
    as [|c0 [|d1 [|d2 [|d3 [|c4 rest]]]]]; try discriminate.
  destruct (Ascii.eqb c0 ")" && JS.isDigit d1 && JS.isDigit d2 && JS.isDigit d3) eqn:E;
    [|discriminate].
  apply andb_true_iff in E as [E D3]. apply andb_true_iff in E as [E D2].
  apply andb_true_iff in E as [_ D1].
  destruct (Ascii.eqb c4 "(").
  - intros [= <- <-]. simpl. rewrite D1, D2, D3. split; [reflexivity|lia].
  - destruct rest as [|c5 rest']; [discriminate|].
    destruct (JS.isDigit c4 && Ascii.eqb c5 "(") eqn:E4; [|discriminate].
    apply andb_true_iff in E4 as [D4 _].
    intros [= <- <-]. simpl. rewrite D1, D2, D3, D4. split; [reflexivity|lia].
Qed.

(** The hour of an override is always read. *)
Lemma override_hour_read g1 :
  JS.allChars JS.isDigit g1 = true -> (3 <= String.length g1 <= 4)%nat ->
  exists h, JS.parseInt (JS.take 2 (JS.padStart0 4 g1)) = Some h.
Proof.
  intros H L.
  destruct g1 as [|a [|b [|c [|d [|e r]]]]]; simpl in L; try lia; simpl in H.
  - apply andb_true_iff in H as [Ha _].
    unfold JS.parseInt. simpl. rewrite Ha. simpl. eexists. reflexivity.
  - apply andb_true_iff in H as [Ha H]. apply andb_true_iff in H as [Hb _].
    unfold JS.parseInt. simpl. rewrite Ha, Hb. simpl. eexists. reflexivity.
Qed.

(** A cell never fails, and what it pushes is tagged "user". *)
Lemma emitCell_Ok clock day slot rawCell venueOpt l :
  userSourced l ->
  exists l', emitCell clock day slot rawCell venueOpt l = Ok l' /\ userSourced l'.
Proof.
  intros Hl. unfold emitCell.
  destruct (String.eqb (JS.trim rawCell) EmptyString); [eauto|].
  destruct (negb (truthyStr venueOpt)); [eauto|].
  destruct (_ || _ || _ || _); [eauto|].
  assert (exists named,
    (match timeOverride (JS.trim rawCell) with
     | Some (g1, before) =>
         do h <- ofOption (JS.parseInt (JS.take 2 (JS.padStart0 4 g1)));
         Ok (JS.trim before,
             hhmm (if (h <? 9)%nat then (h + 12)%nat else h) (JS.drop 2 (JS.padStart0 4 g1)))
     | None => Ok (JS.trim rawCell, slot)
     end) = Ok named) as [[artistName startTime] ->].
  { destruct (timeOverride (JS.trim rawCell)) as [[g1 before]|] eqn:T; [|eauto].
    destruct (timeOverride_group _ _ _ T) as [D L].
    destruct (override_hour_read g1 D L) as [h ->]. simpl. eauto. }
  simpl. destruct (String.eqb artistName EmptyString); [eauto|].
  eexists. split; [reflexivity|].
  apply Forall_app. split; [exact Hl|]. constructor; [reflexivity|constructor].
Qed.

Lemma emitRow_Ok clock day slot venues row l :
  userSourced l ->
  exists l', emitRow clock day slot venues row l = Ok l' /\ userSourced l'.
Proof.
  unfold emitRow. generalize (seq 1 (length row - 1)). intros cs. revert l.
  induction cs as [|c cs IH]; simpl; intros l Hl; [eauto|].
  destruct (emitCell_Ok clock day slot (nth c row EmptyString) (venues !! (c - 1)%nat) l Hl)
    as (l1 & -> & Hl1).
  apply IH. exact Hl1.
Qed.

End ImporterFacts.

Section ImporterInvariant.

Import Importer.

Lemma reads_split t h m :
  reads t h m -> map JS.Number (JS.splitChar ":" t) = [Some h; Some m].
Proof.
  intros (hs & ms & -> & Hh & Hm).
  rewrite (splitChar_digits_colon _ _ (Number_Some_digits _ _ Hh)).
  rewrite (splitChar_digits _ (Number_Some_digits _ _ Hm)).
  simpl. rewrite Hh, Hm. reflexivity.
Qed.

(** The padded hour of a base time is a number: checked for every hour an
    hour marker can give. *)
Lemma hour_pad_number h :
  (h <= 111)%nat -> exists H, JS.Number (JS.padStart0 2 (JS.toString h)) = Some H.
Proof.
  intros L.
  assert (forallb
            (fun h => match JS.Number (JS.padStart0 2 (JS.toString h)) with
                      | Some _ => true
                      | None => false
                      end) (seq 0 112) = true) as A by (vm_compute; reflexivity).
  rewrite forallb_forall in A. specialize (A h).
  destruct (JS.Number (JS.padStart0 2 (JS.toString h))) as [H|]; [eauto|].
  assert (false = true); [|discriminate]. apply A. apply in_seq. lia.
Qed.

Lemma hhmm_reads h g2 :
  (h <= 111)%nat -> JS.allChars JS.isDigit g2 = true -> String.length g2 = 2%nat ->
  exists H M, reads (hhmm h g2) H M.
Proof.
  intros L D2 L2. destruct (hour_pad_number h L) as [H EH].
  exists H, (Z.of_nat (JS.digitsValue 0 g2)), (JS.padStart0 2 (JS.toString h)), g2.
  split; [reflexivity|]. split; [exact EH|].
  apply Number_digits; [exact D2|lia].
Qed.

Lemma scanRow_Ok clock day venues st row :
  scanInv st ->
  exists st', scanRow clock day venues st row = Ok st' /\ scanInv st'.
Proof.
  intros [Hb Hs]. unfold scanRow.
  destruct (forallb _ row); [exists st; split; [reflexivity|split; assumption]|].
  destruct (hourMatch (JS.trim (nth 0 row EmptyString))) as [[[g1 g2] g3]|] eqn:HM.
  - destruct (hourMatch_groups _ _ _ _ HM) as (D1 & L1 & D2 & L2).
    destruct (parseInt_two_digits g1 D1 L1) as (h0 & -> & B0). simpl.
    eexists. split; [reflexivity|]. split; [|exact Hs]. simpl.
    apply hhmm_reads; [|exact D2|exact L2].
    destruct (String.eqb (JS.toUpperCase g3) "AM" && _); [lia|].
    destruct (String.eqb (JS.toUpperCase g3) "PM" && _); lia.
  - set (so := if String.eqb (JS.trim (nth 0 row EmptyString)) EmptyString
               then 1 else slotOffset st).
    destruct (negb _ && navHint _); [eexists; split; [reflexivity|split; assumption]|].
    destruct (currentBaseTime st) as [t|] eqn:Ecbt; simpl;
      [|eexists; split; [reflexivity|split; simpl; [exact I|exact Hs]]].
    destruct (negb (negb (String.eqb t EmptyString)));
      [eexists; split; [reflexivity|split; simpl; [exact Hb|exact Hs]]|].
    destruct Hb as (h & m & R). rewrite (reads_split _ _ _ R).
    match goal with
    | |- context [emitRow clock day ?slot venues row (shows st)] =>
        destruct (emitRow_Ok clock day slot venues row (shows st) Hs) as (l' & -> & Hl')
    end.
    simpl. eexists. split; [reflexivity|]. split; simpl; [|exact Hl'].
    exists h, m. exact R.
Qed.

Lemma scanRows_Ok clock day venues rows st :
  scanInv st ->
  exists st', scanRows clock day venues rows st = Ok st' /\ scanInv st'.
Proof.
  unfold scanRows. revert st. induction rows as [|row rows IH]; simpl; intros st Hst.
  - eauto.
  - destruct (scanRow_Ok clock day venues st row Hst) as (st1 & -> & H1).
    apply IH. exact H1.
Qed.

(** The importer returns a list for every text, and every show of the list
    is tagged "user". *)
Lemma parseScheduleCsv_Ok clock csvText day :
  exists l, parseScheduleCsv clock csvText day = Ok l /\ userSourced l.
Proof.
  unfold parseScheduleCsv. destruct (parseRows csvText) as [|header body].
  - exists []. split; [reflexivity|constructor].
  - destruct (scanRows_Ok clock day (venuesOf header) body (mkScan None 0 []))
      as (st' & -> & _ & Hs).
    + split; [exact I|constructor].
    + simpl. eauto.
Qed.

End ImporterInvariant.

Section ImporterRows.

Import Importer.

Lemma scanRows_cons clock day venues row rows st :
  scanRows clock day venues (row :: rows) st
  = obind (scanRow clock day venues st row) (scanRows clock day venues rows).
Proof.
  unfold scanRows. simpl. destruct (scanRow clock day venues st row) as [st1| |].
  - reflexivity.
  - simpl. induction rows as [|r rows IH]; simpl; [reflexivity|exact IH].
  - simpl. induction rows as [|r rows IH]; simpl; [reflexivity|exact IH].
Qed.

Lemma scanRows_app clock day venues pre rest st :
  scanRows clock day venues (pre ++ rest) st
  = obind (scanRows clock day venues pre st) (scanRows clock day venues rest).
Proof.
  revert st. induction pre as [|row pre IH]; intros st.
  - reflexivity.
  - simpl app. rewrite !scanRows_cons.
    destruct (scanRow clock day venues st row) as [st1| |]; simpl; [apply IH| |]; reflexivity.
Qed.

(** Before a base time is set, a row either leaves the base time unset and
    the events untouched, or it is an hour marker and the slot offset it
    finds plays no part. *)
Lemma scanRow_unset clock day venues so l row :
  (exists so', scanRow clock day venues (mkScan None so l) row = Ok (mkScan None so' l))
  \/ (hourMatch (timeLabelOf row) <> None
      /\ forall so2, scanRow clock day venues (mkScan None so l) row
                     = scanRow clock day venues (mkScan None so2 l) row).
Proof.
  unfold scanRow, timeLabelOf. destruct (forallb _ row); [left; eauto|].
  destruct (hourMatch (JS.trim (nth 0 row EmptyString))) as [[[g1 g2] g3]|].
  - right. split; [discriminate|]. intros so2. reflexivity.
  - left. simpl.
    destruct (negb _ && navHint _); eexists; reflexivity.
Qed.

Lemma scanRow_unset_no_hour clock day venues so l row :
  hourMatch (timeLabelOf row) = None ->
  exists so', scanRow clock day venues (mkScan None so l) row = Ok (mkScan None so' l).
Proof.
  intros H. destruct (scanRow_unset clock day venues so l row) as [E|[N _]].
  - exact E.
  - contradiction.
Qed.

Lemma scanRows_unset_slot clock day venues rows so1 so2 l :
  showsOf (scanRows clock day venues rows (mkScan None so1 l))
  = showsOf (scanRows clock day venues rows (mkScan None so2 l)).
Proof.
  revert so1 so2. induction rows as [|row rows IH]; intros so1 so2.
  - reflexivity.
  - rewrite !scanRows_cons.
    destruct (scanRow_unset clock day venues so1 l row) as [[s1 E1]|[N E1]].
    + destruct (scanRow_unset clock day venues so2 l row) as [[s2 E2]|[N E2]].
      * rewrite E1, E2. simpl. apply IH.
      * rewrite (E2 so1), E1. reflexivity.
    + rewrite (E1 so2). reflexivity.
Qed.

Lemma scanRows_no_hour clock day venues pre so l :
  Forall (fun row => hourMatch (timeLabelOf row) = None) pre ->
  exists so', scanRows clock day venues pre (mkScan None so l) = Ok (mkScan None so' l).
Proof.
  intros H. revert so. induction H as [|row pre Hrow _ IH]; intros so.
  - exists so. reflexivity.
  - rewrite scanRows_cons.
    destruct (scanRow_unset_no_hour clock day venues so l row Hrow) as [so1 ->].
    simpl. apply IH.
Qed.

(** Rows met before the first hour marker emit nothing: the events are those
    of the rows from that marker on. *)
Lemma scanRows_skip_prefix clock day venues pre rest :
  Forall (fun row => hourMatch (timeLabelOf row) = None) pre ->
  showsOf (scanRows clock day venues (pre ++ rest) (mkScan None 0 []))
  = showsOf (scanRows clock day venues rest (mkScan None 0 [])).
Proof.
  intros H. rewrite scanRows_app.
  destruct (scanRows_no_hour clock day venues pre 0 [] H) as [so ->]. simpl.
  apply scanRows_unset_slot.
Qed.

(** A row of empty cells, and a row whose label is a day label or a
    navigation hint, change neither the base time nor the events. *)
Lemma scanRow_skipped clock day venues st row :
  forallb (fun c => String.eqb c EmptyString) row = true
  \/ (hourMatch (timeLabelOf row) = None /\ timeLabelOf row <> EmptyString
      /\ navHint (timeLabelOf row) = true) ->
  exists so, scanRow clock day venues st row
             = Ok (mkScan (currentBaseTime st) so (shows st)).
Proof.
  unfold scanRow, timeLabelOf. intros [B|(H & NE & NH)].
  - rewrite B. exists (slotOffset st). destruct st; reflexivity.
  - destruct (forallb _ row); [exists (slotOffset st); destruct st; reflexivity|].
    rewrite H, NH. apply String.eqb_neq in NE. rewrite NE. simpl.
    eexists. reflexivity.
Qed.

End ImporterRows.

Section ImporterClaims.

Import Importer.

(** C1. What the code does on the example grid (header
    [Time,Venue A,Venue B], row [9:00 AM,Band X,Band Y], row [,Band Z,]):
    for every target day it returns one show only, Band Z at 09:30 at
    Venue A.  The hour-marker row sets the base time and is then left, so
    Band X and Band Y are not emitted. *)
Theorem parseScheduleCsv_example_grid (clock : nat -> nat) (day : string) :
  parseRows exampleGrid
  = [ ["Time"; "Venue A"; "Venue B"]; ["9:00 AM"; "Band X"; "Band Y"]; [""; "Band Z"; ""] ]
  /\ parseScheduleCsv clock exampleGrid day
     = Ok [ csvShow (clock 0%nat) 0 "Band Z" "Venue A" day "09:30" ].
Proof.
  split; vm_compute; reflexivity.
Qed.

(** C6, as amended.  For every text and target day the importer returns a
    list of shows, and every show of the list has its [source] equal to
    "user". *)
Theorem parseScheduleCsv_source_user (clock : nat -> nat) (csvText day : string) :
  exists l, parseScheduleCsv clock csvText day = Ok l
            /\ Forall (fun e => source e = "user"%string) l.
Proof.
  apply parseScheduleCsv_Ok.
Qed.

(** C6, as stated, fails: the show imported from the example grid has the
    source "user", not "csv-import". *)
Lemma parseScheduleCsv_source_not_csv_import :
  exists l e, parseScheduleCsv (fun _ => 0%nat) exampleGrid "2026-03-10" = Ok l
              /\ In e l /\ source e <> "csv-import"%string.
Proof.
  eexists. eexists. split; [vm_compute; reflexivity|].
  split; [left; reflexivity|]. simpl. discriminate.
Qed.

(** C9. For every text and target day [parseScheduleCsv] returns a list of
    shows: it neither throws nor leaves the modelled fragment.  The rows
    before the first hour marker emit nothing, and a row of empty cells or
    with a day label or navigation hint changes neither the base time nor
    the events. *)
Theorem parseScheduleCsv_total :
  (forall clock csvText day, exists l, parseScheduleCsv clock csvText day = Ok l)
  /\ (forall clock csvText day header pre rest,
        parseRows csvText = header :: pre ++ rest ->
        Forall (fun row => hourMatch (timeLabelOf row) = None) pre ->
        parseScheduleCsv clock csvText day
        = showsOf (scanRows clock day (venuesOf header) rest (mkScan None 0 [])))
  /\ (forall clock csvText day header body,
        parseRows csvText = header :: body ->
        Forall (fun row => hourMatch (timeLabelOf row) = None) body ->
        parseScheduleCsv clock csvText day = Ok [])
  /\ (forall clock day venues st row,
        forallb (fun c => String.eqb c EmptyString) row = true
        \/ (hourMatch (timeLabelOf row) = None /\ timeLabelOf row <> EmptyString
            /\ navHint (timeLabelOf row) = true) ->
        exists so, scanRow clock day venues st row
                   = Ok (mkScan (currentBaseTime st) so (shows st))).
Proof.
  assert (P : forall clock csvText day header pre rest,
        parseRows csvText = header :: pre ++ rest ->
        Forall (fun row => hourMatch (timeLabelOf row) = None) pre ->
        parseScheduleCsv clock csvText day
        = showsOf (scanRows clock day (venuesOf header) rest (mkScan None 0 []))).
  { intros clock csvText day header pre rest E H.
    unfold parseScheduleCsv. rewrite E.
    exact (scanRows_skip_prefix clock day (venuesOf header) pre rest H). }
  split.
  - intros clock csvText day.
    destruct (parseScheduleCsv_Ok clock csvText day) as (l & E & _). eauto.
  - split; [exact P|]. split.
    + intros clock csvText day header body E H.
      rewrite (P clock csvText day header body []); [reflexivity| |exact H].
      rewrite app_nil_r. exact E.
    + intros clock day venues st row. apply scanRow_skipped.
Qed.

Lemma parseScheduleCsv_total_witness :
  parseScheduleCsv (fun _ => 0%nat) lateMarkerGrid "2026-03-10"
  = showsOf (scanRows (fun _ => 0%nat) "2026-03-10" ["Venue A"]
               [ ["9:00 PM"; ""]; [""; "Band Z"] ] (mkScan None 0 [])).
Proof.
  apply (proj1 (proj2 parseScheduleCsv_total) (fun _ => 0%nat) lateMarkerGrid
           "2026-03-10"%string ["Time"; "Venue A"]%string
           [ [""; "Band Q"]; ["Day 2"; "Band R"] ]%string).
  - vm_compute. reflexivity.
  - repeat constructor.
Defined.

End ImporterClaims.

(** ** Worked examples of the specification *)

Example minutesFromDayStart_after_midnight :
  minutesFromDayStart "00:30" = Ok ((0 + 24 - 9) * 60 + 30).
Proof. reflexivity. Qed.

(** A cell [Combo (215)] under the base time 14:00 starts at 14:15. *)
Example override_cell_example (clock : nat -> nat) (day : string) :
  Importer.parseScheduleCsv clock
    (joinLines [ "Time,Venue A"; "2:00 PM,"; ",Combo (215)" ]) day
  = Ok [ Importer.csvShow (clock 0%nat) 0 "Combo" "Venue A" day "14:15" ].
Proof. vm_compute. reflexivity. Qed.

(** A rating stored under the name key of Band X moves to [eid_42] once
    Band X has the entity id 42. *)
Example migrate_example :
  Identity.migrate [Identity.mkArtist "Band X" (Some 42%nat)] {[ "name_band_x"%string := 3 ]}
  = {[ "eid_42"%string := 3 ]}.
Proof. vm_compute. reflexivity. Qed.

(** A row whose label is neither a time, nor empty, nor a day label or a
    navigation hint is read as a data row of the current slot. *)
Example labelled_row_example (clock : nat -> nat) (day : string) :
  Importer.parseScheduleCsv clock
    (joinLines [ "Time,Venue A"; "9:00 PM,"; "Showcase,Band Q" ]) day
  = Ok [ Importer.csvShow (clock 0%nat) 0 "Band Q" "Venue A" day "21:00" ].
Proof. vm_compute. reflexivity. Qed.

(** * Further properties of the code *)

(** ** Clock strings *)

Section ClockFacts.

Import Clock.

Lemma forallb_below (P : nat -> bool) (n : nat) :
  forallb P (seq 0 n) = true -> forall k, (k < n)%nat -> P k = true.
Proof.
  intros H k Hk. rewrite forallb_forall in H. apply H. apply in_seq. lia.
Qed.

Lemma fields_reads s h m : reads s h m -> fields s = Ok (h, m).
Proof.
  intros R. unfold fields. rewrite (reads_split _ _ _ R). reflexivity.
Qed.

Lemma minutesFromDayStart_reads s h m :
  reads s h m ->
  minutesFromDayStart s = Ok (((if h <? 9 then h + 24 else h) - 9) * 60 + m).
Proof.
  intros (hs & ms & -> & Hh & Hm).
  exact (minutesFromDayStart_fields hs ms h m Hh Hm).
Qed.

Lemma reads_nonneg s h m : reads s h m -> 0 <= h /\ 0 <= m.
Proof.
  intros (hs & ms & _ & Hh & Hm).
  split; eapply Number_nonneg; eauto.
Qed.

(** A two-digit rendering reads back as the number it renders. *)
Lemma pad2_Number n : 0 <= n < 112 -> JS.Number (pad2 n) = Some n.
Proof.
  intros Hn.
  assert (forallb (fun k => match JS.Number (pad2 (Z.of_nat k)) with
                            | Some v => v =? Z.of_nat k
                            | None => false
                            end) (seq 0 112) = true) as A by (vm_compute; reflexivity).
  pose proof (forallb_below _ _ A (Z.to_nat n) ltac:(lia)) as B. cbv beta in B.
  rewrite Z2Nat.id in B by lia.
  destruct (JS.Number (pad2 n)) as [w|]; [|discriminate].
  apply Z.eqb_eq in B. congruence.
Qed.

Lemma pad2_reads_with n mm v :
  0 <= n < 112 -> JS.Number mm = Some v -> reads (pad2 n +:+ String ":" mm) n v.
Proof.
  intros Hn Hv. exists (pad2 n), mm. split; [reflexivity|]. split; [|exact Hv].
  apply pad2_Number. exact Hn.
Qed.

End ClockFacts.

Section ClockProperties.

Import Clock.

(** X1. A valid clock time (hour below 24, minute below 60) has an offset
    in [0, 1440); it lies on the 17-hour axis of the timeline (below 1020)
    exactly when its hour is 9 to 23 or 0 to 1; and two valid clock times
    with the same offset have the same hour and minute. *)
Theorem minutesFromDayStart_valid_clock (s1 s2 : string) (h1 m1 h2 m2 : Z) :
  reads s1 h1 m1 -> h1 < 24 -> m1 < 60 ->
  reads s2 h2 m2 -> h2 < 24 -> m2 < 60 ->
  exists o1 o2,
    minutesFromDayStart s1 = Ok o1 /\ minutesFromDayStart s2 = Ok o2
    /\ 0 <= o1 < 1440
    /\ (o1 < 1020 <-> 9 <= h1 \/ h1 <= 1)
    /\ (o1 = o2 -> h1 = h2 /\ m1 = m2)
    /\ (9 <= h1 -> 9 <= h2 -> (o1 < o2 <-> h1 < h2 \/ (h1 = h2 /\ m1 < m2))).
Proof.
  intros R1 H1 M1 R2 H2 M2.
  destruct (reads_nonneg _ _ _ R1) as [P1 Q1].
  destruct (reads_nonneg _ _ _ R2) as [P2 Q2].
  rewrite (minutesFromDayStart_reads _ _ _ R1), (minutesFromDayStart_reads _ _ _ R2).
  eexists _, _. split; [reflexivity|]. split; [reflexivity|].
  destruct (Z.ltb_spec h1 9), (Z.ltb_spec h2 9); repeat split; intros; lia.
Qed.

Lemma minutesFromDayStart_valid_clock_witness :
  exists o1 o2,
    minutesFromDayStart "23:45" = Ok o1 /\ minutesFromDayStart "01:10" = Ok o2
    /\ 0 <= o1 < 1440
    /\ (o1 < 1020 <-> 9 <= 23 \/ 23 <= 1)
    /\ (o1 = o2 -> 23 = 1 /\ 45 = 10)
    /\ (9 <= 23 -> 9 <= 1 -> (o1 < o2 <-> 23 < 1 \/ (23 = 1 /\ 45 < 10))).
Proof.
  apply (minutesFromDayStart_valid_clock "23:45" "01:10" 23 45 1 10).
  - exists "23"%string, "45"%string. vm_compute. auto.
  - lia.
  - lia.
  - exists "01"%string, "10"%string. vm_compute. auto.
  - lia.
  - lia.
Defined.

Lemma nearestSlot_reads s h m :
  reads s h m -> h < 24 ->
  nearestSlot s = Ok (pad2 h +:+ ":" +:+ (if m <? 30 then "00" else "30"))
  /\ reads (pad2 h +:+ ":" +:+ (if m <? 30 then "00" else "30")) h (if m <? 30 then 0 else 30).
Proof.
  intros R H. destruct (reads_nonneg _ _ _ R) as [P _].
  split.
  - unfold nearestSlot. rewrite (fields_reads _ _ _ R). reflexivity.
  - destruct (m <? 30); apply pad2_reads_with; try lia; reflexivity.
Qed.

(** X2. [nearestSlot] rounds a valid clock time down to the half hour: the
    slot it returns starts at most 29 minutes before the time, on a
    multiple of 30 minutes from the day start.  The slot is a row of the
    grid exactly when the hour is 9 to 23 or 0 to 1: a show that starts
    between 02:00 and 08:59 has no row. *)
Theorem nearestSlot_rounds_down (s : string) (h m : Z) :
  reads s h m -> h < 24 -> m < 60 ->
  exists slot o os,
    nearestSlot s = Ok slot
    /\ minutesFromDayStart s = Ok o /\ minutesFromDayStart slot = Ok os
    /\ os <= o < os + 30 /\ os mod 30 = 0
    /\ (In slot gridSlots <-> 9 <= h \/ h <= 1).
Proof.
  intros R H M. destruct (reads_nonneg _ _ _ R) as [P Q].
  destruct (nearestSlot_reads s h m R H) as [E Rs].
  exists (pad2 h +:+ ":"%string +:+ (if m <? 30 then "00"%string else "30"%string)).
  rewrite (minutesFromDayStart_reads _ _ _ R), (minutesFromDayStart_reads _ _ _ Rs).
  eexists _, _. split; [exact E|]. split; [reflexivity|]. split; [reflexivity|].
  split; [|split].
  - destruct (m <? 30) eqn:L; [apply Z.ltb_lt in L|apply Z.ltb_ge in L]; lia.
  - apply Z.mod_divide; [lia|].
    destruct (m <? 30), (h <? 9).
    + exists (2 * (h + 24 - 9)). lia.
    + exists (2 * (h - 9)). lia.
    + exists (2 * (h + 24 - 9) + 1). lia.
    + exists (2 * (h - 9) + 1). lia.
  - assert (forallb (fun k =>
              forallb (fun half : bool =>
                Bool.eqb
                  (existsb (String.eqb (pad2 (Z.of_nat k) +:+ ":"
                                        +:+ (if half then "00" else "30")))
                           gridSlots)
                  ((9 <=? k)%nat || (k <=? 1)%nat)) [true; false])
              (seq 0 24) = true) as A by (vm_compute; reflexivity).
    pose proof (forallb_below _ _ A (Z.to_nat h) ltac:(lia)) as B. cbv beta in B; unfold forallb in B.
    rewrite Z2Nat.id in B by lia.
    rewrite !andb_true_iff in B. destruct B as (B1 & B2 & _).
    assert (Bh : Bool.eqb
                   (existsb (String.eqb (pad2 h +:+ ":" +:+ (if m <? 30 then "00" else "30")))
                            gridSlots)
                   ((9 <=? Z.to_nat h)%nat || (Z.to_nat h <=? 1)%nat) = true)
      by (destruct (m <? 30); assumption).
    apply Bool.eqb_prop in Bh.
    split.
    + intros Hin.
      assert (existsb (String.eqb (pad2 h +:+ ":" +:+ (if m <? 30 then "00" else "30")))
                      gridSlots = true) as Ex.
      { apply existsb_exists. eexists. split; [exact Hin|]. apply String.eqb_refl. }
      rewrite Bh in Ex. apply orb_true_iff in Ex as [Ex|Ex]; apply Nat.leb_le in Ex; lia.
    + intros Hh.
      assert (existsb (String.eqb (pad2 h +:+ ":" +:+ (if m <? 30 then "00" else "30")))
                      gridSlots = true) as Ex.
      { rewrite Bh. apply orb_true_iff.
        destruct Hh; [left|right]; apply Nat.leb_le; lia. }
      apply existsb_exists in Ex as (x & Hx & Ex). apply String.eqb_eq in Ex.
      rewrite Ex. exact Hx.
Qed.

Lemma nearestSlot_rounds_down_witness :
  exists slot o os,
    nearestSlot "21:45" = Ok slot
    /\ minutesFromDayStart "21:45" = Ok o /\ minutesFromDayStart slot = Ok os
    /\ os <= o < os + 30 /\ os mod 30 = 0
    /\ (In slot gridSlots <-> 9 <= 21 \/ 21 <= 1).
Proof.
  apply (nearestSlot_rounds_down "21:45" 21 45).
  - exists "21"%string, "45"%string. vm_compute. auto.
  - lia.
  - lia.
Defined.

End ClockProperties.

Section ClockProperties2.

Import Clock.

(** X3. [prevSlotKey] steps a half-hour slot back by 30 minutes: for a slot
    of a valid hour other than the first slot 09:00 the key it returns is
    30 minutes earlier on the day axis, across midnight as well. *)
Theorem prevSlotKey_steps_back (s : string) (h m : Z) :
  reads s h m -> h < 24 -> m = 0 \/ m = 30 -> h <> 9 \/ m <> 0 ->
  exists p o op,
    prevSlotKey s = Ok p
    /\ reads p (if m =? 0 then (h - 1 + 24) mod 24 else h) (if m =? 0 then 30 else 0)
    /\ minutesFromDayStart s = Ok o /\ minutesFromDayStart p = Ok op
    /\ op = o - 30.
Proof.
  intros R H M N. destruct (reads_nonneg _ _ _ R) as [P _].
  assert (0 <= (h - 1 + 24) mod 24 < 24) as B by (apply Z.mod_pos_bound; lia).
  assert (Rp : reads (if m =? 0 then pad2 ((h - 1 + 24) mod 24) +:+ ":30"
                      else pad2 h +:+ ":00")
                     (if m =? 0 then (h - 1 + 24) mod 24 else h)
                     (if m =? 0 then 30 else 0)).
  { destruct (m =? 0); apply pad2_reads_with; try lia; reflexivity. }
  eexists _, _, _. split.
  { unfold prevSlotKey. rewrite (fields_reads _ _ _ R). simpl.
    instantiate (1 := if m =? 0 then pad2 ((h - 1 + 24) mod 24) +:+ ":30"
                      else pad2 h +:+ ":00").
    destruct (m =? 0); reflexivity. }
  split; [exact Rp|].
  rewrite (minutesFromDayStart_reads _ _ _ R), (minutesFromDayStart_reads _ _ _ Rp).
  split; [reflexivity|]. split; [reflexivity|].
  destruct (Z.eqb_spec m 0) as [->|Hm].
  - assert (h = 0 \/ 1 <= h) as [->|Hh] by lia.
    + reflexivity.
    + replace ((h - 1 + 24) mod 24) with (h - 1).
      2: { apply (Z.mod_unique _ _ 1); lia. }
      destruct (Z.ltb_spec (h - 1) 9), (Z.ltb_spec h 9); lia.
  - destruct (Z.ltb_spec h 9); lia.
Qed.

Lemma prevSlotKey_steps_back_witness :
  exists p o op,
    prevSlotKey "00:00" = Ok p
    /\ reads p (if 0 =? 0 then (0 - 1 + 24) mod 24 else 0) (if 0 =? 0 then 30 else 0)
    /\ minutesFromDayStart "00:00" = Ok o /\ minutesFromDayStart p = Ok op
    /\ op = o - 30.
Proof.
  apply (prevSlotKey_steps_back "00:00" 0 0).
  - exists "00"%string, "00"%string. vm_compute. auto.
  - lia.
  - lia.
  - lia.
Defined.

(** The canonical "HH:MM" string of an hour and a minute. *)
Lemma clockString_reads (h m : nat) :
  (h < 24)%nat -> (m < 60)%nat ->
  reads (pad2 (Z.of_nat h) +:+ ":" +:+ pad2 (Z.of_nat m)) (Z.of_nat h) (Z.of_nat m).
Proof.
  intros H M. apply pad2_reads_with; [lia|]. apply pad2_Number. lia.
Qed.

Lemma roundTrip_checked t :
  match formatTime12 (Some t) with
  | Ok shown => match parseUserTime shown with
                | Ok (Some t') => String.eqb t' t
                | _ => false
                end
  | _ => false
  end = true ->
  exists shown, formatTime12 (Some t) = Ok shown /\ parseUserTime shown = Ok (Some t).
Proof.
  destruct (formatTime12 (Some t)) as [shown| |]; try discriminate.
  destruct (parseUserTime shown) as [[t'|]| |] eqn:G; try discriminate.
  intros B. apply String.eqb_eq in B. subst. eauto.
Qed.

(** X4. [parseUserTime] undoes [formatTime12]: every valid clock time
    "HH:MM", shown in 12-hour form and typed back, gives the same "HH:MM"
    string (12 AM is hour 00, 12 PM is hour 12). *)
Theorem parseUserTime_formatTime12 (h m : nat) :
  (h < 24)%nat -> (m < 60)%nat ->
  exists shown,
    formatTime12 (Some (pad2 (Z.of_nat h) +:+ ":" +:+ pad2 (Z.of_nat m))) = Ok shown
    /\ parseUserTime shown = Ok (Some (pad2 (Z.of_nat h) +:+ ":" +:+ pad2 (Z.of_nat m))).
Proof.
  intros H M.
  assert (forallb (fun h => forallb (fun m =>
            let t := pad2 (Z.of_nat h) +:+ ":" +:+ pad2 (Z.of_nat m) in
            match formatTime12 (Some t) with
            | Ok shown => match parseUserTime shown with
                          | Ok (Some t') => String.eqb t' t
                          | _ => false
                          end
            | _ => false
            end) (seq 0 60)) (seq 0 24) = true) as A by (vm_compute; reflexivity).
  apply roundTrip_checked.
  exact (forallb_below _ _ (forallb_below _ _ A h H) m M).
Qed.

Lemma parseUserTime_formatTime12_witness :
  exists shown,
    formatTime12 (Some (pad2 0 +:+ ":" +:+ pad2 5)) = Ok shown
    /\ parseUserTime shown = Ok (Some (pad2 0 +:+ ":" +:+ pad2 5)).
Proof.
  apply (parseUserTime_formatTime12 0 5); lia.
Defined.

End ClockProperties2.

Section ParseUserTimeFacts.

Import Clock.

Lemma hourDigits_groups s g1 rest :
  hourDigits s = Some (g1, rest) ->
  JS.allChars JS.isDigit g1 = true /\ (1 <= String.length g1 <= 2)%nat.
Proof.
  unfold hourDigits. destruct s as [|d1 r]; [discriminate|].
  destruct (JS.isDigit d1) eqn:D1; [|discriminate].
  destruct r as [|d2 r'].
  - intros [= <- <-]. simpl. rewrite D1. split; [reflexivity|lia].
  - destruct (JS.isDigit d2) eqn:D2; intros [= <- <-]; simpl; rewrite D1, ?D2;
      split; try reflexivity; lia.
Qed.

Lemma match24_groups s g1 g2 :
  match24 s = Some (g1, g2) ->
  JS.allChars JS.isDigit g1 = true /\ (1 <= String.length g1 <= 2)%nat
  /\ JS.allChars JS.isDigit g2 = true /\ String.length g2 = 2%nat.
Proof.
  unfold match24. destruct (hourDigits s) as [[g rest]|] eqn:H; [|discriminate].
  destruct rest as [|c [|m1 [|m2 [|x r]]]]; try discriminate.
  destruct (Ascii.eqb c ":" && JS.isDigit m1 && JS.isDigit m2) eqn:E; [|discriminate].
  intros [= <- <-]. destruct (hourDigits_groups _ _ _ H) as [A B].
  apply andb_true_iff in E as [E M2]. apply andb_true_iff in E as [_ M1].
  simpl. rewrite M1, M2. auto.
Qed.

Lemma match12_groups s g1 g2 g3 :
  match12 s = Some (g1, g2, g3) ->
  JS.allChars JS.isDigit g1 = true /\ (1 <= String.length g1 <= 2)%nat
  /\ (forall mm, g2 = Some mm ->
        JS.allChars JS.isDigit mm = true /\ String.length mm = 2%nat).
Proof.
  unfold match12. destruct (hourDigits s) as [[g rest]|] eqn:H; [|discriminate].
  destruct (meridiemTail rest) as [[mm p]|] eqn:T; [|discriminate].
  intros [= <- <- <-]. destruct (hourDigits_groups _ _ _ H) as [A B].
  split; [exact A|]. split; [exact B|].
  intros x ->. unfold meridiemTail in T.
  destruct rest as [|c rest']; [discriminate|].
  destruct (Ascii.eqb c ":").
  - destruct rest' as [|m1 [|m2 r]]; try discriminate.
    destruct (JS.isDigit m1 && JS.isDigit m2) eqn:E; [|discriminate].
    destruct (Importer.periodMatch r); [|discriminate].
    injection T as <- _. simpl. rewrite andb_true_r. auto.
  - destruct (Importer.periodMatch (String c rest')); discriminate.
Qed.

Lemma to24_le h period : (to24 h period <= h + 12)%nat.
Proof.
  unfold to24.
  destruct (String.eqb period "PM" && negb (h =? 12)%nat);
    destruct (String.eqb period "AM" && _); lia.
Qed.

Lemma parseUserTime_reads (str : string) :
  exists r, parseUserTime str = Ok r
            /\ forall t, r = Some t ->
                 exists h m o, reads t h m /\ minutesFromDayStart t = Ok o.
Proof.
  assert (R : forall t, (exists h m, reads t h m) ->
                        exists h m o, reads t h m /\ minutesFromDayStart t = Ok o).
  { intros t (h & m & Rt). exists h, m. eexists. split; [exact Rt|].
    apply (minutesFromDayStart_reads _ _ _ Rt). }
  unfold parseUserTime.
  destruct (match24 (JS.trim str)) as [[g1 g2]|] eqn:M24.
  - destruct (match24_groups _ _ _ M24) as (D1 & L1 & D2 & L2).
    destruct (parseInt_two_digits g1 D1 L1) as (h & -> & Hh). simpl.
    eexists. split; [reflexivity|]. intros t [= <-]. apply R.
    apply (hhmm_reads h g2); [lia|exact D2|exact L2].
  - destruct (match12 (JS.trim str)) as [[[g1 g2] g3]|] eqn:M12.
    + destruct (match12_groups _ _ _ _ M12) as (D1 & L1 & G2).
      destruct (parseInt_two_digits g1 D1 L1) as (h & -> & Hh). simpl.
      eexists. split; [reflexivity|]. intros t [= <-]. apply R.
      pose proof (to24_le h (JS.toUpperCase g3)).
      destruct g2 as [mm|].
      * destruct (G2 mm eq_refl) as [D2 L2].
        apply (hhmm_reads (to24 h (JS.toUpperCase g3)) mm); [lia|exact D2|exact L2].
      * apply (hhmm_reads (to24 h (JS.toUpperCase g3)) "00"); [lia|reflexivity|reflexivity].
    + exists None. split; [reflexivity|]. discriminate.
Qed.

(** X5. [parseUserTime] never fails: it returns [null] or a string.  A
    string it returns is a time [minutesFromDayStart] reads, so a show
    entered by hand can always be placed. *)
Theorem parseUserTime_readable (str : string) :
  exists r, parseUserTime str = Ok r
            /\ forall t, r = Some t ->
                 exists h m o, reads t h m /\ minutesFromDayStart t = Ok o.
Proof.
  exact (parseUserTime_reads str).
Qed.

Lemma parseUserTime_readable_witness :
  exists r, Clock.parseUserTime "9:30 PM" = Ok r
            /\ forall t, r = Some t ->
                 exists h m o, reads t h m /\ minutesFromDayStart t = Ok o.
Proof.
  exact (parseUserTime_readable "9:30 PM").
Defined.

End ParseUserTimeFacts.

(** ** Decimal renderings *)

Section DecimalFacts.

Lemma toString_inj n m : JS.toString n = JS.toString m -> n = m.
Proof.
  unfold JS.toString. intros H.
  apply (f_equal NilEmpty.uint_of_string) in H.
  rewrite !NilEmpty.usu in H. injection H as H.
  apply Unsigned.to_uint_inj. exact H.
Qed.

Lemma string_of_uint_digits d : JS.allChars JS.isDigit (NilEmpty.string_of_uint d) = true.
Proof.
  induction d; simpl; try reflexivity; exact IHd.
Qed.

Lemma toString_digits n : JS.allChars JS.isDigit (JS.toString n) = true.
Proof.
  apply string_of_uint_digits.
Qed.

Lemma eidKey_inj n m : Identity.eidKey n = Identity.eidKey m -> n = m.
Proof.
  unfold Identity.eidKey. simpl. intros [= H]. apply toString_inj. exact H.
Qed.

End DecimalFacts.

(** ** Rating keys across the two pages *)

Section KeyFacts.

Import Identity.

Lemma entityIdMap_fold_keeps (l : list Artist) (m : gmap string nat) k v :
  (forall b, In b l -> JS.toLowerCase (name b) = k ->
             truthyId (a_entity_id b) = true -> a_entity_id b = Some v) ->
  m !! k = Some v
  \/ (exists a, In a l /\ name a <> EmptyString /\ JS.toLowerCase (name a) = k
                /\ a_entity_id a = Some v /\ truthyId (Some v) = true) ->
  fold_left Catalog.addArtist l m !! k = Some v.
Proof.
  revert m. induction l as [|b l IH]; simpl; intros m Hcons H.
  - destruct H as [H|(a & [] & _)]. exact H.
  - apply IH.
    + intros c Hc. apply Hcons. right. exact Hc.
    + destruct H as [H|(a & [<-|Ha] & Hn & Hk & He & Ht)].
      * left. unfold Catalog.addArtist.
        destruct (String.eqb (name b) EmptyString); [exact H|].
        destruct (a_entity_id b) as [[|n]|] eqn:Eb; try exact H.
        destruct (decide (JS.toLowerCase (name b) = k)) as [Ek|Nk].
        -- rewrite Ek, lookup_insert_eq. rewrite <- Eb.
           apply Hcons; [left; reflexivity|exact Ek|].
           rewrite Eb. reflexivity.
        -- rewrite lookup_insert_ne by exact Nk. exact H.
      * left. unfold Catalog.addArtist.
        apply String.eqb_neq in Hn. rewrite Hn, He.
        destruct v as [|n]; [discriminate|].
        rewrite Hk. apply lookup_insert_eq.
      * right. exists a. auto.
Qed.

Lemma entityIdMap_fold_from (l : list Artist) (m : gmap string nat) k v :
  fold_left Catalog.addArtist l m !! k = Some v ->
  m !! k = Some v
  \/ exists b, In b l /\ JS.toLowerCase (name b) = k /\ a_entity_id b = Some v
               /\ truthyId (Some v) = true.
Proof.
  revert m. induction l as [|b l IH]; simpl; intros m H.
  - left. exact H.
  - destruct (IH _ H) as [H1|(c & Hc & Hk & He & Ht)].
    + unfold Catalog.addArtist in H1.
      destruct (String.eqb (name b) EmptyString); [left; exact H1|].
      destruct (a_entity_id b) as [[|n]|] eqn:Eb; try (left; exact H1).
      destruct (decide (JS.toLowerCase (name b) = k)) as [Ek|Nk].
      * rewrite Ek, lookup_insert_eq in H1. injection H1 as <-.
        right. exists b. auto.
      * rewrite lookup_insert_ne in H1 by exact Nk. left. exact H1.
    + right. exists c. auto.
Qed.

(** X6. The schedule page reads a rating under the key the artist page
    wrote it.  For an artist of the catalog with a name, whose name in
    lower case does not name a property of [Object.prototype], and a show
    under the same name up to letter case that carries no entity id of its
    own or the artist's: when the artist has an entity id (and the catalog
    gives that name no other id), [showRatingKey] of the show is
    [artistKey] of the artist; so it is when neither the artist nor any
    catalog artist of that name has an entity id. *)
Theorem showRatingKey_artistKey (artistsData : list Artist) (a : Artist) (s : Show) :
  In a artistsData -> name a <> EmptyString ->
  Objects.inherited (JS.toLowerCase (name a)) = false ->
  JS.toLowerCase (artist_name s) = JS.toLowerCase (name a) ->
  (forall b, In b artistsData -> JS.toLowerCase (name b) = JS.toLowerCase (name a) ->
             truthyId (a_entity_id b) = true -> a_entity_id b = a_entity_id a) ->
  truthyId (entity_id s) = false \/ entity_id s = a_entity_id a ->
  showRatingKey (Catalog.entityIdMap artistsData) s = ArtistPage.artistKey a.
Proof.
  intros Ha Hn _ Hs Hcons He. unfold ArtistPage.artistKey.
  destruct (truthyId (a_entity_id a)) eqn:Ta.
  - destruct (a_entity_id a) as [[|n]|] eqn:Ea; try discriminate.
    unfold showRatingKey, Catalog.entityIdMap.
    destruct (entity_id s) as [[|k]|] eqn:Es.
    + rewrite Hs.
      rewrite (entityIdMap_fold_keeps artistsData ∅ _ (S n)); [reflexivity| |].
      * intros b Hb Hk Tb. apply Hcons; assumption.
      * right. exists a. auto.
    + destruct He as [He|He]; [discriminate|]. injection He as ->. reflexivity.
    + rewrite Hs.
      rewrite (entityIdMap_fold_keeps artistsData ∅ _ (S n)); [reflexivity| |].
      * intros b Hb Hk Tb. apply Hcons; assumption.
      * right. exists a. auto.
  - assert (truthyId (entity_id s) = false) as Ts.
    { destruct He as [He|He]; [exact He|]. rewrite He. exact Ta. }
    assert (Catalog.entityIdMap artistsData !! JS.toLowerCase (name a) = None
            \/ Catalog.entityIdMap artistsData !! JS.toLowerCase (name a) = Some 0%nat) as Hm.
    { destruct (Catalog.entityIdMap artistsData !! JS.toLowerCase (name a)) as [v|] eqn:L;
        [|left; reflexivity].
      exfalso. destruct (entityIdMap_fold_from _ _ _ _ L) as [H|(b & Hb & Hk & Eb & Tv)].
      - rewrite lookup_empty in H. discriminate.
      - assert (a_entity_id b = a_entity_id a) as E.
        { apply Hcons; [exact Hb|exact Hk|]. rewrite Eb. exact Tv. }
        rewrite <- E, Eb, Tv in Ta. discriminate. }
    unfold showRatingKey, nameKey, slug. rewrite Hs.
    destruct (entity_id s) as [[|k]|]; try discriminate;
      destruct Hm as [-> | ->]; reflexivity.
Qed.

Lemma showRatingKey_artistKey_witness :
  Identity.showRatingKey (Catalog.entityIdMap [Identity.mkArtist "Band X" (Some 7%nat)]) dupShow
  = ArtistPage.artistKey (Identity.mkArtist "Band X" (Some 7%nat)).
Proof.
  apply (showRatingKey_artistKey [Identity.mkArtist "Band X" (Some 7%nat)]
           (Identity.mkArtist "Band X" (Some 7%nat)) dupShow).
  - left. reflexivity.
  - discriminate.
  - reflexivity.
  - reflexivity.
  - intros b [<-|[]] _ _. reflexivity.
  - left. reflexivity.
Defined.

End KeyFacts.

(** ** Rating clicks *)

Section RatingClicks.

Import ArtistPage.

(** X7. A click on a rating button touches the clicked artist's key only;
    it removes the rating when the button shows the current rating and sets
    it otherwise.  Two clicks on the same button leave the artist with the
    button's rating if that was the rating before, and unrated in every
    other case: an earlier, different rating is not restored. *)
Theorem clickRating_toggles (key : string) (newRating : Z) (ratings : gmap string Z) :
  (forall k, k <> key -> clickRating key newRating ratings !! k = ratings !! k)
  /\ clickRating key newRating ratings !! key
     = (if bool_decide (ratings !! key = Some newRating) then None else Some newRating)
  /\ clickRating key newRating (clickRating key newRating ratings) !! key
     = (if bool_decide (ratings !! key = Some newRating) then Some newRating else None)
  /\ (ratings !! key = None ->
      clickRating key newRating (clickRating key newRating ratings) = ratings).
Proof.
  assert (A : clickRating key newRating ratings !! key
     = (if bool_decide (ratings !! key = Some newRating) then None else Some newRating)).
  { unfold clickRating. case_bool_decide.
    - apply lookup_delete_eq.
    - apply lookup_insert_eq. }
  split; [|split; [exact A|split]].
  - intros k Hk. unfold clickRating. case_bool_decide.
    + apply lookup_delete_ne. congruence.
    + apply lookup_insert_ne. congruence.
  - unfold clickRating at 1. rewrite A.
    destruct (bool_decide (ratings !! key = Some newRating)) eqn:B.
    + rewrite bool_decide_eq_false_2 by discriminate. apply lookup_insert_eq.
    + rewrite bool_decide_eq_true_2 by reflexivity. apply lookup_delete_eq.
  - intros Hnone. unfold clickRating at 1. rewrite A.
    rewrite (bool_decide_eq_false_2 (ratings !! key = Some newRating)) by congruence.
    rewrite bool_decide_eq_true_2 by reflexivity.
    unfold clickRating. rewrite bool_decide_eq_false_2 by congruence.
    rewrite delete_insert_eq. apply delete_id. exact Hnone.
Qed.

Lemma clickRating_toggles_witness :
  clickRating "eid_42" 3 (clickRating "eid_42" 3 (<["name_x" := 2]> ∅))
  = <["name_x" := 2]> ∅.
Proof.
  apply (proj2 (proj2 (proj2 (clickRating_toggles "eid_42" 3 (<["name_x" := 2]> ∅))))).
  reflexivity.
Defined.

End RatingClicks.

(** ** The admission filter *)

Section AdmissionFacts.

Import Admission.

Lemma toggle_nonempty type (f : gset string) : f <> ∅ -> toggle type f <> ∅.
Proof.
  intros Hf. unfold toggle. case_bool_decide as Hin.
  - case_bool_decide as Hsz; [|exact Hf].
    intros E. assert (f ⊆ {[type]}) as Sub.
    { intros x Hx. destruct (decide (x = type)) as [->|Hne].
      - apply elem_of_singleton. reflexivity.
      - exfalso. assert (x ∈ f ∖ {[type]}) as Hd.
        { apply elem_of_difference. split; [exact Hx|].
          rewrite elem_of_singleton. exact Hne. }
        rewrite E in Hd. apply not_elem_of_empty in Hd. exact Hd. }
    apply subseteq_size in Sub. rewrite size_singleton in Sub. lia.
  - intros E. assert (type ∈ {[type]} ∪ f) as Ht.
    { apply elem_of_union_l, elem_of_singleton. reflexivity. }
    rewrite E in Ht. apply not_elem_of_empty in Ht. exact Ht.
Qed.

(** X8. Whatever admission buttons are clicked, in whatever order, at least
    one admission type stays shown; and a click changes the state of the
    clicked type only. *)
Theorem admission_filter_never_empty (clicks : list string) :
  fold_left (fun f type => toggle type f) clicks initial <> ∅
  /\ forall (f : gset string) type other,
       other <> type -> (other ∈ toggle type f <-> other ∈ f).
Proof.
  split.
  - assert (initial <> ∅) as H0.
    { intros E. assert ("badge"%string ∈ initial) as Hb.
      { unfold initial. apply elem_of_union_l, elem_of_singleton. reflexivity. }
      rewrite E in Hb. apply not_elem_of_empty in Hb. exact Hb. }
    revert H0. generalize initial. induction clicks as [|c clicks IH]; simpl; intros f Hf.
    + exact Hf.
    + apply IH. apply toggle_nonempty. exact Hf.
  - intros f type other Hne. unfold toggle.
    case_bool_decide; [case_bool_decide|].
    + rewrite elem_of_difference, elem_of_singleton. tauto.
    + tauto.
    + rewrite elem_of_union, elem_of_singleton. tauto.
Qed.

Lemma admission_filter_never_empty_witness :
  "cover"%string ∈ toggle "badge" initial <-> "cover"%string ∈ initial.
Proof.
  apply (proj2 (admission_filter_never_empty []) initial "badge"%string "cover"%string).
  discriminate.
Defined.

End AdmissionFacts.

(** ** HTML escaping *)

Section HtmlFacts.

Import Html.

Lemma allChars_append p a b :
  JS.allChars p (a +:+ b) = JS.allChars p a && JS.allChars p b.
Proof.
  induction a as [|x a IH]; simpl; [reflexivity|].
  rewrite IH. apply andb_assoc.
Qed.

(** A replacement pass leaves the text free of a character that the
    inserted string does not contain, if the character is the one replaced
    or the text was free of it. *)
Lemma replaceAll_freeOf c rep d s :
  freeOf d rep = true -> d = c \/ freeOf d s = true ->
  freeOf d (replaceAll c rep s) = true.
Proof.
  intros Hrep. unfold freeOf in *. induction s as [|x s IH]; simpl; intros H.
  - reflexivity.
  - destruct (Ascii.eqb_spec x c) as [->|Hx].
    + rewrite allChars_append, Hrep. simpl. apply IH.
      destruct H as [H|H]; [left; exact H|].
      apply andb_true_iff in H as [_ H]. right. exact H.
    + simpl. destruct H as [->|H].
      * destruct (Ascii.eqb_spec x c); [contradiction|]. simpl.
        apply IH. left. reflexivity.
      * apply andb_true_iff in H as [H1 H2]. rewrite H1. simpl.
        apply IH. right. exact H2.
Qed.

Lemma replaceAll_absent c rep s : freeOf c s = true -> replaceAll c rep s = s.
Proof.
  unfold freeOf. induction s as [|x s IH]; simpl; intros H; [reflexivity|].
  apply andb_true_iff in H as [H1 H2]. apply negb_true_iff in H1.
  rewrite H1, (IH H2). reflexivity.
Qed.

(** X9. The text [escHtml] returns contains no [<], no [>] and no double
    quote, and [escAttr] returns none of these and no single quote either;
    a text without any of the escaped characters is returned as it is. *)
Theorem escHtml_no_markup (s : string) :
  freeOf "<" (escHtml s) = true /\ freeOf ">" (escHtml s) = true
  /\ freeOf dquote (escHtml s) = true
  /\ freeOf "<" (escAttr s) = true /\ freeOf ">" (escAttr s) = true
  /\ freeOf dquote (escAttr s) = true /\ freeOf squote (escAttr s) = true
  /\ (freeOf "&" s = true -> freeOf "<" s = true -> freeOf ">" s = true ->
      freeOf dquote s = true -> escHtml s = s).
Proof.
  unfold escHtml, escAttr.
  repeat split.
  - apply replaceAll_freeOf; [reflexivity|right].
    apply replaceAll_freeOf; [reflexivity|right].
    apply replaceAll_freeOf; [reflexivity|left; reflexivity].
  - apply replaceAll_freeOf; [reflexivity|right].
    apply replaceAll_freeOf; [reflexivity|left; reflexivity].
  - apply replaceAll_freeOf; [reflexivity|left; reflexivity].
  - apply replaceAll_freeOf; [reflexivity|right].
    apply replaceAll_freeOf; [reflexivity|left; reflexivity].
  - apply replaceAll_freeOf; [reflexivity|left; reflexivity].
  - apply replaceAll_freeOf; [reflexivity|right].
    apply replaceAll_freeOf; [reflexivity|right].
    apply replaceAll_freeOf; [reflexivity|right].
    apply replaceAll_freeOf; [reflexivity|left; reflexivity].
  - apply replaceAll_freeOf; [reflexivity|right].
    apply replaceAll_freeOf; [reflexivity|right].
    apply replaceAll_freeOf; [reflexivity|left; reflexivity].
  - intros Ha Hl Hg Hq.
    rewrite (replaceAll_absent "&" _ s Ha), (replaceAll_absent "<" _ s Hl),
            (replaceAll_absent ">" _ s Hg), (replaceAll_absent dquote _ s Hq).
    reflexivity.
Qed.

Lemma escHtml_no_markup_witness : escHtml "Band X" = "Band X"%string.
Proof.
  apply (proj2 (proj2 (proj2 (proj2 (proj2 (proj2 (proj2
           (escHtml_no_markup "Band X")))))))); reflexivity.
Defined.

End HtmlFacts.

(** ** The show store, continued *)

Section StoreMore.

Import Store.

Lemma filter_all_false {A} (p : A -> bool) (l : list A) :
  (forall x, In x l -> p x = false) -> List.filter p l = [].
Proof.
  induction l as [|x l IH]; simpl; intros H; [reflexivity|].
  rewrite (H x (or_introl eq_refl)). apply IH. intros y Hy. apply H. right. exact Hy.
Qed.

Lemma keySet_app a b k : k ∈ keySet (a ++ b) <-> k ∈ keySet a \/ k ∈ keySet b.
Proof.
  rewrite !elem_of_keySet. split.
  - intros (s & Hs & E). apply in_app_or in Hs as [Hs|Hs]; [left|right]; eauto.
  - intros [(s & Hs & E)|(s & Hs & E)]; exists s; split; auto; apply in_or_app; auto.
Qed.

(** After a merge every incoming key is in the collection. *)
Lemma fresh_covers collection incoming s :
  In s incoming ->
  mergeKey s ∈ keySet
    (collection ++ List.filter
       (fun s => negb (bool_decide (mergeKey s ∈ keySet collection))) incoming).
Proof.
  intros Hs. apply keySet_app.
  destruct (decide (mergeKey s ∈ keySet collection)) as [H|H]; [left; exact H|].
  right. apply elem_of_keySet. exists s. split; [|reflexivity].
  apply filter_In. split; [exact Hs|].
  apply negb_true_iff, bool_decide_eq_false. exact H.
Qed.

(** X10. Confirming the same parsed shows a second time adds nothing: the
    collection, the persisted user shows and the ratings are as after the
    first confirmation. *)
Theorem confirmImport_idempotent (pendingCsvShows : list Show) (st : State) :
  confirmImport pendingCsvShows (confirmImport pendingCsvShows st)
  = confirmImport pendingCsvShows st.
Proof.
  unfold confirmImport. destruct pendingCsvShows as [|p pend]; [reflexivity|].
  set (pending := p :: pend).
  set (new1 := List.filter
                 (fun s => negb (bool_decide (mergeKey s ∈ keySet (allShows st)))) pending).
  simpl allShows. simpl userShows. simpl ratings.
  assert (List.filter
            (fun s => negb (bool_decide (mergeKey s ∈ keySet (allShows st ++ new1))))
            pending = []) as ->.
  { apply filter_all_false. intros s Hs. apply negb_false_iff, bool_decide_eq_true.
    apply fresh_covers. exact Hs. }
  rewrite app_nil_r. unfold appendUserShows, mergeInto. simpl. rewrite app_nil_r.
  reflexivity.
Qed.

(** X11. [loadAll] keeps the official list as it is at the head of the
    collection; what follows comes from the unofficial list and then from
    the stored user shows, in their order, and none of it has the merge key
    of an official show: on equal keys the official entry is the one kept. *)
Theorem loadAll_official_first (official : list Show) (unofficial : option (list Show))
    (stored : list Show) :
  exists fromUnofficial fromStored,
    loadAll official unofficial stored = official ++ fromUnofficial ++ fromStored
    /\ sublist fromUnofficial (default [] unofficial)
    /\ sublist fromStored stored
    /\ (forall s, In s (fromUnofficial ++ fromStored) -> mergeKey s ∉ keySet official)
    /\ (forall s, In s fromStored -> mergeKey s ∉ keySet fromUnofficial)
    /\ (forall s, In s (default [] unofficial) ->
          mergeKey s ∈ keySet (loadAll official unofficial stored))
    /\ (forall s, In s stored ->
          mergeKey s ∈ keySet (loadAll official unofficial stored)).
Proof.
  unfold loadAll, mergeInto.
  set (merged := match unofficial with
                 | Some u => official ++ List.filter
                     (fun s => negb (bool_decide (mergeKey s ∈ keySet official))) u
                 | None => official
                 end).
  set (fu := List.filter (fun s => negb (bool_decide (mergeKey s ∈ keySet official)))
                         (default [] unofficial)).
  assert (merged = official ++ fu) as Em.
  { unfold merged, fu. destruct unofficial; simpl; [reflexivity|].
    rewrite app_nil_r. reflexivity. }
  exists fu, (List.filter (fun s => negb (bool_decide (mergeKey s ∈ keySet merged))) stored).
  assert (F : forall (p : Show -> bool) l, sublist (List.filter p l) l).
  { intros p l. induction l as [|x l IH]; simpl; [constructor|].
    destruct (p x); [apply sublist_skip|apply sublist_cons]; exact IH. }
  split; [rewrite Em, <- app_assoc; reflexivity|].
  split; [apply F|]. split; [apply F|].
  split; [|split; [|split]].
  - intros s Hs Hk. apply in_app_or in Hs as [Hs|Hs];
      apply filter_In in Hs as [_ Hs]; apply negb_true_iff, bool_decide_eq_false in Hs.
    + contradiction.
    + apply Hs. rewrite Em. apply keySet_app. left. exact Hk.
  - intros s Hs Hk. apply filter_In in Hs as [_ Hs].
    apply negb_true_iff, bool_decide_eq_false in Hs.
    apply Hs. rewrite Em. apply keySet_app. right. exact Hk.
  - intros s Hs. apply keySet_app. left. rewrite Em.
    apply (fresh_covers official (default [] unofficial) s Hs).
  - intros s Hs. apply (fresh_covers merged stored s Hs).
Qed.

End StoreMore.

Section StoreRoundTrips.

Import Store.

Lemma filter_all_true {A} (p : A -> bool) (l : list A) :
  (forall x, In x l -> p x = true) -> List.filter p l = l.
Proof.
  induction l as [|x l IH]; simpl; intros H; [reflexivity|].
  rewrite (H x (or_introl eq_refl)). f_equal. apply IH. intros y Hy. apply H. right. exact Hy.
Qed.

Lemma sameShow_refl s : sameShow s s = true.
Proof.
  apply sameShow_naturalKey. reflexivity.
Qed.

Lemma delete_absent target l :
  (forall x, In x l -> naturalKey x <> naturalKey target) ->
  List.filter (fun s => negb (sameShow target s)) l = l.
Proof.
  intros H. apply filter_all_true. intros x Hx. apply negb_true_iff.
  destruct (sameShow target x) eqn:E; [|reflexivity].
  apply sameShow_naturalKey in E. exfalso. exact (H x Hx E).
Qed.

Lemma delete_copies target l :
  (forall x, In x l -> x = target) ->
  List.filter (fun s => negb (sameShow target s)) l = [].
Proof.
  intros H. apply filter_all_false. intros x Hx. rewrite (H x Hx), sameShow_refl.
  reflexivity.
Qed.

(** X12. Importing one show and deleting it again gives back the state
    before the import, when no show of the collection and no persisted show
    has the natural key of that show. *)
Theorem deleteShow_undoes_import (s : Show) (st : State) :
  (forall x, In x (allShows st) -> naturalKey x <> naturalKey s) ->
  (forall x, In x (userShows st) -> naturalKey x <> naturalKey s) ->
  deleteShow s (confirmImport [s] st) = st.
Proof.
  intros Ha Hu. unfold confirmImport, deleteShow, appendUserShows, mergeInto.
  cbv beta iota zeta. cbn [allShows userShows ratings].
  rewrite !List.filter_app, (delete_absent s _ Ha), (delete_absent s _ Hu).
  rewrite !delete_copies.
  - rewrite !app_nil_r. destruct st; reflexivity.
  - intros x Hx. apply filter_In in Hx as [Hx _]. apply filter_In in Hx as [Hx _].
    destruct Hx as [<-|[]]. reflexivity.
  - intros x Hx. apply filter_In in Hx as [Hx _]. destruct Hx as [<-|[]]. reflexivity.
Qed.

Lemma deleteShow_undoes_import_witness :
  deleteShow dupShow (confirmImport [dupShow] (mkState [otherShow] [] ∅))
  = mkState [otherShow] [] ∅.
Proof.
  apply (deleteShow_undoes_import dupShow (mkState [otherShow] [] ∅)).
  - simpl. intros x [<-|[]]. discriminate.
  - simpl. intros x [].
Defined.

(** X13. The persisted user shows never hold two entries with the same
    natural key, if they did not before: a deletion, an import confirmation
    of shows that are pairwise distinct in natural key, and a saved add-show
    form all keep the persisted list free of such pairs (while the add-show
    form pushes to the in-memory collection without any check). *)
Theorem persisted_shows_stay_distinct :
  (forall target st,
     List.NoDup (map naturalKey (userShows st)) ->
     List.NoDup (map naturalKey (userShows (deleteShow target st))))
  /\ (forall pendingCsvShows st,
        List.NoDup (map naturalKey (userShows st)) ->
        List.NoDup (map naturalKey pendingCsvShows) ->
        List.NoDup (map naturalKey (userShows (confirmImport pendingCsvShows st))))
  /\ (forall now f st st',
        List.NoDup (map naturalKey (userShows st)) ->
        AddShow.save now f st = Ok st' ->
        List.NoDup (map naturalKey (userShows st'))).
Proof.
  split; [|split].
  - intros target st N. unfold deleteShow. simpl. apply NoDup_map_filter. exact N.
  - intros pending st N Np. unfold confirmImport.
    destruct pending as [|p pend]; [exact N|].
    cbv beta iota zeta. cbn [userShows]. unfold appendUserShows.
    apply mergeInto_NoDup; [exact N|].
    exact (NoDup_map_filter naturalKey _ (p :: pend) Np).
  - intros now f st st' N. unfold AddShow.save.
    destruct (_ || _ || _ || _); [intros [= <-]; exact N|].
    destruct (Clock.parseUserTime (JS.trim (AddShow.f_start f))) as [startTime| |];
      simpl; try discriminate.
    destruct (negb (truthyStr startTime)); [intros [= <-]; exact N|].
    destruct (if String.eqb (JS.trim (AddShow.f_end f)) EmptyString then Ok None
              else Clock.parseUserTime (JS.trim (AddShow.f_end f))) as [endTime| |];
      simpl; try discriminate.
    intros [= <-]. simpl userShows. unfold appendUserShows.
    apply mergeInto_NoDup; [exact N|].
    simpl. constructor; [intros []|constructor].
Qed.

Lemma persisted_shows_stay_distinct_witness :
  List.NoDup (map naturalKey (userShows (confirmImport [dupShow; otherShow]
                                           (mkState [] [dupShow] ∅)))).
Proof.
  apply (proj1 (proj2 persisted_shows_stay_distinct) [dupShow; otherShow]
           (mkState [] [dupShow] ∅)).
  - simpl. constructor; [intros []|constructor].
  - simpl. constructor; [intros [H|[]]; discriminate|].
    constructor; [intros []|constructor].
Defined.

End StoreRoundTrips.

(** ** The add-show form *)

Section AddShowFacts.

Import Store AddShow.

Lemma timed_readable s t e :
  start_time s = Some t ->
  (exists h m, reads t h m) ->
  end_time s = e ->
  (forall x, e = Some x -> x <> EmptyString -> exists h m, reads x h m) ->
  readable s.
Proof.
  intros Hs (h & m & R) He Hx. unfold readable, timed. rewrite Hs.
  rewrite (minutesFromDayStart_reads _ _ _ R). simpl. rewrite He.
  destruct e as [x|]; simpl; [|eauto].
  destruct (String.eqb_spec x EmptyString) as [->|Nx]; simpl; [eauto|].
  destruct (Hx x eq_refl Nx) as (h' & m' & R').
  rewrite (minutesFromDayStart_reads _ _ _ R'). simpl. eauto.
Qed.

Lemma parseUserTime_blank : Clock.parseUserTime EmptyString = Ok None.
Proof. reflexivity. Qed.

(** X14. Saving the add-show form never fails and never touches the
    ratings.  The form is rejected, with the state unchanged, when the
    artist, the venue, the day or the start time is blank or the start time
    is not understood.  In every other case, that is when artist, venue and
    day are not blank and the start time is understood, exactly one show is
    pushed at the end of the collection and handed to [appendUserShows]: it
    has the id [manual_<now>], the trimmed artist and venue, the day of the
    form, the parsed start time, and times that [minutesFromDayStart]
    reads, so that the timeline can place it. *)
Theorem addShow_save (now : nat) (f : Form) (st : State) :
  exists st',
    save now f st = Ok st'
    /\ ratings st' = ratings st
    /\ (JS.trim (f_artist f) = EmptyString \/ JS.trim (f_venue f) = EmptyString
        \/ f_day f = EmptyString
        \/ Clock.parseUserTime (JS.trim (f_start f)) = Ok None -> st' = st)
    /\ (JS.trim (f_artist f) <> EmptyString -> JS.trim (f_venue f) <> EmptyString ->
        f_day f <> EmptyString ->
        forall t, Clock.parseUserTime (JS.trim (f_start f)) = Ok (Some t) ->
        exists show,
          allShows st' = allShows st ++ [show]
          /\ userShows st' = appendUserShows [show] (userShows st)
          /\ readable show
          /\ id show = ("manual_" +:+ JS.toString now)%string
          /\ start_time show = Some t
          /\ artist_name show = JS.trim (f_artist f)
          /\ venue show = JS.trim (f_venue f)
          /\ day show = f_day f
          /\ no_set_time show = f_noSetTime f
          /\ source show = f_source f).
Proof.
  unfold save.
  destruct (String.eqb_spec (JS.trim (f_artist f)) EmptyString) as [Ea|Na];
    [exists st; simpl; repeat split; auto; intros; contradiction|].
  destruct (String.eqb_spec (JS.trim (f_venue f)) EmptyString) as [Ev|Nv];
    [exists st; simpl; repeat split; auto; intros; contradiction|].
  destruct (String.eqb_spec (f_day f) EmptyString) as [Ed|Nd];
    [exists st; simpl; repeat split; auto; intros; contradiction|].
  destruct (String.eqb_spec (JS.trim (f_start f)) EmptyString) as [Es|Ns].
  { exists st. simpl. repeat split; auto.
    intros _ _ _ t Ht. rewrite Es, parseUserTime_blank in Ht. discriminate. }
  simpl.
  destruct (parseUserTime_reads (JS.trim (f_start f))) as (startTime & -> & Rs).
  simpl. destruct startTime as [t|]; simpl.
  2: { exists st. repeat split; auto. intros _ _ _ t Ht. discriminate. }
  destruct (String.eqb_spec t EmptyString) as [Et|Nt]; simpl.
  { exfalso. destruct (Rs t eq_refl) as (h & m & o & (hs & ms & E & _) & _).
    subst t. destruct hs; discriminate. }
  assert (exists endTime,
            (if String.eqb (JS.trim (f_end f)) EmptyString then Ok None
             else Clock.parseUserTime (JS.trim (f_end f))) = Ok endTime
            /\ forall x, endTime = Some x -> exists h m, reads x h m)
    as (endTime & -> & Re).
  { destruct (String.eqb (JS.trim (f_end f)) EmptyString).
    - exists None. split; [reflexivity|discriminate].
    - destruct (parseUserTime_reads (JS.trim (f_end f))) as (r & -> & Rr).
      exists r. split; [reflexivity|].
      intros x Hx. destruct (Rr x Hx) as (h & m & _ & R & _). eauto. }
  simpl. eexists. split; [reflexivity|]. split; [reflexivity|]. split.
  - intros [H|[H|[H|H]]]; try contradiction. discriminate.
  - intros _ _ _ t' [= <-].
    eexists. split; [reflexivity|]. split; [reflexivity|]. split.
    + eapply timed_readable; simpl; [reflexivity| |reflexivity|].
      * destruct (Rs t eq_refl) as (h & m & _ & R & _). eauto.
      * intros x Hx _. apply Re. exact Hx.
    + simpl. repeat split; reflexivity.
Qed.

Lemma addShow_save_witness :
  exists st' show,
    save 7 (mkForm " Band Q " "Venue A" "2026-03-12" "9:30 PM" "" "" "user" false)
         (mkState [otherShow] [] ∅) = Ok st'
    /\ allShows st' = [otherShow; show]
    /\ artist_name show = "Band Q"%string
    /\ start_time show = Some "21:30"%string.
Proof.
  destruct (addShow_save 7
              (mkForm " Band Q " "Venue A" "2026-03-12" "9:30 PM" "" "" "user" false)
              (mkState [otherShow] [] ∅)) as (st' & E & _ & _ & A).
  destruct (A ltac:(vm_compute; discriminate) ltac:(vm_compute; discriminate)
              ltac:(vm_compute; discriminate) "21:30"%string ltac:(vm_compute; reflexivity))
    as (show & Ha & _ & _ & _ & Hs & Hn & _).
  exists st', show. split; [exact E|]. split; [exact Ha|]. split; [exact Hn|exact Hs].
Defined.

End AddShowFacts.

(** ** Column layout, continued *)

Section LayoutMore.

Import Layout.

Lemma freeCol_least used k : (k < freeCol used)%nat -> In k used.
Proof.
  unfold freeCol. intros H. apply (freeFrom_least (S (length used)) used 0 k). lia.
Qed.

(** Every column below the one an entry gets is held, when the entry
    starts, by an entry of [active] or by an entry placed before it. *)
Lemma assign_first_fit l :
  StronglySorted startsLe l ->
  forall active p k,
    In p (assign active l) -> (k < col p)%nat ->
    (exists a, In a active /\ a_col a = k /\ a_endMin a > startMin (p_show p))
    \/ (exists q, In q (assign active l) /\ col q = k
                  /\ startMin (p_show q) <= startMin (p_show p) < endMin (p_show q)).
Proof.
  induction 1 as [|s l Hs IH Hle]; simpl; intros active p k Hp Hk; [contradiction|].
  set (still := List.filter (fun a => a_endMin a >? startMin s) active) in *.
  set (c := freeCol (map a_col still)) in *.
  destruct Hp as [<-|Hp].
  - simpl in *. left. apply freeCol_least in Hk.
    apply in_map_iff in Hk as (a & Ea & Ha). apply filter_In in Ha as [Ha He].
    exists a. split; [exact Ha|]. split; [exact Ea|]. apply Z.gtb_lt in He. lia.
  - destruct (IH _ p k Hp Hk) as [(a & Ha & Ea & He)|(q & Hq & Eq & Hq2)].
    + apply in_app_or in Ha as [Ha|[<-|[]]].
      * left. apply filter_In in Ha as [Ha _]. exists a. auto.
      * right. exists (mkPlaced s c 1). simpl in *. split; [left; reflexivity|].
        split; [exact Ea|].
        assert (In (p_show p) l) as Hin.
        { rewrite <- (assign_shows (still ++ [mkActive (endMin s) c]) l).
          apply in_map. exact Hp. }
        rewrite List.Forall_forall in Hle. specialize (Hle _ Hin).
        unfold startsLe in Hle. lia.
    + right. exists q. split; [right; exact Hq|]. auto.
Qed.

Lemma layoutTimed_first_fit ts p k :
  In p (layoutTimed ts) -> (k < col p)%nat ->
  exists q, In q (layoutTimed ts) /\ col q = k
            /\ startMin (p_show q) <= startMin (p_show p) < endMin (p_show q).
Proof.
  unfold layoutTimed. intros Hp Hk.
  apply secondPass_In in Hp as (p0 & Hp0 & Sp & Cp & _). rewrite Cp in Hk.
  destruct (assign_first_fit (sort ts) (sort_sorted ts) [] p0 k Hp0 Hk)
    as [(a & [] & _)|(q0 & Hq0 & Eq & Hq)].
  destruct (In_secondPass _ q0 Hq0) as (q & Hq' & Sq & Cq).
  exists q. rewrite Sp, Sq, Cq. auto.
Qed.

Lemma layoutTimed_length ts : length (layoutTimed ts) = length ts.
Proof.
  unfold layoutTimed, secondPass. rewrite length_map.
  rewrite <- (length_map p_show), assign_shows.
  apply Permutation_length, sort_perm.
Qed.

Lemma layoutTimed_col_bound ts p :
  In p (layoutTimed ts) -> (col p < length ts)%nat.
Proof.
  intros Hp.
  assert (incl (seq 0 (S (col p))) (map col (layoutTimed ts))) as I.
  { intros k Hk. apply in_seq in Hk.
    destruct (Nat.eq_dec k (col p)) as [->|Hne].
    - apply in_map. exact Hp.
    - destruct (layoutTimed_first_fit ts p k Hp ltac:(lia)) as (q & Hq & <- & _).
      apply in_map. exact Hq. }
  pose proof (NoDup_incl_length (seq_NoDup (S (col p)) 0) I) as L.
  rewrite length_seq, length_map, layoutTimed_length in L. lia.
Qed.

Lemma layoutTimed_sorted ts :
  StronglySorted startsLe (map p_show (layoutTimed ts)).
Proof.
  unfold layoutTimed. rewrite secondPass_shows, assign_shows. apply sort_sorted.
Qed.

End LayoutMore.

Section LayoutMoreClaims.

Import Layout.

(** X15. For shows that have a start time, [layoutColumns] returns one
    entry per show, in ascending order of start offset; every column is
    below the number of shows, and every [totalCols] is above the entry's
    column and at most the number of shows. *)
Theorem layoutColumns_shape (shows : list Show) :
  Forall readable shows ->
  exists res,
    layoutColumns shows = Ok res
    /\ length res = length shows
    /\ StronglySorted (fun a b => startMin a <= startMin b) (map p_show res)
    /\ forall p, In p res ->
         (col p < totalCols p)%nat /\ (totalCols p <= length shows)%nat.
Proof.
  intros H. destruct (layoutColumns_Ok shows H) as (ts & _ & E & Hs & _).
  exists (layoutTimed ts). split; [exact E|].
  assert (length ts = length shows) as L by (rewrite <- Hs; symmetry; apply length_map).
  split; [rewrite layoutTimed_length; exact L|]. split; [apply layoutTimed_sorted|].
  intros p Hp.
  destruct (layoutTimed_totalCols ts p Hp) as (m & -> & Hm & _ & [->|(q & Hq & _ & <-)]).
  - pose proof (layoutTimed_col_bound ts p Hp). lia.
  - pose proof (layoutTimed_col_bound ts q Hq). lia.
Qed.

Lemma layoutColumns_shape_witness :
  exists res,
    layoutColumns threeShows = Ok res
    /\ length res = length threeShows
    /\ StronglySorted (fun a b => startMin a <= startMin b) (map p_show res)
    /\ forall p, In p res ->
         (col p < totalCols p)%nat /\ (totalCols p <= length threeShows)%nat.
Proof.
  apply (layoutColumns_shape threeShows).
  repeat constructor; eexists; vm_compute; reflexivity.
Defined.

(** X16. First fit: when an entry has column [c], each column below [c] is
    that of another entry which has started and has not ended at the
    entry's start.  So an entry in column [c] starts while at least [c]
    other shows are running: the layout uses no more columns than the
    largest number of shows running at once. *)
Theorem layoutColumns_first_fit (shows : list Show) :
  Forall readable shows ->
  exists res,
    layoutColumns shows = Ok res
    /\ forall p k, In p res -> (k < col p)%nat ->
         exists q, In q res /\ col q = k
                   /\ startMin (p_show q) <= startMin (p_show p) < endMin (p_show q).
Proof.
  intros H. destruct (layoutColumns_Ok shows H) as (ts & _ & E & _ & _).
  exists (layoutTimed ts). split; [exact E|].
  intros p k. apply layoutTimed_first_fit.
Qed.

Lemma layoutColumns_first_fit_witness :
  exists res,
    layoutColumns threeShows = Ok res
    /\ forall p k, In p res -> (k < col p)%nat ->
         exists q, In q res /\ col q = k
                   /\ startMin (p_show q) <= startMin (p_show p) < endMin (p_show q).
Proof.
  apply (layoutColumns_first_fit threeShows).
  repeat constructor; eexists; vm_compute; reflexivity.
Defined.

(** X17. A show that ends after it starts and overlaps no other show of
    the list is drawn at full width: its column is 0 and its [totalCols]
    is 1. *)
Theorem layoutColumns_lone_show (shows : list Show) :
  Forall readable shows ->
  exists res,
    layoutColumns shows = Ok res
    /\ forall i p,
         res !! i = Some p ->
         startMin (p_show p) < endMin (p_show p) ->
         (forall j q, j <> i -> res !! j = Some q ->
                      overlapb (p_show p) (p_show q) = false) ->
         col p = 0%nat /\ totalCols p = 1%nat.
Proof.
  intros H. destruct (layoutColumns_Ok shows H) as (ts & _ & E & _ & _).
  exists (layoutTimed ts). split; [exact E|].
  intros i p Hi Hlen Hlone.
  assert (In p (layoutTimed ts)) as Hp.
  { apply list_elem_of_In. eapply list_elem_of_lookup_2. exact Hi. }
  assert (forall q, In q (layoutTimed ts) ->
                    overlapb (p_show p) (p_show q) = true -> col q = col p) as Same.
  { intros q Hq Hov. apply list_elem_of_In, list_elem_of_lookup in Hq as [j Hj].
    destruct (Nat.eq_dec j i) as [->|Hne].
    - rewrite Hi in Hj. injection Hj as <-. reflexivity.
    - rewrite (Hlone j q Hne Hj) in Hov. discriminate. }
  assert (col p = 0%nat) as C0.
  { destruct (col p) as [|c] eqn:Ec; [reflexivity|]. exfalso.
    destruct (layoutTimed_first_fit ts p 0%nat Hp ltac:(lia)) as (q & Hq & Cq & Hq2).
    assert (overlapb (p_show p) (p_show q) = true) as Hov.
    { apply overlapb_true. lia. }
    pose proof (Same q Hq Hov). lia. }
  split; [exact C0|].
  destruct (layoutTimed_totalCols ts p Hp) as (m & -> & _ & _ & [->|(q & Hq & Hov & <-)]).
  - rewrite C0. reflexivity.
  - rewrite (Same q Hq Hov), C0. reflexivity.
Qed.

Lemma layoutColumns_lone_show_witness :
  exists res,
    layoutColumns [dupShow] = Ok res
    /\ forall i p,
         res !! i = Some p ->
         startMin (p_show p) < endMin (p_show p) ->
         (forall j q, j <> i -> res !! j = Some q ->
                      overlapb (p_show p) (p_show q) = false) ->
         col p = 0%nat /\ totalCols p = 1%nat.
Proof.
  apply (layoutColumns_lone_show [dupShow]).
  repeat constructor; eexists; vm_compute; reflexivity.
Defined.

End LayoutMoreClaims.

(** ** The schedule importer, continued *)

Section ImporterShape.

Import Importer.

Lemma pad2_two_digits n :
  (n < 100)%nat ->
  JS.allChars JS.isDigit (JS.padStart0 2 (JS.toString n)) = true
  /\ String.length (JS.padStart0 2 (JS.toString n)) = 2%nat.
Proof.
  intros H.
  assert (forallb (fun k => JS.allChars JS.isDigit (JS.padStart0 2 (JS.toString k))
                            && (String.length (JS.padStart0 2 (JS.toString k)) =? 2)%nat)
                  (seq 0 100) = true) as A by (vm_compute; reflexivity).
  pose proof (forallb_below _ _ A n H) as B. cbv beta in B.
  apply andb_true_iff in B as [B1 B2]. apply Nat.eqb_eq in B2. auto.
Qed.

(** The time of a slot reads as an hour and a minute. *)
Lemma slot_reads total :
  exists h m,
    reads (hhmm (Z.to_nat ((total / 60) mod 24))
                (JS.padStart0 2 (JS.toString (Z.to_nat (total mod 60))))) h m.
Proof.
  assert (0 <= (total / 60) mod 24 < 24) by (apply Z.mod_pos_bound; lia).
  assert (0 <= total mod 60 < 60) by (apply Z.mod_pos_bound; lia).
  destruct (pad2_two_digits (Z.to_nat (total mod 60)) ltac:(lia)) as [D L].
  apply hhmm_reads; [lia|exact D|exact L].
Qed.

(** The two halves of a padded override are two digits each. *)
Lemma override_parts g1 :
  JS.allChars JS.isDigit g1 = true -> (3 <= String.length g1 <= 4)%nat ->
  JS.allChars JS.isDigit (JS.take 2 (JS.padStart0 4 g1)) = true
  /\ String.length (JS.take 2 (JS.padStart0 4 g1)) = 2%nat
  /\ JS.allChars JS.isDigit (JS.drop 2 (JS.padStart0 4 g1)) = true
  /\ String.length (JS.drop 2 (JS.padStart0 4 g1)) = 2%nat.
Proof.
  intros H L.
  destruct g1 as [|a [|b [|c [|d [|e r]]]]]; simpl in L; try lia; simpl in H.
  - apply andb_true_iff in H as [Ha H]. apply andb_true_iff in H as [Hb H].
    apply andb_true_iff in H as [Hc _].
    simpl. rewrite Ha, Hb, Hc. auto.
  - apply andb_true_iff in H as [Ha H]. apply andb_true_iff in H as [Hb H].
    apply andb_true_iff in H as [Hc H]. apply andb_true_iff in H as [Hd _].
    simpl. rewrite Ha, Hb, Hc, Hd. auto.
Qed.

Lemma imported_snoc clock day venues l a v t :
  imported clock day venues l ->
  a <> EmptyString -> v <> EmptyString -> In v venues -> (exists h m, reads t h m) ->
  imported clock day venues (l ++ [csvShow (clock (length l)) (length l) a v day t]).
Proof.
  intros Hl Ha Hv Hin Ht k e Hk.
  apply lookup_app_Some in Hk as [Hk|[Hge Hk]].
  - apply Hl. exact Hk.
  - destruct (k - length l)%nat as [|n] eqn:Ek; simpl in Hk; [|discriminate].
    injection Hk as <-. assert (k = length l) as -> by lia.
    exists a, v, t. auto.
Qed.

Lemma emitCell_imported clock day venues slot rawCell venueOpt l :
  imported clock day venues l ->
  (exists h m, reads slot h m) ->
  (forall v, venueOpt = Some v -> In v venues) ->
  exists l', emitCell clock day slot rawCell venueOpt l = Ok l'
             /\ imported clock day venues l'.
Proof.
  intros Hl Hslot Hven. unfold emitCell.
  destruct (String.eqb (JS.trim rawCell) EmptyString) eqn:Ec; [eauto|].
  destruct (negb (truthyStr venueOpt)) eqn:Tv; [eauto|].
  assert (exists v, venueOpt = Some v /\ v <> EmptyString) as (v & Ev & Nv).
  { destruct venueOpt as [v|]; [|discriminate]. exists v. split; [reflexivity|].
    simpl in Tv. intros ->. discriminate. }
  destruct (_ || _ || _ || _); [eauto|].
  assert (exists artistName startTime,
    (match timeOverride (JS.trim rawCell) with
     | Some (g1, before) =>
         do h <- ofOption (JS.parseInt (JS.take 2 (JS.padStart0 4 g1)));
         Ok (JS.trim before,
             hhmm (if (h <? 9)%nat then (h + 12)%nat else h) (JS.drop 2 (JS.padStart0 4 g1)))
     | None => Ok (JS.trim rawCell, slot)
     end) = Ok (artistName, startTime)
    /\ exists h m, reads startTime h m) as (artistName & startTime & -> & Rt).
  { destruct (timeOverride (JS.trim rawCell)) as [[g1 before]|] eqn:T; [|eauto].
    destruct (timeOverride_group _ _ _ T) as [D L].
    destruct (override_parts g1 D L) as (D1 & L1 & D2 & L2).
    destruct (parseInt_two_digits _ D1 ltac:(lia)) as (h & -> & Hh). simpl.
    eexists _, _. split; [reflexivity|].
    apply hhmm_reads; [destruct (h <? 9)%nat; lia|exact D2|exact L2]. }
  simpl. destruct (String.eqb_spec artistName EmptyString) as [Ea|Na]; [eauto|].
  eexists. split; [reflexivity|].
  rewrite Ev. simpl. apply imported_snoc; auto.
Qed.

Lemma emitRow_imported clock day venues slot row l :
  imported clock day venues l ->
  (exists h m, reads slot h m) ->
  exists l', emitRow clock day slot venues row l = Ok l'
             /\ imported clock day venues l'.
Proof.
  intros Hl Hslot. unfold emitRow. generalize (seq 1 (length row - 1)). intros cs.
  revert l Hl. induction cs as [|c cs IH]; simpl; intros l Hl; [eauto|].
  destruct (emitCell_imported clock day venues slot (nth c row EmptyString)
              (venues !! (c - 1)%nat) l Hl Hslot) as (l1 & -> & Hl1).
  - intros v Hv. apply list_elem_of_In. eapply list_elem_of_lookup_2. exact Hv.
  - apply IH. exact Hl1.
Qed.

Lemma scanRow_imported clock day venues st row :
  scanInv2 clock day venues st ->
  exists st', scanRow clock day venues st row = Ok st' /\ scanInv2 clock day venues st'.
Proof.
  intros [Hb Hs]. unfold scanRow.
  destruct (forallb _ row); [exists st; split; [reflexivity|split; assumption]|].
  destruct (hourMatch (JS.trim (nth 0 row EmptyString))) as [[[g1 g2] g3]|] eqn:HM.
  - destruct (hourMatch_groups _ _ _ _ HM) as (D1 & L1 & D2 & L2).
    destruct (parseInt_two_digits g1 D1 L1) as (h0 & -> & B0). simpl.
    eexists. split; [reflexivity|]. split; [|exact Hs]. simpl.
    apply hhmm_reads; [|exact D2|exact L2].
    destruct (String.eqb (JS.toUpperCase g3) "AM" && _); [lia|].
    destruct (String.eqb (JS.toUpperCase g3) "PM" && _); lia.
  - destruct (negb _ && navHint _); [eexists; split; [reflexivity|split; assumption]|].
    destruct (currentBaseTime st) as [t|] eqn:Ecbt; simpl;
      [|eexists; split; [reflexivity|split; simpl; [exact I|exact Hs]]].
    destruct (negb (negb (String.eqb t EmptyString)));
      [eexists; split; [reflexivity|split; simpl; [exact Hb|exact Hs]]|].
    destruct Hb as (h & m & R). rewrite (reads_split _ _ _ R).
    match goal with
    | |- context [emitRow clock day ?slot venues row (shows st)] =>
        destruct (emitRow_imported clock day venues slot row (shows st) Hs)
          as (l' & -> & Hl')
    end.
    { apply slot_reads. }
    simpl. eexists. split; [reflexivity|]. split; simpl; [|exact Hl'].
    exists h, m. exact R.
Qed.

Lemma scanRows_imported clock day venues rows st :
  scanInv2 clock day venues st ->
  exists st', scanRows clock day venues rows st = Ok st' /\ scanInv2 clock day venues st'.
Proof.
  unfold scanRows. revert st. induction rows as [|row rows IH]; simpl; intros st Hst.
  - eauto.
  - destruct (scanRow_imported clock day venues st row Hst) as (st1 & -> & H1).
    apply IH. exact H1.
Qed.

Lemma parseScheduleCsv_imported clock csvText day :
  exists l, parseScheduleCsv clock csvText day = Ok l
            /\ imported clock day (venuesOf (hd [] (parseRows csvText))) l.
Proof.
  unfold parseScheduleCsv. destruct (parseRows csvText) as [|header body].
  - exists []. split; [reflexivity|]. intros k e Hk. discriminate.
  - destruct (scanRows_imported clock day (venuesOf header) body (mkScan None 0 []))
      as (st' & -> & _ & Hs).
    + split; [exact I|]. intros k e Hk. discriminate.
    + simpl. eauto.
Qed.

Lemma csvShow_readable now k a v day t :
  (exists h m, reads t h m) -> readable (csvShow now k a v day t).
Proof.
  intros R. eapply timed_readable; simpl; [reflexivity|exact R|reflexivity|discriminate].
Qed.

End ImporterShape.

Section ImporterShapeClaims.

Import Importer.

(** X18. Every show the importer returns is the object pushed for a cell:
    it carries the target day, no end time, a non-empty artist name, a
    non-empty venue taken from the header row, and a start time that
    [minutesFromDayStart] reads; the show of index [k] has the id
    [csv_<time>_<k>]. *)
Theorem parseScheduleCsv_shows_shape (clock : nat -> nat) (csvText targetDay : string) :
  exists l,
    parseScheduleCsv clock csvText targetDay = Ok l
    /\ forall k e, l !! k = Some e ->
         id e = ("csv_" +:+ JS.toString (clock k) +:+ "_" +:+ JS.toString k)%string
         /\ day e = targetDay /\ end_time e = None /\ no_set_time e = false
         /\ artist_name e <> EmptyString /\ venue e <> EmptyString
         /\ In (venue e) (venuesOf (hd [] (parseRows csvText)))
         /\ readable e.
Proof.
  destruct (parseScheduleCsv_imported clock csvText targetDay) as (l & E & Hl).
  exists l. split; [exact E|].
  intros k e Hk. destruct (Hl k e Hk) as (a & v & t & -> & Ha & Hv & Hin & Rt).
  simpl. repeat split; auto. apply csvShow_readable. exact Rt.
Qed.

Lemma parseScheduleCsv_shows_shape_witness :
  exists l,
    parseScheduleCsv (fun _ => 0%nat) exampleGrid "2026-03-10" = Ok l
    /\ forall k e, l !! k = Some e ->
         id e = ("csv_" +:+ JS.toString 0 +:+ "_" +:+ JS.toString k)%string
         /\ day e = "2026-03-10"%string /\ end_time e = None
         /\ no_set_time e = false
         /\ artist_name e <> EmptyString /\ venue e <> EmptyString
         /\ In (venue e) (venuesOf (hd [] (parseRows exampleGrid)))
         /\ readable e.
Proof.
  apply (parseScheduleCsv_shows_shape (fun _ => 0%nat) exampleGrid "2026-03-10").
Defined.

Lemma digits_then_underscore a a' b b' :
  JS.allChars JS.isDigit a = true -> JS.allChars JS.isDigit a' = true ->
  a +:+ String "_" b = a' +:+ String "_" b' -> b = b'.
Proof.
  revert a'. induction a as [|c a IH]; intros [|c' a'] Ha Ha'; simpl; intros E.
  - injection E as ->. reflexivity.
  - injection E as <- _. simpl in Ha'. discriminate.
  - injection E as -> _. simpl in Ha. discriminate.
  - injection E as _ E. simpl in Ha, Ha'.
    apply andb_true_iff in Ha as [_ Ha]. apply andb_true_iff in Ha' as [_ Ha'].
    exact (IH a' Ha Ha' E).
Qed.

(** X19. The ids of the shows of one import are pairwise distinct,
    whatever [Date.now()] returned at each push. *)
Theorem parseScheduleCsv_ids_distinct (clock : nat -> nat) (csvText day : string) :
  exists l, parseScheduleCsv clock csvText day = Ok l /\ List.NoDup (map id l).
Proof.
  destruct (parseScheduleCsv_imported clock csvText day) as (l & E & Hl).
  exists l. split; [exact E|].
  apply NoDup_ListNoDup, NoDup_alt. intros i j x Hi Hj.
  rewrite list_lookup_fmap in Hi, Hj.
  destruct (l !! i) as [ei|] eqn:Ei; [|discriminate].
  destruct (l !! j) as [ej|] eqn:Ej; [|discriminate].
  simpl in Hi, Hj. injection Hi as Hi. injection Hj as Hj.
  assert (Ii : id ei = ("csv_" +:+ JS.toString (clock i) +:+ "_" +:+ JS.toString i)%string)
    by (destruct (Hl i ei Ei) as (a & v & t & -> & _); reflexivity).
  assert (Ij : id ej = ("csv_" +:+ JS.toString (clock j) +:+ "_" +:+ JS.toString j)%string)
    by (destruct (Hl j ej Ej) as (a & v & t & -> & _); reflexivity).
  rewrite Ii in Hi. rewrite Ij in Hj. rewrite <- Hj in Hi. simpl in Hi.
  injection Hi as Hi.
  apply toString_inj.
  exact (digits_then_underscore _ _ _ _ (toString_digits _) (toString_digits _) Hi).
Qed.

(** X20. What the importer returns can always be laid out: every imported
    show is a timeline show, and [layoutColumns] returns an entry for each
    of them. *)
Theorem parseScheduleCsv_then_layout (clock : nat -> nat) (csvText day : string) :
  exists l res,
    parseScheduleCsv clock csvText day = Ok l
    /\ Timeline.timelineShows l = l
    /\ Layout.layoutColumns l = Ok res
    /\ length res = length l.
Proof.
  destruct (parseScheduleCsv_imported clock csvText day) as (l & E & Hl).
  assert (Forall readable l) as Hr.
  { apply List.Forall_forall. intros e He.
    apply list_elem_of_In, list_elem_of_lookup in He as [k Hk].
    destruct (Hl k e Hk) as (a & v & t & -> & _ & _ & _ & Rt).
    apply csvShow_readable. exact Rt. }
  destruct (layoutColumns_Ok l Hr) as (ts & _ & Er & Hs & _).
  exists l, (Layout.layoutTimed ts). split; [exact E|]. split; [|split; [exact Er|]].
  - unfold Timeline.timelineShows. apply filter_all_true.
    intros e He. apply list_elem_of_In, list_elem_of_lookup in He as [k Hk].
    destruct (Hl k e Hk) as (a & v & t & -> & _ & _ & _ & (h & m & (hs & ms & -> & _))).
    simpl. destruct hs; reflexivity.
  - rewrite layoutTimed_length, <- Hs. symmetry. apply length_map.
Qed.

End ImporterShapeClaims.

(** ** Conflict detection, continued *)

Section ConflictMore.

Import Timeline.

(** X21. Whatever the identity strings of the shows: two rated timeline
    shows, at different positions of the list, whose offset ranges overlap
    are both flagged; and a show is flagged only if its identity string
    [artist_name + venue + start_time] is that of a rated timeline show
    which overlaps another rated timeline show.  In particular nothing is
    flagged when no two rated shows overlap. *)
Theorem conflicting_pairs
    (ratings : gmap string Z) (eidMap : gmap string nat) (today : list Show) :
  Forall readable (timelineShows today) ->
  exists set,
    conflicting ratings eidMap today = Ok set
    /\ (forall i j a b,
          i <> j ->
          List.filter (rated ratings eidMap) (timelineShows today) !! i = Some a ->
          List.filter (rated ratings eidMap) (timelineShows today) !! j = Some b ->
          overlaps a b ->
          isConflict set a = true /\ isConflict set b = true)
    /\ (forall s,
          isConflict set s = true ->
          exists i j a b,
            i <> j
            /\ List.filter (rated ratings eidMap) (timelineShows today) !! i = Some a
            /\ List.filter (rated ratings eidMap) (timelineShows today) !! j = Some b
            /\ overlaps a b /\ conflictKey s = conflictKey a).
Proof.
  set (shows := timelineShows today). intros Hread.
  set (rs := List.filter (rated ratings eidMap) shows).
  assert (Forall readable rs) as Hrs.
  { apply List.Forall_forall. intros x Hx. apply filter_In in Hx as [Hx _].
    rewrite List.Forall_forall in Hread. apply Hread. exact Hx. }
  destruct (omapM_Ok timed rs Hrs) as (ts & E & F).
  exists (conflictLoop ts ∅). split.
  { unfold conflicting. fold shows. fold rs. rewrite E. reflexivity. }
  split.
  - intros i j a b Hij Hi Hj (ta & tb & Ha & Hb & Hov).
    destruct (rated_lookup _ _ _ _ _ _ F Hi) as (_ & _ & a' & Hta & Ea & Sa).
    destruct (rated_lookup _ _ _ _ _ _ F Hj) as (_ & _ & b' & Htb & Eb & Sb).
    assert (a' = ta) as -> by congruence. assert (b' = tb) as -> by congruence.
    unfold isConflict. rewrite !bool_decide_eq_true, !conflictLoop_elem.
    destruct (Nat.lt_total i j) as [L|[L|L]]; [|contradiction|].
    + split; right; exists i, j, ta, tb; rewrite Sa, Sb; repeat split; auto.
    + split; right; exists j, i, tb, ta; rewrite Sa, Sb, overlapb_sym;
        repeat split; auto.
  - intros s Hs. unfold isConflict in Hs.
    rewrite bool_decide_eq_true, conflictLoop_elem in Hs.
    destruct Hs as [H|(i & j & ta & tb & Hij & Hi & Hj & Hov & Hk)].
    { apply not_elem_of_empty in H. contradiction. }
    destruct (Forall2_lookup_r _ _ _ _ _ F Hi) as (x & Hx & Hxa).
    destruct (Forall2_lookup_r _ _ _ _ _ F Hj) as (y & Hy & Hyb).
    rewrite (timed_show _ _ Hxa), (timed_show _ _ Hyb) in Hk.
    destruct Hk as [Hk|Hk].
    + exists i, j, x, y. repeat split; auto; [lia|]. exists ta, tb. auto.
    + exists j, i, y, x. repeat split; auto; [lia|].
      exists tb, ta. rewrite overlapb_sym. auto.
Qed.

Lemma conflicting_pairs_witness :
  exists set,
    conflicting cxRatings ∅ cxToday = Ok set
    /\ (forall i j a b,
          i <> j ->
          List.filter (rated cxRatings ∅) (timelineShows cxToday) !! i = Some a ->
          List.filter (rated cxRatings ∅) (timelineShows cxToday) !! j = Some b ->
          overlaps a b ->
          isConflict set a = true /\ isConflict set b = true)
    /\ (forall s,
          isConflict set s = true ->
          exists i j a b,
            i <> j
            /\ List.filter (rated cxRatings ∅) (timelineShows cxToday) !! i = Some a
            /\ List.filter (rated cxRatings ∅) (timelineShows cxToday) !! j = Some b
            /\ overlaps a b /\ conflictKey s = conflictKey a).
Proof.
  apply (conflicting_pairs cxRatings ∅ cxToday).
  repeat constructor; eexists; vm_compute; reflexivity.
Defined.

End ConflictMore.

(** ** Rating-key migration, continued *)

Section MigrationMore.

Import Identity.

Lemma migrateOne_other ratings b k :
  (forall n, a_entity_id b = Some (S n) -> k <> eidKey (S n) /\ k <> nameKey (name b)) ->
  migrateOne ratings b !! k = ratings !! k.
Proof.
  intros H. destruct (fires ratings b) eqn:Hb.
  2: { rewrite (migrateOne_idle _ _ Hb). reflexivity. }
  destruct (migrateOne_fired _ _ Hb) as (n & v & Hid & _ & _ & ->).
  destruct (H n Hid) as [H1 H2].
  rewrite lookup_delete_ne by congruence. rewrite lookup_insert_ne by congruence.
  reflexivity.
Qed.

Lemma migrateOne_keeps_eid ratings b n :
  truthyRating (ratings !! eidKey n) = true ->
  migrateOne ratings b !! eidKey n = ratings !! eidKey n.
Proof.
  intros T. destruct (fires ratings b) eqn:Hb.
  2: { rewrite (migrateOne_idle _ _ Hb). reflexivity. }
  destruct (migrateOne_fired _ _ Hb) as (m & v & Hid & _ & _ & ->).
  rewrite lookup_delete_ne.
  2: { intros H. exact (eidKey_nameKey_differ _ _ (eq_sym H)). }
  destruct (decide (eidKey (S m) = eidKey n)) as [E|NE].
  - exfalso. unfold fires in Hb. rewrite Hid, E, T in Hb. discriminate.
  - rewrite lookup_insert_ne by exact NE. reflexivity.
Qed.

(** X22. The migration changes nothing but the keys of the artists that
    have an entity id: a key that is neither the [eid_] key nor the [name_]
    key of such an artist keeps its entry, and a rating already stored
    under an [eid_] key is never overwritten. *)
Theorem migrate_frame (allArtists : list Artist) (ratings : gmap string Z) :
  (forall k,
     (forall b n, In b allArtists -> a_entity_id b = Some (S n) ->
                  k <> eidKey (S n) /\ k <> nameKey (name b)) ->
     migrate allArtists ratings !! k = ratings !! k)
  /\ (forall n, truthyRating (ratings !! eidKey n) = true ->
                migrate allArtists ratings !! eidKey n = ratings !! eidKey n).
Proof.
  unfold migrate. split.
  - intros k. revert ratings. induction allArtists as [|b l IH]; simpl; intros ratings H.
    + reflexivity.
    + rewrite IH by (intros c n Hc; apply H; right; exact Hc).
      apply migrateOne_other. intros n Hn. apply (H b n); [left; reflexivity|exact Hn].
  - intros n. revert ratings. induction allArtists as [|b l IH]; simpl; intros ratings T.
    + reflexivity.
    + rewrite IH; [apply migrateOne_keeps_eid; exact T|].
      rewrite migrateOne_keeps_eid by exact T. exact T.
Qed.

Lemma migrate_frame_witness :
  migrate [mkArtist "Band X" (Some 42%nat)] (<["eid_42" := 4]> (<["name_band_x" := 1]> ∅))
    !! eidKey 42
  = (<["eid_42" := 4]> (<["name_band_x" := 1]> ∅) : gmap string Z) !! eidKey 42.
Proof.
  apply (proj2 (migrate_frame [mkArtist "Band X" (Some 42%nat)]
                  (<["eid_42" := 4]> (<["name_band_x" := 1]> ∅))) 42%nat).
  vm_compute. reflexivity.
Defined.

End MigrationMore.

(** ** Comma-separated fields *)

Section FieldFacts.

Import Importer.

Lemma string_app_assoc (a b c : string) : (a +:+ b) +:+ c = a +:+ (b +:+ c).
Proof.
  induction a as [|x a IH]; [reflexivity|].
  change (String x ((a +:+ b) +:+ c) = String x (a +:+ (b +:+ c))).
  f_equal. exact IH.
Qed.

Lemma string_app_empty (a : string) : a +:+ EmptyString = a.
Proof.
  induction a as [|x a IH]; [reflexivity|].
  change (String x (a +:+ EmptyString) = String x a). f_equal. exact IH.
Qed.

Lemma splitFields_in_quotes f rest cur :
  freeOf quote f = true ->
  splitFields (f +:+ String quote rest) cur true = splitFields rest (cur +:+ f) false.
Proof.
  unfold freeOf. revert cur. induction f as [|x f IH]; simpl; intros cur H.
  - rewrite string_app_empty. reflexivity.
  - apply andb_true_iff in H as [Hx Hf]. apply negb_true_iff in Hx. rewrite Hx.
    rewrite andb_false_r. rewrite (IH _ Hf). rewrite string_app_assoc. reflexivity.
Qed.

Lemma splitFields_bare f rest cur :
  freeOf quote f = true -> freeOf "," f = true ->
  splitFields (f +:+ rest) cur false = splitFields rest (cur +:+ f) false.
Proof.
  unfold freeOf. revert cur. induction f as [|x f IH]; simpl; intros cur Hq Hc.
  - rewrite string_app_empty. reflexivity.
  - apply andb_true_iff in Hq as [Hx Hq]. apply negb_true_iff in Hx. rewrite Hx.
    apply andb_true_iff in Hc as [Hy Hc]. apply negb_true_iff in Hy. rewrite Hy. simpl.
    rewrite (IH _ Hq Hc). rewrite string_app_assoc. reflexivity.
Qed.

Lemma splitFields_written qf rest :
  writable qf ->
  splitFields (writtenField qf +:+ rest) EmptyString false
  = splitFields rest (snd qf) false.
Proof.
  intros [Hq Hc]. unfold writtenField. destruct qf as [[|] f]; simpl in *.
  - rewrite string_app_assoc. simpl.
    exact (splitFields_in_quotes f rest EmptyString Hq).
  - exact (splitFields_bare f rest EmptyString Hq (Hc eq_refl)).
Qed.

(** X24. Splitting a written line gives back its fields, trimmed: for
    fields without double quotes, each written between double quotes or, if
    it has no comma, bare, and joined by commas, the field loop returns the
    trimmed fields in order.  A comma between double quotes does not
    separate. *)
Theorem splitFields_of_written_line (fs : list (bool * string)) :
  fs <> [] -> Forall writable fs ->
  splitFields (joinComma (map writtenField fs)) EmptyString false
  = map (fun qf => JS.trim (snd qf)) fs.
Proof.
  intros Hne H. induction H as [|qf fs Hqf Hfs IH]; [contradiction|].
  destruct fs as [|qf' fs'].
  - simpl. rewrite <- (string_app_empty (writtenField qf)).
    rewrite (splitFields_written qf EmptyString Hqf). reflexivity.
  - change (joinComma (map writtenField (qf :: qf' :: fs')))
      with (writtenField qf +:+ String "," (joinComma (map writtenField (qf' :: fs')))).
    rewrite (splitFields_written qf _ Hqf). simpl splitFields.
    change (map (fun qf0 => JS.trim (snd qf0)) (qf :: qf' :: fs'))
      with (JS.trim (snd qf) :: map (fun qf0 => JS.trim (snd qf0)) (qf' :: fs')).
    f_equal. apply IH. discriminate.
Qed.

Lemma splitFields_of_written_line_witness :
  splitFields (joinComma (map writtenField [(false, "9:00 AM"); (true, " Band, The ")]))
              EmptyString false
  = map (fun qf => JS.trim (snd qf)) [(false, "9:00 AM"); (true, " Band, The ")]%string.
Proof.
  apply (splitFields_of_written_line [(false, "9:00 AM"); (true, " Band, The ")]%string).
  - discriminate.
  - repeat constructor; simpl; try reflexivity; discriminate.
Defined.

End FieldFacts.

Section TrimFacts.

Lemma allChars_dropWhile p q s :
  JS.allChars p s = true -> JS.allChars p (JS.dropWhile q s) = true.
Proof.
  induction s as [|x s IH]; simpl; intros H; [reflexivity|].
  destruct (q x); [|exact H].
  apply andb_true_iff in H as [_ H]. apply IH. exact H.
Qed.

Lemma allChars_trimEnd p s :
  JS.allChars p s = true -> JS.allChars p (JS.trimEnd s) = true.
Proof.
  induction s as [|x s IH]; simpl; intros H; [reflexivity|].
  apply andb_true_iff in H as [Hx H]. specialize (IH H).
  destruct (JS.trimEnd s) as [|y r].
  - destruct (JS.isSpace x); simpl; [reflexivity|]. rewrite Hx. reflexivity.
  - simpl in *. rewrite Hx. exact IH.
Qed.

Lemma allChars_trim p s : JS.allChars p s = true -> JS.allChars p (JS.trim s) = true.
Proof.
  intros H. apply allChars_trimEnd, allChars_dropWhile. exact H.
Qed.

Lemma trimEnd_idem s : JS.trimEnd (JS.trimEnd s) = JS.trimEnd s.
Proof.
  induction s as [|x s IH]; simpl; [reflexivity|].
  destruct (JS.trimEnd s) as [|y r] eqn:E.
  - destruct (JS.isSpace x) eqn:Sx; simpl; [reflexivity|]. rewrite Sx. reflexivity.
  - simpl. simpl in IH. rewrite IH. reflexivity.
Qed.

Lemma trimEnd_head x s :
  JS.isSpace x = false -> exists r, JS.trimEnd (String x s) = String x r.
Proof.
  intros Hx. simpl. destruct (JS.trimEnd s); [rewrite Hx|]; eauto.
Qed.

(** [trim] of a trimmed string changes nothing. *)
Lemma trim_idem s : JS.trim (JS.trim s) = JS.trim s.
Proof.
  unfold JS.trim, JS.trimStart.
  assert (H : JS.dropWhile JS.isSpace (JS.trimEnd (JS.dropWhile JS.isSpace s))
              = JS.trimEnd (JS.dropWhile JS.isSpace s)).
  { induction s as [|x s IH]; simpl; [reflexivity|].
    destruct (JS.isSpace x) eqn:Sx; [exact IH|].
    destruct (trimEnd_head x s Sx) as [r ->]. simpl. rewrite Sx. reflexivity. }
  rewrite H. apply trimEnd_idem.
Qed.

End TrimFacts.

Section FieldShape.

Import Importer.

Lemma splitFields_shape row cur inQuotes f :
  freeOf quote cur = true ->
  In f (splitFields row cur inQuotes) ->
  JS.trim f = f /\ freeOf quote f = true.
Proof.
  unfold freeOf. revert cur inQuotes. induction row as [|x row IH]; simpl; intros cur q Hc Hf.
  - destruct Hf as [<-|[]]. split; [apply trim_idem|apply allChars_trim; exact Hc].
  - destruct (Ascii.eqb x quote) eqn:Ex; [exact (IH _ _ Hc Hf)|].
    destruct (Ascii.eqb x "," && negb q).
    + destruct Hf as [<-|Hf].
      * split; [apply trim_idem|apply allChars_trim; exact Hc].
      * exact (IH EmptyString q eq_refl Hf).
    + refine (IH _ q _ Hf). rewrite allChars_append, Hc.
      change (negb (Ascii.eqb x quote) && true = true). rewrite Ex. reflexivity.
Qed.

Lemma splitFields_nonempty row cur inQuotes : splitFields row cur inQuotes <> [].
Proof.
  revert cur inQuotes. induction row as [|x row IH]; simpl; intros cur q; [discriminate|].
  destruct (Ascii.eqb x quote); [apply IH|].
  destruct (Ascii.eqb x "," && negb q); [discriminate|apply IH].
Qed.

(** X25. Every row has at least one field, and the fields of every row are
    trimmed and hold no double quote: the quote characters only switch the
    quoted mode and are dropped, a doubled quote included. *)
Theorem parseRows_fields_clean (csvText : string) (row : list string) :
  In row (parseRows csvText) ->
  row <> []
  /\ forall f, In f row -> JS.trim f = f /\ freeOf quote f = true.
Proof.
  unfold parseRows. intros Hrow.
  apply in_map_iff in Hrow as (line & <- & _).
  split; [apply splitFields_nonempty|].
  intros f Hf. exact (splitFields_shape line EmptyString false f eq_refl Hf).
Qed.

Lemma parseRows_fields_clean_witness :
  [""; "Band Z"; ""]%string <> []
  /\ forall f, In f [""; "Band Z"; ""]%string -> JS.trim f = f /\ freeOf quote f = true.
Proof.
  apply (parseRows_fields_clean exampleGrid [""; "Band Z"; ""]%string).
  vm_compute. right. right. left. reflexivity.
Defined.

End FieldShape.

(** ** Days *)

Section DayFacts.

Import Arrays.

Lemma existsb_eqb_In x (l : list string) : existsb (String.eqb x) l = true <-> In x l.
Proof.
  rewrite existsb_exists. split.
  - intros (y & Hy & E). apply String.eqb_eq in E. subst. exact Hy.
  - intros H. exists x. split; [exact H|apply String.eqb_refl].
Qed.

Lemma uniq_fold xs seen :
  List.NoDup seen ->
  let out := fold_left (fun seen x => if existsb (String.eqb x) seen then seen
                                      else seen ++ [x]) xs seen in
  List.NoDup out /\ (forall x, In x out <-> In x seen \/ In x xs).
Proof.
  revert seen. induction xs as [|y xs IH]; simpl; intros seen N.
  - split; [exact N|]. intros x. tauto.
  - destruct (existsb (String.eqb y) seen) eqn:E.
    + destruct (IH seen N) as [N' I']. split; [exact N'|].
      intros x. rewrite I'. apply existsb_eqb_In in E.
      split; [tauto|]. intros [H|[<-|H]]; auto.
    + assert (~ In y seen) as Ny.
      { intros H. apply existsb_eqb_In in H. congruence. }
      destruct (IH (seen ++ [y])) as [N' I'].
      { apply List.NoDup_app; [exact N|constructor; [intros []|constructor]|].
        intros a Ha [<-|[]]. exact (Ny Ha). }
      split; [exact N'|]. intros x. rewrite I', in_app_iff. simpl. tauto.
Qed.

Lemma uniq_NoDup xs : List.NoDup (uniq xs).
Proof.
  apply (uniq_fold xs []). constructor.
Qed.

Lemma uniq_In xs x : In x (uniq xs) <-> In x xs.
Proof.
  destruct (uniq_fold xs [] (List.NoDup_nil _)) as [_ I]. unfold uniq.
  rewrite I. simpl. tauto.
Qed.

Lemma insertStr_perm x l : Permutation (insertStr x l) (x :: l).
Proof.
  induction l as [|y l IH]; simpl; [reflexivity|].
  destruct (String.leb x y); [reflexivity|]. rewrite IH. apply perm_swap.
Qed.

Lemma sortStr_perm l : Permutation (sortStr l) l.
Proof.
  induction l as [|x l IH]; simpl; [reflexivity|].
  rewrite insertStr_perm. constructor. exact IH.
Qed.



Lemma insertStr_sorted x l : Sorted strLe l -> Sorted strLe (insertStr x l).
Proof.
  induction 1 as [|y l Hs IH Hy]; simpl.
  - repeat constructor.
  - destruct (String.leb x y) eqn:L.
    + constructor; [constructor; assumption|]. constructor. exact L.
    + constructor; [exact IH|].
      assert (strLe y x) as Hyx.
      { destruct (String.leb_total x y) as [H|H]; [congruence|exact H]. }
      destruct l as [|z l]; simpl.
      * constructor. exact Hyx.
      * destruct (String.leb x z); constructor; [exact Hyx|].
        inversion Hy. assumption.
Qed.

Lemma sortStr_sorted l : Sorted strLe (sortStr l).
Proof.
  induction l as [|x l IH]; simpl; [constructor|].
  apply insertStr_sorted. exact IH.
Qed.

(** X26. [allDays] lists each day that has a show exactly once, in
    ascending order of the day strings. *)
Theorem allDays_sorted_distinct (allShows : list Show) :
  Sorted (fun a b => String.leb a b = true) (Days.allDays allShows)
  /\ List.NoDup (Days.allDays allShows)
  /\ forall d, In d (Days.allDays allShows) <-> exists s, In s allShows /\ day s = d.
Proof.
  unfold Days.allDays. split; [apply sortStr_sorted|]. split.
  - apply (Permutation_NoDup (Permutation_sym (sortStr_perm _))). apply uniq_NoDup.
  - intros d. split.
    + intros H. apply (Permutation_in _ (sortStr_perm _)) in H.
      apply uniq_In, in_map_iff in H as (s & E & Hs). eauto.
    + intros (s & Hs & E). apply (Permutation_in _ (Permutation_sym (sortStr_perm _))).
      apply uniq_In, in_map_iff. eauto.
Qed.

End DayFacts.

(** ** Venue order *)

Section ClusterMaps.

Import Venues.

Lemma fold_insert_key (k : string) (c : list string) (m : gmap string string) v :
  fold_left (fun m v => <[v := k]> m) c m !! v
  = if existsb (String.eqb v) c then Some k else m !! v.
Proof.
  revert m. induction c as [|x c IH]; simpl; intros m; [reflexivity|].
  rewrite IH. destruct (existsb (String.eqb v) c); [rewrite orb_true_r; reflexivity|].
  rewrite orb_false_r. destruct (String.eqb_spec v x) as [->|N].
  - apply lookup_insert_eq.
  - apply lookup_insert_ne. congruence.
Qed.

Lemma toKey_fold_source (L : list (list string)) (m : gmap string string) v k :
  fold_left (fun m cluster => fold_left (fun m v => <[v := keyOf cluster]> m) cluster m) L m
    !! v = Some k ->
  m !! v = Some k \/ exists c, In c L /\ In v c /\ k = keyOf c.
Proof.
  revert m. induction L as [|c L IH]; simpl; intros m H; [left; exact H|].
  apply IH in H as [H|(c' & Hc & Hv & E)].
  - rewrite fold_insert_key in H. destruct (existsb (String.eqb v) c) eqn:E.
    + right. exists c. apply existsb_eqb_In in E. injection H as <-. auto.
    + left. exact H.
  - right. exists c'. auto.
Qed.

Lemma toKey_fold_skip (L : list (list string)) (m : gmap string string) v :
  ~ In v (concat L) ->
  fold_left (fun m cluster => fold_left (fun m v => <[v := keyOf cluster]> m) cluster m) L m
    !! v = m !! v.
Proof.
  revert m. induction L as [|c L IH]; simpl; intros m H; [reflexivity|].
  rewrite in_app_iff in H. rewrite IH by tauto. rewrite fold_insert_key.
  destruct (existsb (String.eqb v) c) eqn:E; [|reflexivity].
  apply existsb_eqb_In in E. tauto.
Qed.

Lemma toKey_fold_member (L : list (list string)) (m : gmap string string) c v :
  List.NoDup (concat L) -> In c L -> In v c ->
  fold_left (fun m cluster => fold_left (fun m v => <[v := keyOf cluster]> m) cluster m) L m
    !! v = Some (keyOf c).
Proof.
  revert m. induction L as [|c0 L IH]; simpl; intros m N Hc Hv; [contradiction|].
  destruct Hc as [->|Hc].
  - rewrite toKey_fold_skip.
    + rewrite fold_insert_key.
      apply existsb_eqb_In in Hv. rewrite Hv. reflexivity.
    + intros H. apply List.NoDup_app_remove_l in N as N'.
      clear IH N'. revert N Hv H. generalize (concat L). intros r N Hv H.
      induction c as [|x c IHc]; [contradiction|].
      simpl in N. apply List.NoDup_cons_iff in N as [Nx N].
      destruct Hv as [->|Hv]; [apply Nx, in_app_iff; auto|auto].
  - apply IH; [|exact Hc|exact Hv]. eapply List.NoDup_app_remove_l. exact N.
Qed.

Lemma byKey_fold_skip (L : list (list string)) (m : gmap string (list string)) k :
  (forall c, In c L -> keyOf c <> k) ->
  fold_left (fun m cluster => <[keyOf cluster := cluster]> m) L m !! k = m !! k.
Proof.
  revert m. induction L as [|c L IH]; simpl; intros m H; [reflexivity|].
  rewrite IH by auto. apply lookup_insert_ne. apply H. auto.
Qed.

Lemma keyOf_In c : c <> [] -> In (keyOf c) c.
Proof.
  destruct c; [congruence|]. intros _. left. reflexivity.
Qed.

Lemma NoDup_app_disjoint (a b : list string) x :
  List.NoDup (a ++ b) -> In x a -> In x b -> False.
Proof.
  induction a as [|y a IH]; simpl; intros N Ha Hb; [contradiction|].
  apply List.NoDup_cons_iff in N as [Ny N]. destruct Ha as [->|Ha].
  - apply Ny, in_app_iff. auto.
  - exact (IH N Ha Hb).
Qed.

Lemma byKey_fold_member (L : list (list string)) (m : gmap string (list string)) c :
  List.NoDup (concat L) -> List.Forall (fun c => c <> []) L -> In c L ->
  fold_left (fun m cluster => <[keyOf cluster := cluster]> m) L m !! keyOf c = Some c.
Proof.
  revert m. induction L as [|c0 L IH]; simpl; intros m N F Hc; [contradiction|].
  inversion F as [|? ? F0 FL]; subst.
  destruct Hc as [->|Hc].
  - rewrite byKey_fold_skip; [apply lookup_insert_eq|].
    intros c' Hc' E.
    apply (NoDup_app_disjoint _ _ (keyOf c) N); [apply keyOf_In; exact F0|].
    apply in_concat. exists c'. split; [exact Hc'|]. rewrite <- E. apply keyOf_In.
    rewrite List.Forall_forall in FL. auto.
  - apply IH; [|exact FL|exact Hc]. eapply List.NoDup_app_remove_l. exact N.
Qed.

Lemma NoDup_concat_member (L : list (list string)) c :
  List.NoDup (concat L) -> In c L -> List.NoDup c.
Proof.
  induction L as [|c0 L IH]; simpl; intros N Hc; [contradiction|].
  destruct Hc as [->|Hc].
  - eapply List.NoDup_app_remove_r. exact N.
  - apply IH; [|exact Hc]. eapply List.NoDup_app_remove_l. exact N.
Qed.

End ClusterMaps.

Section VisitLoop.

Import Venues.

Variables (venueSet : list string) (toKey : gmap string string)
          (byKey : gmap string (list string)) (maxOf : gmap string Z).

Local Abbreviation members := (membersOf venueSet toKey byKey).
Local Abbreviation step := (visit venueSet toKey byKey maxOf).

Lemma visit_processed st v :
  fst (step st v)
  = if existsb (String.eqb v) (fst st) then fst st else fst st ++ members v.
Proof.
  unfold visit, membersOf. destruct st as [p g]. simpl.
  destruct (existsb (String.eqb v) p); [reflexivity|].
  destruct (toKey !! v) as [k|]; [|reflexivity].
  destruct (negb (String.eqb k EmptyString)); reflexivity.
Qed.

Lemma visit_groups st v :
  flat_map venues (snd st) = fst st ->
  flat_map venues (snd (step st v)) = fst (step st v).
Proof.
  unfold visit. destruct st as [p g]. simpl. intros H.
  destruct (existsb (String.eqb v) p); [exact H|].
  destruct (toKey !! v) as [k|]; [destruct (negb (String.eqb k EmptyString))|];
    cbn [fst snd]; rewrite flat_map_app, H; cbn [flat_map venues]; rewrite app_nil_r; reflexivity.
Qed.

Lemma loop_groups l st :
  flat_map venues (snd st) = fst st ->
  flat_map venues (snd (fold_left step l st)) = fst (fold_left step l st).
Proof.
  revert st. induction l as [|v l IH]; simpl; intros st H; [exact H|].
  apply IH, visit_groups, H.
Qed.

Lemma members_within v x : In v venueSet -> In x (members v) -> In x venueSet.
Proof.
  unfold membersOf. intros Hv Hx.
  assert (In x [v] -> In x venueSet) as S by (intros [<-|[]]; exact Hv).
  destruct (toKey !! v) as [k|]; [|auto].
  destruct (negb (String.eqb k EmptyString)); [|auto].
  apply filter_In in Hx as [_ Hx]. apply existsb_eqb_In. exact Hx.
Qed.

Lemma loop_within l st :
  (forall v, In v l -> In v venueSet) ->
  (forall x, In x (fst st) -> In x venueSet) ->
  forall x, In x (fst (fold_left step l st)) -> In x venueSet.
Proof.
  revert st. induction l as [|v l IH]; simpl; intros st Hl Hst; [exact Hst|].
  apply IH; [auto|]. intros x. rewrite visit_processed.
  destruct (existsb (String.eqb v) (fst st)); [apply Hst|].
  rewrite in_app_iff. intros [H|H]; [auto|].
  apply (members_within v); auto.
Qed.

(** The groups partition the venues of the day. *)
Hypothesis members_self : forall v, In v venueSet -> In v (members v).
Hypothesis members_class :
  forall v x, In v venueSet -> In x (members v) -> members x = members v.
Hypothesis members_NoDup : forall v, In v venueSet -> List.NoDup (members v).

Local Abbreviation closed := (closedUnder venueSet toKey byKey).

Lemma visit_closed st v :
  In v venueSet -> closed (fst st) -> closed (fst (step st v)) /\ In v (fst (step st v))
  /\ forall x, In x (fst st) -> In x (fst (step st v)).
Proof.
  unfold closedUnder. intros Hv (N & S & C). rewrite visit_processed.
  destruct (existsb (String.eqb v) (fst st)) eqn:E.
  - apply existsb_eqb_In in E. repeat split; auto.
  - assert (~ In v (fst st)) as Nv.
    { intros H. apply existsb_eqb_In in H. congruence. }
    split; [|split].
    + split; [|split].
      * apply List.NoDup_app; [exact N|apply members_NoDup; exact Hv|].
        intros x Hp Hm. apply Nv. apply (C x v Hp).
        rewrite (members_class v x Hv Hm). apply members_self. exact Hv.
      * intros x. rewrite in_app_iff. intros [H|H]; [auto|].
        apply (members_within v); auto.
      * intros x y. rewrite !in_app_iff. intros [H|H] Hy.
        -- left. exact (C x y H Hy).
        -- right. rewrite (members_class v x Hv H) in Hy. exact Hy.
    + apply in_app_iff. right. apply members_self. exact Hv.
    + intros x H. apply in_app_iff. auto.
Qed.

Lemma loop_closed l st :
  (forall v, In v l -> In v venueSet) -> closed (fst st) ->
  closed (fst (fold_left step l st))
  /\ forall x, In x (fst st) \/ In x l -> In x (fst (fold_left step l st)).
Proof.
  revert st. induction l as [|v l IH]; simpl; intros st Hl C.
  - split; [exact C|]. intros x [H|[]]. exact H.
  - destruct (visit_closed st v (Hl v (or_introl eq_refl)) C) as (C' & Hv & Hk).
    destruct (IH (step st v) (fun x H => Hl x (or_intror H)) C') as [C2 K].
    split; [exact C2|]. intros x [H|[<-|H]]; apply K; auto.
Qed.

End VisitLoop.

Section VenueOrder.

Import Venues Arrays.

Variables (clusterDefs : list (list string)) (getRating : Show -> Z) (dayShows : list Show).

Local Abbreviation venueSet := (uniq (map venue dayShows)).
Local Abbreviation toKey := (venueToClusterKey clusterDefs).
Local Abbreviation byKey := (clusterByKey clusterDefs).

Lemma insertGroup_perm g l : Permutation (insertGroup g l) (g :: l).
Proof.
  induction l as [|h l IH]; simpl; [reflexivity|].
  destruct (maxRating h <=? maxRating g); [reflexivity|]. rewrite IH. apply perm_swap.
Qed.

Lemma sortGroups_perm l : Permutation (sortGroups l) l.
Proof.
  induction l as [|g l IH]; simpl; [reflexivity|].
  rewrite insertGroup_perm. constructor. exact IH.
Qed.

Lemma venueSet_In v : In v venueSet <-> exists s, In s dayShows /\ venue s = v.
Proof.
  rewrite uniq_In, in_map_iff. split; intros (s & A & B); eauto.
Qed.

Lemma sorted_venues_In v : In v (sortStr venueSet) <-> In v venueSet.
Proof.
  split; apply Permutation_in; [|symmetry]; apply sortStr_perm.
Qed.

Lemma ordered_venues_processed :
  Permutation (getOrderedVenuesForDay clusterDefs getRating dayShows)
    (fst (fold_left (visit venueSet toKey byKey (venueMaxRating getRating dayShows))
            (sortStr venueSet) ([], []))).
Proof.
  unfold getOrderedVenuesForDay, buildGroups.
  rewrite <- loop_groups by reflexivity.
  apply Permutation_flat_map, sortGroups_perm.
Qed.

Hypothesis clusters_disjoint : List.NoDup (concat clusterDefs).
Hypothesis clusters_nonempty : List.Forall (fun c => c <> []) clusterDefs.

Lemma members_cluster v k :
  toKey !! v = Some k ->
  exists c, In c clusterDefs /\ In v c /\ k = keyOf c /\ byKey !! k = Some c.
Proof.
  intros E. apply toKey_fold_source in E as [E|(c & Hc & Hv & ->)].
  - rewrite lookup_empty in E. discriminate.
  - exists c. repeat split; auto. apply byKey_fold_member; assumption.
Qed.

Lemma members_self_wf v :
  In v venueSet -> In v (membersOf venueSet toKey byKey v).
Proof.
  intros Hv. unfold membersOf. destruct (toKey !! v) as [k|] eqn:E; [|left; reflexivity].
  destruct (negb (String.eqb k EmptyString)); [|left; reflexivity].
  destruct (members_cluster v k E) as (c & Hc & Hvc & -> & B). rewrite B. simpl.
  apply filter_In. split; [exact Hvc|]. apply existsb_eqb_In. exact Hv.
Qed.

Lemma members_class_wf v x :
  In v venueSet -> In x (membersOf venueSet toKey byKey v) ->
  membersOf venueSet toKey byKey x = membersOf venueSet toKey byKey v.
Proof.
  intros Hv. unfold membersOf at 1 3.
  assert (In x [v] -> membersOf venueSet toKey byKey x = [v]
          -> membersOf venueSet toKey byKey x = [v]) as T by auto.
  destruct (toKey !! v) as [k|] eqn:E.
  - destruct (negb (String.eqb k EmptyString)) eqn:K.
    + destruct (members_cluster v k E) as (c & Hc & Hvc & -> & B). rewrite B. simpl.
      intros Hx. apply filter_In in Hx as [Hx _].
      unfold membersOf. unfold venueToClusterKey at 1.
      rewrite (toKey_fold_member clusterDefs ∅ c x clusters_disjoint Hc Hx).
      rewrite K, B. reflexivity.
    + intros [<-|[]]. unfold membersOf. rewrite E, K. reflexivity.
  - intros [<-|[]]. unfold membersOf. rewrite E. reflexivity.
Qed.

Lemma members_NoDup_wf v : In v venueSet -> List.NoDup (membersOf venueSet toKey byKey v).
Proof.
  intros Hv. unfold membersOf.
  assert (List.NoDup [v]) as S by (constructor; [intros []|constructor]).
  destruct (toKey !! v) as [k|] eqn:E; [|exact S].
  destruct (negb (String.eqb k EmptyString)); [|exact S].
  destruct (members_cluster v k E) as (c & Hc & Hvc & -> & B). rewrite B. simpl.
  apply List.NoDup_filter. exact (NoDup_concat_member clusterDefs c clusters_disjoint Hc).
Qed.

End VenueOrder.

(** X27. Whatever the clusters are, [getOrderedVenuesForDay] returns only
    venues at which the day has a show. *)
Theorem getOrderedVenuesForDay_venues_of_day (clusterDefs : list (list string))
    (getRating : Show -> Z) (dayShows : list Show) (v : string) :
  In v (Venues.getOrderedVenuesForDay clusterDefs getRating dayShows) ->
  exists s, In s dayShows /\ venue s = v.
Proof.
  intros H. apply venueSet_In.
  apply (Permutation_in _ (ordered_venues_processed clusterDefs getRating dayShows)) in H.
  revert v H. apply loop_within.
  - intros v. apply sorted_venues_In.
  - intros x [].
Qed.

Lemma getOrderedVenuesForDay_venues_of_day_witness :
  exists s, In s [otherShow; dupShow] /\ venue s = "Venue A"%string.
Proof.
  apply (getOrderedVenuesForDay_venues_of_day
           [["Venue B"; "Venue C"]]%string (fun _ => 0) [otherShow; dupShow] "Venue A").
  vm_compute. left. reflexivity.
Defined.

(** X28. When no venue is listed in two clusters or twice in one, no
    cluster is empty, and no venue of the day's shows names a property of
    [Object.prototype], [getOrderedVenuesForDay] returns every venue of the
    day's shows exactly once. *)
Theorem getOrderedVenuesForDay_each_venue_once (clusterDefs : list (list string))
    (getRating : Show -> Z) (dayShows : list Show) :
  plainVenues dayShows ->
  List.NoDup (concat clusterDefs) ->
  List.Forall (fun c => c <> []) clusterDefs ->
  List.NoDup (Venues.getOrderedVenuesForDay clusterDefs getRating dayShows)
  /\ forall v, In v (Venues.getOrderedVenuesForDay clusterDefs getRating dayShows)
               <-> exists s, In s dayShows /\ venue s = v.
Proof.
  intros _ N F.
  pose proof (ordered_venues_processed clusterDefs getRating dayShows) as P.
  destruct (loop_closed (Arrays.uniq (map venue dayShows))
              (Venues.venueToClusterKey clusterDefs) (Venues.clusterByKey clusterDefs)
              (Venues.venueMaxRating getRating dayShows)
              (members_self_wf clusterDefs dayShows N F)
              (members_class_wf clusterDefs dayShows N F)
              (members_NoDup_wf clusterDefs dayShows N F)
              (Arrays.sortStr (Arrays.uniq (map venue dayShows))) ([], []))
    as [(Nd & S & _) K].
  - intros v. apply sorted_venues_In.
  - split; [constructor|]. split; [intros x []|intros x y []].
  - split.
    + apply (Permutation_NoDup (Permutation_sym P)). exact Nd.
    + intros v. rewrite <- venueSet_In. split.
      * intros H. apply S. apply (Permutation_in _ P). exact H.
      * intros H. apply (Permutation_in _ (Permutation_sym P)). apply K. right.
        apply sorted_venues_In. exact H.
Qed.

Lemma getOrderedVenuesForDay_each_venue_once_witness :
  List.NoDup (Venues.getOrderedVenuesForDay [["Venue B"; "Venue C"]]%string (fun _ => 0)
                [otherShow; dupShow])
  /\ forall v, In v (Venues.getOrderedVenuesForDay [["Venue B"; "Venue C"]]%string
                       (fun _ => 0) [otherShow; dupShow])
               <-> exists s, In s [otherShow; dupShow] /\ venue s = v.
Proof.
  apply (getOrderedVenuesForDay_each_venue_once
           [["Venue B"; "Venue C"]]%string (fun _ => 0) [otherShow; dupShow]).
  - intros s [<-|[<-|[]]]; reflexivity.
  - simpl. constructor; [intros [H|[]]; discriminate|].
    constructor; [intros []|constructor].
  - constructor; [discriminate|constructor].
Defined.

Section GroupRatings.

Import Venues Arrays.

Variables (getRating : Show -> Z) (dayShows : list Show).

Lemma fold_max_spec (xs : list Z) (a : Z) :
  let r := fold_left Z.max xs a in
  a <= r /\ (forall x, In x xs -> x <= r) /\ (r = a \/ In r xs).
Proof.
  revert a. induction xs as [|x xs IH]; simpl; intros a.
  - split; [lia|]. split; [intros x []|left; reflexivity].
  - destruct (IH (Z.max a x)) as (A & B & C). split; [lia|]. split.
    + intros y [<-|Hy]; [lia|auto].
    + destruct C as [C|C]; [|auto].
      destruct (Z.max_spec a x) as [[_ E]|[_ E]]; rewrite C, E;
        [right; left; reflexivity|left; reflexivity].
Qed.

Lemma venueMaxRating_step (m : gmap string Z) (s : Show) v :
  default 0 ((if getRating s >? default 0 (m !! venue s)
              then <[venue s := getRating s]> m else m) !! v)
  = if String.eqb (venue s) v then Z.max (default 0 (m !! v)) (getRating s)
    else default 0 (m !! v).
Proof.
  destruct (String.eqb_spec (venue s) v) as [<-|N].
  - destruct (getRating s >? default 0 (m !! venue s)) eqn:G.
    + rewrite lookup_insert_eq. simpl. lia.
    + lia.
  - destruct (getRating s >? default 0 (m !! venue s)); [|reflexivity].
    rewrite lookup_insert_ne by exact N. reflexivity.
Qed.

Lemma venueMaxRating_fold (shows : list Show) (m : gmap string Z) v :
  let r := default 0 (fold_left
                        (fun m show =>
                           let r := getRating show in
                           if r >? default 0 (m !! venue show)
                           then <[venue show := r]> m else m) shows m !! v) in
  default 0 (m !! v) <= r
  /\ (forall s, In s shows -> venue s = v -> getRating s <= r)
  /\ (r = default 0 (m !! v) \/ exists s, In s shows /\ venue s = v /\ getRating s = r).
Proof.
  revert m. induction shows as [|s shows IH]; intros m.
  - simpl. split; [lia|]. split; [intros s []|left; reflexivity].
  - cbn [fold_left]. cbv zeta.
    specialize (IH (if getRating s >? default 0 (m !! venue s)
                    then <[venue s := getRating s]> m else m)).
    cbv zeta in IH. rewrite venueMaxRating_step in IH.
    destruct IH as (A & B & C).
    destruct (String.eqb_spec (venue s) v) as [E|N].
    + split; [lia|]. split.
      * intros s' [<-|H] Es; [lia|auto].
      * destruct C as [C|(s' & Hs & Es & Er)]; [|right; exists s'; simpl; auto].
        destruct (Z.max_spec (default 0 (m !! v)) (getRating s)) as [[_ M]|[_ M]];
          rewrite M in C; [|left; exact C].
        right. exists s. simpl. auto.
    + split; [exact A|]. split.
      * intros s' [<-|H] Es; [contradiction|auto].
      * destruct C as [C|(s' & Hs & Es & Er)]; [left; exact C|].
        right. exists s'. simpl. auto.
Qed.

Lemma venueMaxRating_best v :
  bestRating getRating dayShows [v]
    (default 0 (venueMaxRating getRating dayShows !! v)).
Proof.
  destruct (venueMaxRating_fold dayShows ∅ v) as (A & B & C).
  cbv zeta in A, B, C. rewrite lookup_empty in A, C. simpl in A, C.
  unfold bestRating, venueMaxRating. split; [exact A|]. split.
  - intros s Hs [E|[]]. apply B; auto.
  - destruct C as [C|(s & Hs & Es & Er)]; [left; exact C|].
    right. exists s. simpl. auto.
Qed.

Lemma max0_best (members : list string) :
  bestRating getRating dayShows members
    (max0 (map (fun m => default 0 (venueMaxRating getRating dayShows !! m)) members)).
Proof.
  unfold max0.
  destruct (fold_max_spec
              (map (fun m => default 0 (venueMaxRating getRating dayShows !! m)) members) 0)
    as (A & B & C). cbv zeta in A, B, C.
  split; [exact A|]. split.
  - intros s Hs Hv.
    destruct (venueMaxRating_best (venue s)) as (_ & L & _).
    specialize (L s Hs (or_introl eq_refl)).
    specialize (B _ (in_map (fun m => default 0 (venueMaxRating getRating dayShows !! m))
                            _ _ Hv)).
    cbv beta in B. lia.
  - destruct C as [C|C]; [left; exact C|].
    apply in_map_iff in C as (m & E & Hm).
    destruct (venueMaxRating_best m) as (_ & _ & [Z|(s & Hs & [Ev|[]] & Er)]).
    + left. rewrite <- E. exact Z.
    + right. exists s. rewrite <- E, <- Ev in *. auto.
Qed.

Variables (venueSet : list string) (toKey : gmap string string)
          (byKey : gmap string (list string)).

Local Abbreviation rated :=
  (fun g : Group => bestRating getRating dayShows (venues g) (maxRating g)).

Lemma visit_rated st v :
  List.Forall rated (snd st) ->
  List.Forall rated
    (snd (visit venueSet toKey byKey (venueMaxRating getRating dayShows) st v)).
Proof.
  unfold visit. destruct st as [p g]. simpl. intros H.
  destruct (existsb (String.eqb v) p); [exact H|].
  assert (rated (mkGroup [v] (default 0 (venueMaxRating getRating dayShows !! v)))) as S
    by apply venueMaxRating_best.
  destruct (toKey !! v) as [k|]; [destruct (negb (String.eqb k EmptyString))|];
    cbn [snd]; apply List.Forall_app; (split; [exact H|]);
    (constructor; [|constructor]); try exact S.
  cbn [venues maxRating]. apply max0_best.
Qed.

Lemma loop_rated l st :
  List.Forall rated (snd st) ->
  List.Forall rated
    (snd (fold_left (visit venueSet toKey byKey (venueMaxRating getRating dayShows)) l st)).
Proof.
  revert st. induction l as [|v l IH]; simpl; intros st H; [exact H|].
  apply IH, visit_rated, H.
Qed.

Lemma insertGroup_sorted g l :
  Sorted ratedAbove l -> Sorted ratedAbove (insertGroup g l).
Proof.
  induction 1 as [|h l Hs IH Hh]; simpl.
  - repeat constructor.
  - destruct (maxRating h <=? maxRating g) eqn:L.
    + constructor; [constructor; assumption|]. constructor.
      unfold ratedAbove. lia.
    + constructor; [exact IH|].
      assert (ratedAbove h g) as Hg by (unfold ratedAbove; lia).
      destruct l as [|z l]; simpl.
      * constructor. exact Hg.
      * destruct (maxRating z <=? maxRating g); constructor; [exact Hg|].
        inversion Hh. assumption.
Qed.

Lemma sortGroups_sorted l : Sorted ratedAbove (sortGroups l).
Proof.
  induction l as [|g l IH]; simpl; [constructor|].
  apply insertGroup_sorted. exact IH.
Qed.

End GroupRatings.

(** X29. When no venue of the day's shows names a property of
    [Object.prototype], the venues are returned group by group, the groups
    in descending order of their rating, and the rating of a group is the
    best rating among the day's shows at its venues, zero when none is
    positive. *)
Theorem getOrderedVenuesForDay_groups_by_rating (clusterDefs : list (list string))
    (getRating : Show -> Z) (dayShows : list Show) :
  plainVenues dayShows ->
  let groups := Venues.sortGroups (Venues.buildGroups clusterDefs getRating dayShows) in
  Venues.getOrderedVenuesForDay clusterDefs getRating dayShows
  = flat_map Venues.venues groups
  /\ StronglySorted ratedAbove groups
  /\ forall g, In g groups ->
       bestRating getRating dayShows (Venues.venues g) (Venues.maxRating g).
Proof.
  intros _. cbv zeta. split; [reflexivity|]. split.
  - apply Sorted_StronglySorted; [|apply sortGroups_sorted].
    intros a b c. unfold ratedAbove. lia.
  - intros g Hg. apply (Permutation_in _ (sortGroups_perm _)) in Hg.
    revert g Hg. apply List.Forall_forall.
    unfold Venues.buildGroups. apply loop_rated. constructor.
Qed.

Lemma getOrderedVenuesForDay_groups_by_rating_witness :
  let getRating := fun s => if String.eqb (venue s) "Venue B" then 3 else 0 in
  let groups :=
    Venues.sortGroups
      (Venues.buildGroups [["Venue B"; "Venue C"]]%string getRating [dupShow; otherShow]) in
  Venues.getOrderedVenuesForDay [["Venue B"; "Venue C"]]%string getRating
    [dupShow; otherShow]
  = flat_map Venues.venues groups
  /\ StronglySorted ratedAbove groups
  /\ forall g, In g groups ->
       bestRating getRating [dupShow; otherShow] (Venues.venues g) (Venues.maxRating g).
Proof.
  apply (getOrderedVenuesForDay_groups_by_rating [["Venue B"; "Venue C"]]%string
           (fun s => if String.eqb (venue s) "Venue B" then 3 else 0)
           [dupShow; otherShow]).
  intros s [<-|[<-|[]]]; reflexivity.
Defined.

(** A venue listed in two clusters can be shown twice and hide another:
    with the clusters [["A", "B"]] and [["A", "C"]] the venue "B" points to
    the key "A", under which the second cluster is stored. *)
Example getOrderedVenuesForDay_overlapping_clusters :
  Venues.getOrderedVenuesForDay [["A"; "B"]; ["A"; "C"]]%string (fun _ => 0)
    [cxShow "X" "A" "10:00"; cxShow "Y" "B" "10:00"]
  = ["A"; "A"]%string.
Proof. vm_compute. reflexivity. Qed.
